(** * Audio assembly pipeline of the podcast script-to-speech application

    A shallow embedding of [src/utils/audio.ts] and of the pipeline part of
    [handleGenerateAudio] in [src/App.tsx], with the properties of the audio
    pipeline stated and proved over it; then of the script sent to the
    model and the speech request of [src/services/geminiService.ts], and of
    the component of [src/App.tsx] with its event handlers, with further
    properties of the code.

    Conventions.
    - An [ArrayBuffer] is a list of bytes, and a [Uint8Array] is a view of
      a buffer: the buffer, an offset and a length. An index is a [nat]; a
      length, a literal and the element of an integer array are [Z]s, and
      every store into a typed array or through a [DataView] writes out
      the conversion the platform applies ([ToUint8], [ToUint16],
      [ToUint32], [ToInt16]).
    - A JavaScript number that holds a sample, a volume, a sample rate or
      a channel count is an IEEE 754 binary64 value, an element of a
      [Float32Array] a binary32 value; both are [spec_float]s of the
      Standard Library, with its arithmetic.
    - A function that can throw returns a [result]; [await] is sequencing.
    - Typed-array views use the byte order of the host, taken little-endian
      here, as on every platform the application runs on.
    - A string that holds text of the script is the list of its UTF-16 code
      units; a string of the program (a URL, an error message, the name of
      a voice) is a [string].
    - The component is its state and the part of the browser it acts on;
      an event handler takes both and returns both. *)

From Stdlib Require Import ZArith List Bool Lia String Ascii QArith Qminmax.
From Stdlib Require Import Strings.Byte.
From Stdlib Require Import Floats.SpecFloat.
From stdpp Require Import base tactics list.

Local Open Scope Z_scope.

(** ** Exceptions and the error monad *)

(** The exceptions the code and the platform functions it calls can raise. *)
Inductive exn : Type :=
| RangeError             (* typed-array view or DataView access out of shape *)
| InvalidCharacterError  (* atob on a string that is not base64 *)
| NotSupportedError      (* Web Audio constructor argument out of range *)
| TypeError              (* fetch: the request could not be made;
                            an audio parameter set to a value that is no float *)
| EncodingError          (* decodeAudioData: the bytes are not audio *)
| Error (message : string).

Inductive result (A : Type) : Type :=
| Ok (a : A)
| Throw (e : exn).
Arguments Ok {A} a.
Arguments Throw {A} e.

Definition bind {A B : Type} (m : result A) (k : A -> result B) : result B :=
  match m with
  | Ok a => k a
  | Throw e => Throw e
  end.

Notation "'let*' x ':=' m 'in' k" := (bind m (fun x => k))
  (at level 10, x name, m at level 100, k at level 200).

Definition is_ok {A : Type} (m : result A) : bool :=
  match m with Ok _ => true | Throw _ => false end.

(** [for (let i = 0; i < n; i++) body]: the loop state is threaded through
    the iterations, and an exception leaves the loop. *)
Fixpoint for_loop_from {St : Type} (i n : nat) (body : nat -> St -> result St)
    (s : St) : result St :=
  match n with
  | O => Ok s
  | S n' => let* s' := body i s in for_loop_from (S i) n' body s'
  end.

Definition for_loop {St : Type} (n : nat) (body : nat -> St -> result St)
    (s : St) : result St :=
  for_loop_from 0 n body s.

(** ** Bytes and integer conversions *)

Definition byte_val (b : byte) : Z := Z.of_N (Byte.to_N b).

(** [ToUint8]: the value modulo 2^8. *)
Definition ToUint8 (z : Z) : byte :=
  match Byte.of_N (Z.to_N (z mod 256)) with
  | Some b => b
  | None => x00
  end.

Definition ToUint16 (z : Z) : Z := z mod 65536.
Definition ToUint32 (z : Z) : Z := z mod 4294967296.

(** [ToInt16]: the value modulo 2^16, read as a two's complement number. *)
Definition ToInt16 (z : Z) : Z := (z + 32768) mod 65536 - 32768.

(** The bytes of an unsigned value, least significant first. *)
Fixpoint le_bytes (n : nat) (z : Z) : list byte :=
  match n with
  | O => []
  | S n' => ToUint8 z :: le_bytes n' (z / 256)
  end.

(** The unsigned value of bytes stored least significant first. *)
Fixpoint le_value (bs : list byte) : Z :=
  match bs with
  | [] => 0
  | b :: bs' => byte_val b + 256 * le_value bs'
  end.

(** ** Typed arrays and DataView *)

Definition ArrayBuffer : Type := list byte.

(** [new ArrayBuffer(n)]: [n] zero bytes. *)
Definition new_ArrayBuffer (n : Z) : ArrayBuffer := replicate (Z.to_nat n) x00.

(** The elements of an [Int16Array] laid over a buffer. *)
Fixpoint int16_elements (buf : ArrayBuffer) : list Z :=
  match buf with
  | b0 :: b1 :: rest => ToInt16 (le_value [b0; b1]) :: int16_elements rest
  | _ => []
  end.

(** [new Int16Array(buffer)]: a [RangeError] unless the byte length is a
    multiple of the element size. *)
Definition new_Int16Array (buf : ArrayBuffer) : result (list Z) :=
  if Nat.even (length buf) then Ok (int16_elements buf) else Throw RangeError.

(** The bytes of the buffer under an [Int16Array]. *)
Definition int16_buffer (a : list Z) : ArrayBuffer :=
  flat_map (fun v => le_bytes 2 (ToUint16 v)) a.

(** Reading a typed array outside its bounds gives [undefined], which every
    integer store below turns into 0. *)
Definition element (a : list Z) (i : nat) : Z := nth i a 0.

(** A [Uint8Array]: [byteLength] bytes of a buffer, from [byteOffset] on.
    The array shares the buffer: a store into the array is a store into
    the buffer, and [array.buffer] is the whole buffer, whatever part of it
    the array spans. *)
Record Uint8Array : Type := mkUint8Array {
  buffer : ArrayBuffer;
  byteOffset : nat;
  byteLength : nat
}.

(** [new Uint8Array(buffer)], and [new Uint8Array(n)] with a new buffer of
    [n] bytes: an array that spans its buffer. *)
Definition new_Uint8Array (buffer : ArrayBuffer) : Uint8Array :=
  mkUint8Array buffer 0 (length buffer).

(** [array[i] = v]; a store outside the bounds of the array does nothing. *)
Definition set_element (array : Uint8Array) (i : nat) (v : Z) : Uint8Array :=
  if (i <? byteLength array)%nat
  then mkUint8Array
         (<[(byteOffset array + i)%nat := ToUint8 v]> (buffer array : list byte))
         (byteOffset array) (byteLength array)
  else array.

Definition DataView : Type := ArrayBuffer.

(** The common part of the [DataView] setters: a [RangeError] when the
    element does not fit at the offset, the bytes stored in place
    otherwise. *)
Definition set_bytes (view : DataView) (offset : nat) (bs : list byte)
  : result DataView :=
  if (offset + length bs <=? length view)%nat
  then Ok (take offset view ++ bs ++ drop (offset + length bs) view)
  else Throw RangeError.

Definition setUint8 (view : DataView) (offset : nat) (v : Z) : result DataView :=
  set_bytes view offset [ToUint8 v].

(** The multi-byte setters are only called with [littleEndian = true]. *)
Definition setUint16 (view : DataView) (offset : nat) (v : Z) : result DataView :=
  set_bytes view offset (le_bytes 2 (ToUint16 v)).

Definition setInt16 (view : DataView) (offset : nat) (v : Z) : result DataView :=
  set_bytes view offset (le_bytes 2 (ToUint16 (ToInt16 v))).

Definition setUint32 (view : DataView) (offset : nat) (v : Z) : result DataView :=
  set_bytes view offset (le_bytes 4 (ToUint32 v)).

Definition getUint16 (view : DataView) (offset : nat) : Z :=
  le_value (take 2 (drop offset view)).

Definition getUint32 (view : DataView) (offset : nat) : Z :=
  le_value (take 4 (drop offset view)).

(** [string.charCodeAt(i)]; out of range it is [NaN], stored as 0. *)
Definition charCodeAt (s : string) (i : nat) : Z :=
  match String.get i s with
  | Some c => Z.of_N (N_of_ascii c)
  | None => 0
  end.

Definition ascii_bytes (s : string) : list byte :=
  map byte_of_ascii (list_ascii_of_string s).

Record Blob : Type := mkBlob { blob_bytes : list byte; blob_type : string }.

(** ** JavaScript numbers and [Float32Array] elements

    A JavaScript number is a binary64 value. An element of a
    [Float32Array] is a binary32 value: the type [float32] carries the
    format with it. All arithmetic is that of the Standard Library's
    specification of IEEE 754 ([SFmul], [SFdiv], [SFltb]), rounding to
    nearest, ties to even. *)

Definition prec64 : Z := 53.
Definition emax64 : Z := 1024.
Definition prec32 : Z := 24.
Definition emax32 : Z := 128.

Definition number : Type := spec_float.

Record float32 : Type := mkFloat32 {
  f32_val : spec_float;
  f32_valid : valid_binary prec32 emax32 f32_val = true
}.

Definition f32_nan : float32 := mkFloat32 S754_nan eq_refl.
Definition f32_zero : float32 := mkFloat32 (S754_zero false) eq_refl.

(** The binary32 value with the given representation; rounding only
    produces representations of the format, so the other branch is never
    taken by [Math_fround] below. *)
Definition float32_of (y : spec_float) : float32 :=
  match valid_binary prec32 emax32 y as b
        return valid_binary prec32 emax32 y = b -> float32 with
  | true => fun H => mkFloat32 y H
  | false => fun _ => f32_nan
  end eq_refl.

(** Storing a number into a [Float32Array]: round to binary32. *)
Definition Math_fround (x : number) : float32 :=
  float32_of match x with
             | S754_finite s m e => binary_round prec32 emax32 s m e
             | _ => x
             end.

(** Reading an element of a [Float32Array]: the number of the same value
    (every binary32 value is a binary64 value; [binary_round] only
    normalises the mantissa to 53 bits). *)
Definition float32_number (x : float32) : number :=
  match f32_val x with
  | S754_finite s m e => binary_round prec64 emax64 s m e
  | v => v
  end.

(** An integer as a number (exact below 2^53). *)
Definition number_of_Z (z : Z) : number := binary_normalize prec64 emax64 z 0 false.

Definition is_nan (x : number) : bool :=
  match x with S754_nan => true | _ => false end.

Definition is_neg_zero (x : number) : bool :=
  match x with S754_zero true => true | _ => false end.

Definition is_pos_zero (x : number) : bool :=
  match x with S754_zero false => true | _ => false end.

(** [Math.min(a, b)] and [Math.max(a, b)]: [NaN] if either argument is;
    -0 is below +0. *)
Definition Math_min (a b : number) : number :=
  if is_nan a || is_nan b then S754_nan
  else if is_neg_zero b && is_pos_zero a then b
  else if SFltb b a then b else a.

Definition Math_max (a b : number) : number :=
  if is_nan a || is_nan b then S754_nan
  else if is_pos_zero b && is_neg_zero a then b
  else if SFltb a b then b else a.

(** The integer part of a number, rounding toward zero; 0 for [NaN] and
    the infinities, as in the integer conversions of the language. *)
Definition truncate (x : number) : Z :=
  match x with
  | S754_finite s m e =>
      let a := if 0 <=? e then Zpos m * 2 ^ e else Zpos m / 2 ^ (- e) in
      if s then - a else a
  | _ => 0
  end.

(** Storing a number into an [Int16Array]. *)
Definition Int16_of_number (x : number) : Z := ToInt16 (truncate x).

(** Line 107, [speechChannelData[i] = speechDataInt16[i] / 32768.0]: the
    quotient is a number, the store rounds it to binary32. *)
Definition pcm16_to_float (s : Z) : float32 :=
  Math_fround (SFdiv prec64 emax64 (number_of_Z s) (number_of_Z 32768)).

(** Lines 77-78, for one element of [interleaved]:
    [sample = Math.max(-1, Math.min(1, interleaved[i]))] and
    [pcmData[i] = sample < 0 ? sample * 0x8000 : sample * 0x7FFF]. *)
Definition clamp_sample (f : float32) : number :=
  Math_max (number_of_Z (-1)) (Math_min (number_of_Z 1) (float32_number f)).

Definition scale_sample (sample : number) : number :=
  if SFltb sample (number_of_Z 0)
  then SFmul prec64 emax64 sample (number_of_Z 32768)
  else SFmul prec64 emax64 sample (number_of_Z 32767).

Definition float_to_pcm16 (f : float32) : Z :=
  Int16_of_number (scale_sample (clamp_sample f)).

(** ** [src/utils/audio.ts]: the WAV encoder *)

Definition writeString (view : DataView) (offset : nat) (s : string)
  : result DataView :=
  for_loop (String.length s)
    (fun i view => setUint8 view (offset + i) (charCodeAt s i)) view.

(** The setters of the header are called with numbers: a setter takes the
    integer part of its argument ([truncate]: 0 for [NaN] and the
    infinities) and reduces it to its width. Lines 18 and 19 multiply
    numbers: the products are those of binary64. The lengths and the
    literals are integers, small enough to be exact. *)
Definition pcmToWav (pcmData : Uint8Array) (sampleRate numChannels : number)
  : result Blob :=
  let* pcmDataInt16 := new_Int16Array (buffer pcmData) in
  let format := 1 in
  let bitDepth := 16 in
  let bytesPerSample := bitDepth / 8 in
  let blockAlign := SFmul prec64 emax64 numChannels (number_of_Z bytesPerSample) in
  let byteRate := SFmul prec64 emax64 sampleRate blockAlign in
  let dataSize := Z.of_nat (length pcmDataInt16) * bytesPerSample in
  let chunkSize := 36 + dataSize in
  let view := new_ArrayBuffer (44 + dataSize) in
  let* view := writeString view 0 "RIFF" in
  let* view := setUint32 view 4 chunkSize in
  let* view := writeString view 8 "WAVE" in
  let* view := writeString view 12 "fmt " in
  let* view := setUint32 view 16 16 in
  let* view := setUint16 view 20 format in
  let* view := setUint16 view 22 (truncate numChannels) in
  let* view := setUint32 view 24 (truncate sampleRate) in
  let* view := setUint32 view 28 (truncate byteRate) in
  let* view := setUint16 view 32 (truncate blockAlign) in
  let* view := setUint16 view 34 bitDepth in
  let* view := writeString view 36 "data" in
  let* view := setUint32 view 40 dataSize in
  let* view :=
    for_loop (length pcmDataInt16)
      (fun i view => setInt16 view (44 + i * 2) (element pcmDataInt16 i)) view in
  Ok (mkBlob view "audio/wav").

(** ** [atob]: the platform's base64 decoder

    [atob] is the forgiving-base64 decoder of the web platform: ASCII
    whitespace is removed, one or two trailing [=] are removed when the
    length is a multiple of four, and what is left must consist of base64
    alphabet characters and must not have a length of 1 modulo 4. A
    JavaScript string is modelled by a string of 8-bit characters; every
    character outside that range is outside the alphabet as well. *)

Definition is_ascii_whitespace (c : ascii) : bool :=
  match N_of_ascii c with
  | 9%N | 10%N | 12%N | 13%N | 32%N => true
  | _ => false
  end.

(** The 6-bit value of a character of the base64 alphabet. *)
Definition sextet (c : ascii) : option Z :=
  let n := Z.of_N (N_of_ascii c) in
  if (65 <=? n) && (n <=? 90) then Some (n - 65)
  else if (97 <=? n) && (n <=? 122) then Some (n - 71)
  else if (48 <=? n) && (n <=? 57) then Some (n + 4)
  else if n =? 43 then Some 62
  else if n =? 47 then Some 63
  else None.

Definition is_base64_char (c : ascii) : bool :=
  match sextet c with Some _ => true | None => false end.

Definition is_equals (c : ascii) : bool := (N_of_ascii c =? 61)%N.

(** Remove one or two [=] from the end. *)
Definition strip_equals (data : list ascii) : list ascii :=
  match rev data with
  | c1 :: c2 :: r =>
      if is_equals c1 then (if is_equals c2 then rev r else rev (c2 :: r)) else data
  | [c1] => if is_equals c1 then [] else data
  | [] => data
  end.

Definition strip_padding (data : list ascii) : list ascii :=
  if (length data mod 4 =? 0)%nat then strip_equals data else data.

(** The bytes of a run of sextets: three bytes for each four sextets; a
    last group of three gives two bytes and a last group of two gives one,
    the bits left over being discarded. *)
Fixpoint sextet_bytes (fuel : nat) (ss : list Z) : list byte :=
  match fuel with
  | O => []
  | S fuel' =>
      match ss with
      | a :: b :: c :: d :: rest =>
          let n := ((a * 64 + b) * 64 + c) * 64 + d in
          ToUint8 (n / 65536) :: ToUint8 (n / 256) :: ToUint8 n ::
          sextet_bytes fuel' rest
      | [a; b; c] =>
          let n := ((a * 64 + b) * 64 + c) / 4 in
          [ToUint8 (n / 256); ToUint8 n]
      | [a; b] => [ToUint8 ((a * 64 + b) / 16)]
      | _ => []
      end
  end.

(** The characters left to decode: the string without its whitespace and
    without its padding. *)
Definition base64_data (s : string) : list ascii :=
  strip_padding
    (filter (fun c => negb (is_ascii_whitespace c)) (list_ascii_of_string s)).

(** The characters [atob] decodes, when the string is acceptable. *)
Definition base64_payload (s : string) : option (list ascii) :=
  let data := base64_data s in
  if (length data mod 4 =? 1)%nat then None
  else if forallb is_base64_char data then Some data
  else None.

Definition atob (s : string) : result string :=
  match base64_payload s with
  | Some data =>
      let ss := omap sextet data in
      Ok (string_of_list_ascii
            (map ascii_of_byte (sextet_bytes (length ss) ss)))
  | None => Throw InvalidCharacterError
  end.

(** ** [src/utils/audio.ts]: the byte decoder *)

Definition decode (base64 : string) : result Uint8Array :=
  let* binaryString := atob base64 in
  let len := String.length binaryString in
  let bytes := new_Uint8Array (new_ArrayBuffer (Z.of_nat len)) in
  for_loop len
    (fun i bytes => Ok (set_element bytes i (charCodeAt binaryString i))) bytes.

(** ** Web Audio

    The part of the Web Audio API the mixer uses. An [AudioBuffer] holds
    one [Float32Array] per channel. What the platform leaves to the
    implementation is a field of [Platform]: the network, the audio codec,
    the single-precision arithmetic of the rendering engine, the resampling
    of a buffer played at another rate than its own, and the mixing of
    channel layouts other than mono and stereo. *)

Record AudioBuffer : Type := mkAudioBuffer {
  buffer_sampleRate : Z;
  buffer_length : nat;
  buffer_channels : list (list float32)
}.

Definition numberOfChannels (b : AudioBuffer) : nat := length (buffer_channels b).

Definition getChannelData (b : AudioBuffer) (channel : nat) : list float32 :=
  nth channel (buffer_channels b) [].

(** [getChannelData] returns a view of the channel, not a copy: a store
    into the view is a store into the buffer. *)
Definition setChannelData (b : AudioBuffer) (channel : nat) (data : list float32)
  : AudioBuffer :=
  mkAudioBuffer (buffer_sampleRate b) (buffer_length b)
    (<[channel := data]> (buffer_channels b)).

(** Reading a [Float32Array] outside its bounds gives [undefined], which a
    store into a [Float32Array] turns into [NaN]. *)
Definition float32_element (a : list float32) (i : nat) : float32 := nth i a f32_nan.

(** [createBuffer(numberOfChannels, length, sampleRate)]: a zero-filled
    buffer; a [NotSupportedError] when an argument is zero or negative.
    (The upper limits of an implementation are not modelled: the code asks
    for one or two channels at 24000 Hz.) *)
Definition createBuffer (channels length : nat) (sampleRate : Z)
  : result AudioBuffer :=
  if (channels =? 0)%nat || (length =? 0)%nat || (sampleRate <=? 0)
  then Throw NotSupportedError
  else Ok (mkAudioBuffer sampleRate length
             (replicate channels (replicate length f32_zero))).

Record OfflineAudioContext : Type := mkOfflineAudioContext {
  ctx_channels : nat;
  ctx_length : nat;
  ctx_sampleRate : Z
}.

(** [new OfflineAudioContext(numberOfChannels, length, sampleRate)], with
    the argument check of [createBuffer]. *)
Definition new_OfflineAudioContext (channels length : nat) (sampleRate : Z)
  : result OfflineAudioContext :=
  if (channels =? 0)%nat || (length =? 0)%nat || (sampleRate <=? 0)
  then Throw NotSupportedError
  else Ok (mkOfflineAudioContext channels length sampleRate).

(** The response of [fetch]; reading the body can fail as the request
    can. *)
Record Response : Type := mkResponse {
  ok : bool;
  statusText : string;
  arrayBuffer : result (list byte)
}.

Record Platform : Type := mkPlatform {
  (** [fetch(url)]: rejects with a [TypeError] when the request cannot be
      made. *)
  fetch : string -> result Response;
  (** [decodeAudioData(bytes)]: rejects with an [EncodingError] when the
      bytes are not audio the platform can decode. *)
  decodeAudioData : list byte -> result AudioBuffer;
  (** The sum and the product of two samples in the rendering engine. *)
  fadd : float32 -> float32 -> float32;
  fmul : float32 -> float32 -> float32;
  (** A buffer as it is played in a context of another sample rate. *)
  resample : AudioBuffer -> Z -> AudioBuffer;
  (** The frame of a connection mixed to a number of channels, for the
      layouts not written out in [mix_channels]. *)
  speaker_mix : nat -> list float32 -> list float32
}.

(** A number that is a [float] of the interface of an audio parameter: its
    nearest binary32 value is finite. *)
Definition is_float (x : number) : bool :=
  match f32_val (Math_fround x) with
  | S754_zero _ | S754_finite _ _ _ => true
  | S754_infinity _ | S754_nan => false
  end.

(** [param.setValueAtTime(value, 0)]: the value the parameter takes, in
    binary32; a [TypeError] when the value is [NaN], infinite or beyond
    the binary32 range. *)
Definition setValueAtTime (value : number) : result float32 :=
  if is_float value then Ok (Math_fround value) else Throw TypeError.

(** The nodes of the rendering graph: a source playing a buffer, from time
    0, and a gain applied to the output of a node. *)
Inductive AudioNode : Type :=
| BufferSourceNode (buffer : AudioBuffer) (loop : bool)
| GainNode (gain : float32) (input : AudioNode).

Section Rendering.
Variable P : Platform.

Definition playback (sampleRate : Z) (b : AudioBuffer) : AudioBuffer :=
  if buffer_sampleRate b =? sampleRate then b else resample P b sampleRate.

(** The output of a node at frame [i], one sample per channel: a source
    plays its buffer once, or over and over from its start when it loops,
    and is silent after its end otherwise. *)
Fixpoint node_frame (sampleRate : Z) (node : AudioNode) (i : nat) : list float32 :=
  match node with
  | BufferSourceNode b loop =>
      let played := playback sampleRate b in
      let position := if loop then (i mod buffer_length played)%nat else i in
      map (fun channelData => nth position channelData f32_zero)
        (buffer_channels played)
  | GainNode gain input => map (fmul P gain) (node_frame sampleRate input i)
  end.

(** The frame of a connection at an input of [channels] channels: a mono
    frame feeds both channels of a stereo input. *)
Definition mix_channels (channels : nat) (frame : list float32) : list float32 :=
  match channels, frame with
  | 2%nat, [m] => [m; m]
  | 2%nat, [l; r] => [l; r]
  | _, _ => speaker_mix P channels frame
  end.

(** An input sums its connections. *)
Definition sum_frames (frames : list (list float32)) : list float32 :=
  match frames with
  | [] => []
  | f :: fs => foldl (fun acc g => zip_with (fadd P) acc g) f fs
  end.

Definition destination_frame (ctx : OfflineAudioContext) (inputs : list AudioNode)
    (i : nat) : list float32 :=
  sum_frames
    (map (fun node => mix_channels (ctx_channels ctx)
                        (node_frame (ctx_sampleRate ctx) node i)) inputs).

(** [startRendering()]: the frames the destination receives, channel by
    channel. *)
Definition startRendering (ctx : OfflineAudioContext) (inputs : list AudioNode)
  : AudioBuffer :=
  mkAudioBuffer (ctx_sampleRate ctx) (ctx_length ctx)
    (map (fun channel =>
            map (fun i => nth channel (destination_frame ctx inputs i) f32_zero)
              (seq 0 (ctx_length ctx)))
       (seq 0 (ctx_channels ctx))).
End Rendering.

(** ** [src/utils/audio.ts]: the sample converter and the mixer *)

Definition audioBufferToPcm (audioBuffer : AudioBuffer) : Uint8Array :=
  let numChannels := numberOfChannels audioBuffer in
  let length := buffer_length audioBuffer in
  let interleaved := replicate (length * numChannels) f32_zero in
  let interleaved :=
    foldl (fun interleaved channel =>
             let channelData := getChannelData audioBuffer channel in
             foldl (fun interleaved i =>
                      <[(i * numChannels + channel)%nat := float32_element channelData i]>
                        interleaved)
               interleaved (seq 0 length))
      interleaved (seq 0 numChannels) in
  let pcmData := map float_to_pcm16 interleaved in
  new_Uint8Array (int16_buffer pcmData).

Definition mixAudio (P : Platform) (speechPcmData : Uint8Array) (musicUrl : string)
    (musicVolume : number) : result Blob :=
  let finalSampleRate := 24000 in
  (* 1. Create an AudioBuffer for the speech PCM data *)
  let speechArrayBuffer := buffer speechPcmData in
  let* speechDataInt16 := new_Int16Array speechArrayBuffer in
  let speechFrameCount := length speechDataInt16 in
  let* speechAudioBuffer := createBuffer 1 speechFrameCount finalSampleRate in
  let speechChannelData :=
    foldl (fun speechChannelData i =>
             <[i := pcm16_to_float (element speechDataInt16 i)]> speechChannelData)
      (getChannelData speechAudioBuffer 0) (seq 0 speechFrameCount) in
  let speechAudioBuffer := setChannelData speechAudioBuffer 0 speechChannelData in
  (* 2. Fetch and decode the music file *)
  let* response := fetch P musicUrl in
  let* _ :=
    if negb (ok response)
    then Throw (Error ("Failed to fetch music file: " ++ statusText response))
    else Ok tt in
  let* musicArrayBuffer := arrayBuffer response in
  let* musicAudioBuffer := decodeAudioData P musicArrayBuffer in
  (* 3. Prepare the OfflineAudioContext for mixing *)
  let* mixContext :=
    new_OfflineAudioContext 2 (buffer_length speechAudioBuffer) finalSampleRate in
  (* 4. Create and connect nodes *)
  let speechSource := BufferSourceNode speechAudioBuffer false in
  let musicSource := BufferSourceNode musicAudioBuffer true in
  let* gain := setValueAtTime musicVolume in
  let musicGainNode := GainNode gain musicSource in
  (* 5. Start sources and render the audio *)
  let mixedAudioBuffer := startRendering P mixContext [speechSource; musicGainNode] in
  (* 7. Convert the final mixed AudioBuffer back to a WAV Blob *)
  let mixedPcmData := audioBufferToPcm mixedAudioBuffer in
  pcmToWav mixedPcmData (number_of_Z finalSampleRate)
    (number_of_Z (Z.of_nat (numberOfChannels mixedAudioBuffer))).

(** ** [src/App.tsx]: the pipeline part of [handleGenerateAudio]

    Lines 57-70: from the base64 payload of the speech provider and the
    music selection of the user interface to the final blob. *)

(** A string or [null] used as a condition: [null] and the empty string
    are falsy. *)
Definition truthy (s : option string) : bool :=
  match s with
  | Some s => negb (String.eqb s EmptyString)
  | None => false
  end.

(** [s !== v] for a string or [null] [s]. *)
Definition differs (s : option string) (v : string) : bool :=
  match s with
  | Some s => negb (String.eqb s v)
  | None => true
  end.

(** Line 59: the URL of an uploaded file when the selection is ["custom"]
    ([null] before any upload), the selection itself otherwise. *)
Definition selectedMusicUrl (backgroundMusic : string) (customMusicUrl : option string)
  : option string :=
  if String.eqb backgroundMusic "custom" then customMusicUrl else Some backgroundMusic.

(** The assembly starts at the decoder (line 57), once the speech provider
    has returned its payload (lines 52-55, not part of it). The message of
    the error of line 64 is in Arabic in the source, and stands here in
    English; the line is never reached, its condition being the negation
    of the one around it. *)
Definition assemble (P : Platform) (base64Audio : string) (backgroundMusic : string)
    (customMusicUrl : option string) (musicVolume : number) : result Blob :=
  let* pcmData := decode base64Audio in
  let selectedMusicUrl := selectedMusicUrl backgroundMusic customMusicUrl in
  if truthy selectedMusicUrl && differs selectedMusicUrl "none"
  then
    let* _ :=
      if negb (truthy selectedMusicUrl)
      then Throw (Error "Please upload a custom music file to continue.")
      else Ok tt in
    mixAudio P pcmData (default EmptyString selectedMusicUrl) musicVolume
  else pcmToWav pcmData (number_of_Z 24000) (number_of_Z 1).

(** ** JavaScript strings of text

    The script of the podcast is Arabic text: a string that holds text is
    the list of its UTF-16 code units, and the string methods below work on
    code units as the language defines them. *)

Definition jsstring : Type := list N.

Definition code_unit_eqb (a b : N) : bool := (a =? b)%N.

(** [s === t] for strings. *)
Fixpoint jsstring_eqb (s t : jsstring) : bool :=
  match s, t with
  | [], [] => true
  | a :: s', b :: t' => code_unit_eqb a b && jsstring_eqb s' t'
  | _, _ => false
  end.

(** [s.startsWith(p)]. *)
Fixpoint startsWith (s p : jsstring) {struct p} : bool :=
  match p, s with
  | [], _ => true
  | a :: p', b :: s' => code_unit_eqb a b && startsWith s' p'
  | _ :: _, [] => false
  end.

(** [s.includes(p)]. *)
Fixpoint includes (s p : jsstring) : bool :=
  startsWith s p ||
  match s with
  | [] => false
  | _ :: s' => includes s' p
  end.

(** [s.split(sep)] for a separator of one code unit: the pieces between
    the occurrences of the separator; one empty piece for the empty
    string. *)
Fixpoint split (sep : N) (s : jsstring) : list jsstring :=
  match s with
  | [] => [[]]
  | c :: s' =>
      if code_unit_eqb c sep then [] :: split sep s'
      else match split sep s' with
           | piece :: pieces => (c :: piece) :: pieces
           | [] => [[c]]
           end
  end.

(** [pieces.join(sep)]. *)
Fixpoint join (sep : N) (pieces : list jsstring) : jsstring :=
  match pieces with
  | [] => []
  | [piece] => piece
  | piece :: pieces' => piece ++ sep :: join sep pieces'
  end.

(** The code units [trim] removes: the white space and the line
    terminators of the language. *)
Definition is_trim_space (c : N) : bool :=
  ((9 <=? c) && (c <=? 13) || (c =? 32) || (c =? 160) || (c =? 5760) ||
   (8192 <=? c) && (c <=? 8202) || (c =? 8232) || (c =? 8233) || (c =? 8239) ||
   (c =? 8287) || (c =? 12288) || (c =? 65279))%N.

Fixpoint trimStart (s : jsstring) : jsstring :=
  match s with
  | c :: s' => if is_trim_space c then trimStart s' else s
  | [] => []
  end.

Definition trimEnd (s : jsstring) : jsstring := rev (trimStart (rev s)).

(** [s.trim()]. *)
Definition trim (s : jsstring) : jsstring := trimEnd (trimStart s).

(** [s.replace(/pattern/g, replacement)] for a pattern that is a literal,
    not empty, and a replacement without [$]: the matches are found from
    left to right, each search starting after the previous match. [skip]
    counts the code units of the current match still to pass. *)
Fixpoint replace_from (pattern replacement : jsstring) (skip : nat) (s : jsstring)
  : jsstring :=
  match s with
  | [] => []
  | c :: s' =>
      match skip with
      | S skip' => replace_from pattern replacement skip' s'
      | O =>
          if startsWith s pattern
          then replacement ++ replace_from pattern replacement (length pattern - 1) s'
          else c :: replace_from pattern replacement 0 s'
      end
  end.

Definition replace (s pattern replacement : jsstring) : jsstring :=
  replace_from pattern replacement 0 s.

(** [s.indexOf(c)] for one code unit: the first index, or -1. *)
Fixpoint indexOf (s : jsstring) (c : N) : Z :=
  match s with
  | [] => -1
  | d :: s' =>
      if code_unit_eqb d c then 0
      else let i := indexOf s' c in if i <? 0 then -1 else i + 1
  end.

(** [s.substring(start, end)] and [s.substring(start)]: the indices are
    brought into the string, and exchanged when out of order. *)
Definition clamp_index (s : jsstring) (i : Z) : nat :=
  Z.to_nat (Z.min (Z.max i 0) (Z.of_nat (length s))).

Definition substring (s : jsstring) (start finish : Z) : jsstring :=
  let a := clamp_index s start in
  let b := clamp_index s finish in
  take (Nat.max a b - Nat.min a b) (drop (Nat.min a b) s).

Definition substring_from (s : jsstring) (start : Z) : jsstring :=
  drop (clamp_index s start) s.

(** ** [src/services/geminiService.ts]: the script sent to the model *)

(** The literals of the file, in code units. *)
Definition newline : N := 10.
Definition colon : N := 58.

(** The speaker tags of the script, with the role in parentheses, and the
    tags the model is given. *)
Definition tag_narrator : jsstring :=
  [0x633; 0x31; 0x20; 0x28; 0x627; 0x644; 0x631; 0x627; 0x648; 0x64a; 0x29; 0x3a]%N.
Definition tag_inquirer : jsstring :=
  [0x633; 0x32; 0x20; 0x28; 0x627; 0x644; 0x645; 0x633; 0x62a; 0x641; 0x633; 0x631;
   0x29; 0x3a]%N.
Definition tag_s1 : jsstring := [0x633; 0x31; 0x3a]%N.
Definition tag_s2 : jsstring := [0x633; 0x32; 0x3a]%N.

(** The starts of the lines that are no dialogue: an audio cue, a bullet,
    the title of the episode, the list of the speakers. *)
Definition audio_cue : jsstring :=
  [0x28; 0x625; 0x631; 0x634; 0x627; 0x62f; 0x20; 0x635; 0x648; 0x62a; 0x64a; 0x29]%N.
Definition bullet : jsstring := [0x2a]%N.
Definition episode_title : jsstring :=
  [0x639; 0x646; 0x648; 0x627; 0x646; 0x20; 0x627; 0x644; 0x62d; 0x644; 0x642; 0x629;
   0x3a]%N.
Definition speakers_list : jsstring :=
  [0x627; 0x644; 0x645; 0x62a; 0x62d; 0x62f; 0x62b; 0x648; 0x646; 0x3a]%N.

(** Lines 13-16: the condition under which a line is dropped. *)
Definition is_non_dialogue (processedLine : jsstring) : bool :=
  startsWith (trim processedLine) audio_cue ||
  startsWith (trim processedLine) bullet ||
  startsWith (trim processedLine) episode_title ||
  startsWith (trim processedLine) speakers_list.

(** Lines 8-21: the function mapped over the lines. *)
Definition preprocess_line (line : jsstring) : jsstring :=
  let processedLine := replace line tag_narrator tag_s1 in
  let processedLine := replace processedLine tag_inquirer tag_s2 in
  if is_non_dialogue processedLine then [] else processedLine.

Definition preprocessScriptForTTS (script : jsstring) : jsstring :=
  join newline
    (List.filter (fun line => negb (jsstring_eqb (trim line) []))
       (map preprocess_line (split newline script))).

(** ** [src/App.tsx]: the script as it is displayed

    Lines 199-210: one paragraph for each line of the script; the line of a
    speaker is cut after its first colon, the tag in a colour of its
    own. *)

Definition speaker_1 : jsstring := [0x633; 0x31]%N.
Definition speaker_2 : jsstring := [0x633; 0x32]%N.

Inductive paragraph : Type :=
| SpeakerParagraph (className : string) (label text : jsstring)
| CueParagraph (className : string) (text : jsstring)
| PlainParagraph (text : jsstring).

Definition script_paragraph (line : jsstring) : paragraph :=
  if startsWith line speaker_1
  then SpeakerParagraph "text-cyan-400"
         (substring line 0 (indexOf line colon + 1))
         (substring_from line (indexOf line colon + 1))
  else if startsWith line speaker_2
  then SpeakerParagraph "text-teal-400"
         (substring line 0 (indexOf line colon + 1))
         (substring_from line (indexOf line colon + 1))
  else if startsWith line audio_cue
  then CueParagraph "text-gray-500 italic" line
  else PlainParagraph line.

Definition script_paragraphs (script : jsstring) : list paragraph :=
  map script_paragraph (split newline script).

(** ** [src/services/geminiService.ts]: the speech request

    The request goes to the model through the client library. What the
    library and the build leave open is a field of [GenAI]: the key of the
    environment and the answer to a request. A call of the library can
    throw a value that is no [Error]; the code of the application only
    throws [Error]s. *)

Inductive thrown : Type :=
| ErrorObject (e : exn)
| OtherValue.

Inductive outcome (A : Type) : Type :=
| Returned (a : A)
| Raised (t : thrown).
Arguments Returned {A} a.
Arguments Raised {A} t.

(** The voices of the two speakers, [voices.s1] and [voices.s2]. *)
Record VoiceSelection : Type := mkVoiceSelection {
  voice_s1 : string;
  voice_s2 : string
}.

Inductive Modality : Type := AUDIO.

Record SpeakerVoiceConfig : Type := mkSpeakerVoiceConfig {
  speaker : jsstring;
  voiceName : string
}.

(** The argument of [generateContent]: the model, the text of the one part
    of the one content, the modalities of the response and the voices. *)
Record GenerateContentRequest : Type := mkGenerateContentRequest {
  request_model : string;
  request_text : jsstring;
  request_responseModalities : list Modality;
  request_speakerVoiceConfigs : list SpeakerVoiceConfig
}.

(** The response, as far as line 63 reads it; a property that is absent is
    [None]. *)
Record InlineData : Type := mkInlineData { inlineData_data : option string }.
Record Part : Type := mkPart { part_inlineData : option InlineData }.
Record Content : Type := mkContent { content_parts : option (list Part) }.
Record Candidate : Type := mkCandidate { candidate_content : option Content }.
Record GenerateContentResponse : Type := mkGenerateContentResponse {
  response_candidates : option (list Candidate)
}.

Record GenAI : Type := mkGenAI {
  (** [process.env.API_KEY]. *)
  API_KEY : option string;
  (** [new GoogleGenAI({ apiKey }).models.generateContent(request)]. *)
  generateContent : string -> GenerateContentRequest -> outcome GenerateContentResponse
}.

(** [o?.p] and [o?.[0]]: nothing of nothing. *)
Definition optional {A B : Type} (o : option A) (p : A -> option B) : option B :=
  match o with
  | Some a => p a
  | None => None
  end.

(** The text before the script in the prompt, its last code unit the line
    feed. *)
Definition prompt_prefix : jsstring :=
  [0x54; 0x54; 0x53; 0x20; 0x74; 0x68; 0x65; 0x20; 0x66; 0x6f; 0x6c; 0x6c; 0x6f;
   0x77; 0x69; 0x6e; 0x67; 0x20; 0x63; 0x6f; 0x6e; 0x76; 0x65; 0x72; 0x73; 0x61;
   0x74; 0x69; 0x6f; 0x6e; 0x20; 0x62; 0x65; 0x74; 0x77; 0x65; 0x65; 0x6e; 0x20;
   0x633; 0x31; 0x20; 0x61; 0x6e; 0x64; 0x20; 0x633; 0x32; 0x3a; 0xa]%N.

Definition generateMultiSpeakerSpeech (api : GenAI) (script : jsstring)
    (voices : VoiceSelection) : outcome (option string) :=
  if negb (truthy (API_KEY api))
  then Raised (ErrorObject (Error "API_KEY environment variable is not set."))
  else
    let processedScript := preprocessScriptForTTS script in
    let prompt := prompt_prefix ++ processedScript in
    match generateContent api (default EmptyString (API_KEY api))
            (mkGenerateContentRequest "gemini-2.5-flash-preview-tts" prompt [AUDIO]
               [mkSpeakerVoiceConfig speaker_1 (voice_s1 voices);
                mkSpeakerVoiceConfig speaker_2 (voice_s2 voices)]) with
    | Raised t => Raised t
    | Returned response =>
        let candidate := optional (response_candidates response) head in
        let content := optional candidate candidate_content in
        let part := optional (optional content content_parts) head in
        let inlineData := optional part part_inlineData in
        let base64Audio := optional inlineData inlineData_data in
        Returned (if truthy base64Audio then base64Audio else None)
    end.

(** ** [src/App.tsx]: the state of the component and its handlers

    The state variables of the component are the fields of [State]. A
    handler reads the variables of the render it was created in, its
    argument [s] here, and sets variables; between two events the component
    is rendered again, so the next handler reads what the last one set.
    While a generation is under way every control is disabled, so a handler
    runs from its start to its end before the next event.

    The browser functions the handlers call act on [Browser]: the object
    URLs that are alive, each with the blob it stands for, and the
    console. *)

Record State : Type := mkState {
  voices : VoiceSelection;
  isLoading : bool;
  error : option string;
  audioUrl : option string;
  backgroundMusic : string;
  musicVolume : number;
  customMusicUrl : option string;
  statusMessage : jsstring
}.

Definition setVoices (v : VoiceSelection) (s : State) : State :=
  mkState v (isLoading s) (error s) (audioUrl s) (backgroundMusic s) (musicVolume s)
    (customMusicUrl s) (statusMessage s).
Definition setIsLoading (v : bool) (s : State) : State :=
  mkState (voices s) v (error s) (audioUrl s) (backgroundMusic s) (musicVolume s)
    (customMusicUrl s) (statusMessage s).
Definition setError (v : option string) (s : State) : State :=
  mkState (voices s) (isLoading s) v (audioUrl s) (backgroundMusic s) (musicVolume s)
    (customMusicUrl s) (statusMessage s).
Definition setAudioUrl (v : option string) (s : State) : State :=
  mkState (voices s) (isLoading s) (error s) v (backgroundMusic s) (musicVolume s)
    (customMusicUrl s) (statusMessage s).
Definition setBackgroundMusic (v : string) (s : State) : State :=
  mkState (voices s) (isLoading s) (error s) (audioUrl s) v (musicVolume s)
    (customMusicUrl s) (statusMessage s).
Definition setMusicVolume (v : number) (s : State) : State :=
  mkState (voices s) (isLoading s) (error s) (audioUrl s) (backgroundMusic s) v
    (customMusicUrl s) (statusMessage s).
Definition setCustomMusicUrl (v : option string) (s : State) : State :=
  mkState (voices s) (isLoading s) (error s) (audioUrl s) (backgroundMusic s)
    (musicVolume s) v (statusMessage s).
Definition setStatusMessage (v : jsstring) (s : State) : State :=
  mkState (voices s) (isLoading s) (error s) (audioUrl s) (backgroundMusic s)
    (musicVolume s) (customMusicUrl s) v.

Record Browser : Type := mkBrowser {
  objectURLs : list (string * Blob);
  console : list (string * thrown)
}.

(** [URL.revokeObjectURL(url)]: the URL stands for nothing any more; a URL
    that is not alive is left alone. *)
Definition revokeObjectURL (url : string) (b : Browser) : Browser :=
  mkBrowser (List.filter (fun entry => negb (String.eqb (fst entry) url)) (objectURLs b))
    (console b).

(** [console.error(label, err)]. *)
Definition console_error (label : string) (err : thrown) (b : Browser) : Browser :=
  mkBrowser (objectURLs b) (console b ++ [(label, err)]).

(** [if (url) URL.revokeObjectURL(url)]. *)
Definition revoke_if_set (url : option string) (b : Browser) : Browser :=
  if truthy url then revokeObjectURL (default EmptyString url) b else b.

(** The two speakers, ['s1'] and ['s2']. *)
Inductive Speaker : Type := Speaker_s1 | Speaker_s2.

Definition status_generating : jsstring :=
  [0x62c; 0x627; 0x631; 0x64d; 0x20; 0x625; 0x646; 0x634; 0x627; 0x621; 0x20; 0x627;
   0x644; 0x643; 0x644; 0x627; 0x645; 0x2e; 0x2e; 0x2e]%N.
Definition status_mixing : jsstring :=
  [0x62c; 0x627; 0x631; 0x64d; 0x20; 0x62f; 0x645; 0x62c; 0x20; 0x645; 0x648; 0x633;
   0x64a; 0x642; 0x649; 0x20; 0x627; 0x644; 0x62e; 0x644; 0x641; 0x64a; 0x629; 0x2e;
   0x2e; 0x2e]%N.

(** What the component takes from its surroundings: [PODCAST_SCRIPT] and
    [BACKGROUND_MUSIC_TRACKS[0].value] of the file of constants; the URL
    the browser makes for a new object, given the URLs alive; the
    [message] of an exception of the platform (the message of an [Error]
    of the application is the one it was made with). *)
Record Environment : Type := mkEnvironment {
  PODCAST_SCRIPT : jsstring;
  first_track : string;
  new_object_url : list string -> string;
  platform_message : exn -> string
}.

Section App.
Variable env : Environment.

Definition message (e : exn) : string :=
  match e with
  | Error message => message
  | _ => platform_message env e
  end.

(** Line 77: [err instanceof Error ? err.message : 'An unknown error
    occurred.']. *)
Definition shown_message (err : thrown) : string :=
  match err with
  | ErrorObject e => message e
  | OtherValue => "An unknown error occurred."
  end.

(** [URL.createObjectURL(blob)]. *)
Definition createObjectURL (blob : Blob) (b : Browser) : string * Browser :=
  let url := new_object_url env (map fst (objectURLs b)) in
  (url, mkBrowser ((url, blob) :: objectURLs b) (console b)).

(** Lines 9-19: the state of the first render. *)
Definition initial_state : State :=
  mkState (mkVoiceSelection "Kore" "Puck") false None None (first_track env)
    (SFdiv prec64 emax64 (number_of_Z 15) (number_of_Z 100)) None [].

(** Lines 21-27: the effect has no dependency, so it runs after the first
    render only, and the function it returns, called when the component is
    unmounted, reads the variables of the first render. *)
Definition cleanup (s : State) (b : Browser) : Browser :=
  let b := revoke_if_set (audioUrl s) b in
  revoke_if_set (customMusicUrl s) b.

Definition unmount (b : Browser) : Browser := cleanup initial_state b.

(** Lines 29-31. *)
Definition handleVoiceChange (speaker : Speaker) (voice : string) (s : State) : State :=
  let prev := voices s in
  setVoices (match speaker with
             | Speaker_s1 => mkVoiceSelection voice (voice_s2 prev)
             | Speaker_s2 => mkVoiceSelection (voice_s1 prev) voice
             end) s.

(** Lines 33-41; [file] is [event.target.files?.[0]]. *)
Definition handleMusicUpload (file : option Blob) (s : State) (b : Browser)
  : State * Browser :=
  match file with
  | Some file =>
      let b := revoke_if_set (customMusicUrl s) b in
      let (url, b) := createObjectURL file b in
      (setCustomMusicUrl (Some url) s, b)
  | None => (s, b)
  end.

(** Lines 123-129: the choice of a track; [value] is [e.target.value]. *)
Definition handleMusicSelect (value : string) (s : State) (b : Browser)
  : State * Browser :=
  let st := setBackgroundMusic value s in
  if negb (String.eqb value "custom") && truthy (customMusicUrl s)
  then (setCustomMusicUrl None st,
        revokeObjectURL (default EmptyString (customMusicUrl s)) b)
  else (st, b).

(** Line 168; [value] is [parseFloat(e.target.value)]. *)
Definition handleVolumeChange (value : number) (s : State) : State :=
  setMusicVolume value s.

(** Lines 51-73, the body of the [try]: the state and the browser as the
    body leaves them, and what it threw, if it did. The message of the
    error of line 64 stands in English, as in [assemble]. *)
Definition generate_audio (P : Platform) (api : GenAI) (s st : State) (b : Browser)
  : State * Browser * option thrown :=
  let st := setStatusMessage status_generating st in
  match generateMultiSpeakerSpeech api (PODCAST_SCRIPT env) (voices s) with
  | Raised t => (st, b, Some t)
  | Returned base64Audio =>
      if negb (truthy base64Audio)
      then (st, b, Some (ErrorObject (Error "Received empty audio data from the API.")))
      else
        match decode (default EmptyString base64Audio) with
        | Throw e => (st, b, Some (ErrorObject e))
        | Ok pcmData =>
            let selectedMusicUrl :=
              selectedMusicUrl (backgroundMusic s) (customMusicUrl s) in
            let (st, finalAudioBlob) :=
              if truthy selectedMusicUrl && differs selectedMusicUrl "none"
              then
                if negb (truthy selectedMusicUrl)
                then (st, Throw (Error "Please upload a custom music file to continue."))
                else (setStatusMessage status_mixing st,
                      mixAudio P pcmData (default EmptyString selectedMusicUrl)
                        (musicVolume s))
              else (st, pcmToWav pcmData (number_of_Z 24000) (number_of_Z 1)) in
            match finalAudioBlob with
            | Throw e => (st, b, Some (ErrorObject e))
            | Ok finalAudioBlob =>
                let (url, b) := createObjectURL finalAudioBlob b in
                (setAudioUrl (Some url) st, b, None)
            end
        end
  end.

(** Lines 43-82. *)
Definition handleGenerateAudio (P : Platform) (api : GenAI) (s : State) (b : Browser)
  : State * Browser :=
  let st := setIsLoading true s in
  let st := setError None st in
  let b := revoke_if_set (audioUrl s) b in
  let st := setAudioUrl None st in
  let '(st, b, err) := generate_audio P api s st b in
  let (st, b) :=
    match err with
    | Some err =>
        let b := console_error "Error generating audio:" err b in
        (setError (Some (shown_message err)) st, b)
    | None => (st, b)
    end in
  let st := setIsLoading false st in
  let st := setStatusMessage [] st in
  (st, b).

(** *** The events of the user interface (vocabulary) *)

Inductive event : Type :=
| VoiceChange (speaker : Speaker) (voice : string)
| MusicUpload (file : option Blob)
| MusicSelect (value : string)
| VolumeChange (value : number)
| GenerateAudio (P : Platform) (api : GenAI).

Definition handle (sb : State * Browser) (ev : event) : State * Browser :=
  let (s, b) := sb in
  match ev with
  | VoiceChange speaker voice => (handleVoiceChange speaker voice s, b)
  | MusicUpload file => handleMusicUpload file s b
  | MusicSelect value => handleMusicSelect value s b
  | VolumeChange value => (handleVolumeChange value s, b)
  | GenerateAudio P api => handleGenerateAudio P api s b
  end.

(** The component after a run of events, from its first render in a
    browser without object URLs. *)
Definition run (events : list event) : State * Browser :=
  foldl handle (initial_state, mkBrowser [] []) events.

(** The URLs the state holds. *)
Definition held_urls (s : State) : list string :=
  match audioUrl s with Some url => [url] | None => [] end ++
  match customMusicUrl s with Some url => [url] | None => [] end.

(** The URLs alive. *)
Definition live_urls (b : Browser) : list string := map fst (objectURLs b).

(** The browser never makes the URL of a new object empty, nor equal to a
    URL that is alive. *)
Definition fresh_urls : Prop :=
  forall urls : list string,
    new_object_url env urls <> EmptyString /\ ~ In (new_object_url env urls) urls.

(** The outcome of the speech request followed by the assembly. *)
Definition generated_audio (P : Platform) (api : GenAI) (s : State) : outcome Blob :=
  match generateMultiSpeakerSpeech api (PODCAST_SCRIPT env) (voices s) with
  | Raised t => Raised t
  | Returned base64Audio =>
      if negb (truthy base64Audio)
      then Raised (ErrorObject (Error "Received empty audio data from the API."))
      else
        match assemble P (default EmptyString base64Audio) (backgroundMusic s)
                (customMusicUrl s) (musicVolume s) with
        | Ok blob => Returned blob
        | Throw e => Raised (ErrorObject e)
        end
  end.

(** How the component is left by a generation that started in the state
    [s]: the settings as they were, nothing loading, no status, and either
    the URL of the audio or the message of the error. *)
Definition settled (s : State) (audio error : option string) : State :=
  mkState (voices s) false error audio (backgroundMusic s) (musicVolume s)
    (customMusicUrl s) [].

(** The object URLs are in order: those alive are those the state holds,
    none twice, none empty. *)
Definition tidy (s : State) (b : Browser) : Prop :=
  List.NoDup (live_urls b) /\ List.NoDup (held_urls s) /\ ~ In EmptyString (held_urls s) /\
  forall url : string, In url (live_urls b) <-> In url (held_urls s).
End App.

(** * Vocabulary of the properties

    The definitions below are not part of the program: they name what the
    properties talk about (the fields of a WAV header, the exact value of a
    sample, a sample of the mix, ...) and fix the concrete platforms the examples
    run on. *)

(** ** Reading a WAV blob back

    The fields of the canonical 44-byte header, read at their offsets the way
    a consumer of the file reads them, little-endian. *)

Definition ChunkSize (b : Blob) : Z := getUint32 (blob_bytes b) 4.
Definition NumChannels (b : Blob) : Z := getUint16 (blob_bytes b) 22.
Definition SampleRate (b : Blob) : Z := getUint32 (blob_bytes b) 24.
Definition ByteRate (b : Blob) : Z := getUint32 (blob_bytes b) 28.
Definition BlockAlign (b : Blob) : Z := getUint16 (blob_bytes b) 32.
Definition BitsPerSample (b : Blob) : Z := getUint16 (blob_bytes b) 34.
Definition Subchunk2Size (b : Blob) : Z := getUint32 (blob_bytes b) 40.

(** The product of two numbers. *)
Definition times (x y : number) : number := SFmul prec64 emax64 x y.

(** The 44 bytes of the canonical header for a data chunk of [dataSize]
    bytes: every field is the integer part of its value, reduced to the
    width of the field; the block alignment and the byte rate are products
    of numbers. [pcmToWav_even] below shows that they are the bytes the
    encoder writes. *)
Definition wav_header (sampleRate numChannels : number) (dataSize : Z) : list byte :=
  ascii_bytes "RIFF" ++ le_bytes 4 (ToUint32 (36 + dataSize)) ++
  ascii_bytes "WAVE" ++ ascii_bytes "fmt " ++
  le_bytes 4 (ToUint32 16) ++ le_bytes 2 (ToUint16 1) ++
  le_bytes 2 (ToUint16 (truncate numChannels)) ++
  le_bytes 4 (ToUint32 (truncate sampleRate)) ++
  le_bytes 4 (ToUint32 (truncate (times sampleRate (times numChannels (number_of_Z 2))))) ++
  le_bytes 2 (ToUint16 (truncate (times numChannels (number_of_Z 2)))) ++
  le_bytes 2 (ToUint16 16) ++
  ascii_bytes "data" ++ le_bytes 4 (ToUint32 dataSize).

(** The bytes an array spans; an array made over a whole buffer spans
    the buffer. *)
Definition elements (array : Uint8Array) : list byte :=
  take (byteLength array) (drop (byteOffset array) (buffer array)).

(** The four bytes of a chunk tag at [offset]. *)
Definition tag (b : Blob) (offset : nat) : list byte :=
  take 4 (drop offset (blob_bytes b)).

(** Everything after the header. *)
Definition wav_data (b : Blob) : list byte := drop 44 (blob_bytes b).

(** ** Mantissas *)

(** The number of binary digits of a mantissa. *)
Definition digits (m : positive) : Z := Zpos (digits2_pos m).

(** The mantissa of a binary32 value, written with 53 bits. *)
Definition widen (m : positive) : positive := Pos.iter xO m (Z.to_pos (53 - digits m)).

(** The mantissa of the product of a binary32 value of mantissa [m] by the
    integer [c], written with 53 bits. *)
Definition scaled_mantissa (m c : positive) : positive :=
  Z.to_pos (Zpos (m * c) * 2 ^ (53 - digits (m * c))).

(** The mantissa of an integer of at most 16 bits, written with 24 bits. *)
Definition narrow (p : positive) : positive := Z.to_pos (Zpos p * 2 ^ (24 - digits p)).

(** The scaled sample of a finite input, truncated, in closed form. *)
Definition pcm16_closed_form (s : bool) (m : positive) (e : Z) : Z :=
  if digits m + e <=? 0
  then if s then - (Zpos m * 32768 / 2 ^ (- e)) else Zpos m * 32767 / 2 ^ (- e)
  else if s then -32768 else 32767.

(** ** Exact values *)

(** The value of a finite binary number: (-1)^s * m * 2^e. *)
Definition Q_of_finite (s : bool) (m : positive) (e : Z) : Q :=
  let sm := if s then Zneg m else Zpos m in
  if 0 <=? e then inject_Z (sm * 2 ^ e) else Qmake sm (Z.to_pos (2 ^ (- e))).

(** The value of a [Float32Array] element that is a number; infinities and
    NaN have none. *)
Definition float32_value (f : float32) : option Q :=
  match f32_val f with
  | S754_zero _ => Some 0%Q
  | S754_finite s m e => Some (Q_of_finite s m e)
  | _ => None
  end.

(** The integer part of a rational, rounding toward zero. *)
Definition Qtruncate (q : Q) : Z := Z.quot (Qnum q) (Zpos (Qden q)).

(** The conversion in the words of the specification, on exact values:
    clamp to [-1, 1], scale by 32768 below zero and by 32767 otherwise,
    truncate toward zero. *)
Definition float_to_pcm16_exact (q : Q) : Z :=
  let v := Qmax (-1) (Qmin 1 q) in
  Qtruncate (if Qlt_le_dec v 0 then (v * 32768)%Q else (v * 32767)%Q).

(** ** The mixer, step by step *)

(** The speech as [mixAudio] hands it to the rendering graph. *)
Definition speech_buffer (samples : list Z) : AudioBuffer :=
  mkAudioBuffer 24000 (length samples) [map pcm16_to_float samples].

(** The graph [mixAudio] builds, rendered. *)
Definition mix_render (P : Platform) (samples : list Z) (music : AudioBuffer)
    (musicVolume : number) : AudioBuffer :=
  startRendering P (mkOfflineAudioContext 2 (length samples) 24000)
    [BufferSourceNode (speech_buffer samples) false;
     GainNode (Math_fround musicVolume) (BufferSourceNode music true)].

(** The frame of the music branch at output frame [i]: the music as played
    at 24000 Hz, at the loop position, every channel scaled by the gain. *)
Definition music_frame (P : Platform) (music : AudioBuffer) (vol : number) (i : nat)
    : list float32 :=
  map (fun channelData =>
         fmul P (Math_fround vol)
           (nth (i mod buffer_length (playback P 24000 music))%nat channelData f32_zero))
    (buffer_channels (playback P 24000 music)).


(** One pass of the inner loop of [audioBufferToPcm], for channel [c];
    [F c i] is sample [i] of channel [c]. *)
Definition interleave_channel {A : Type} (F : nat -> nat -> A) (nc n : nat)
    (l : list A) (c : nat) : list A :=
  foldl (fun l i => <[(i * nc + c)%nat := F c i]> l) l (seq 0 n).

(** The samples of a buffer in the order of the PCM stream: frame by
    frame, the channels of a frame one after the other. *)
Definition interleaved_samples (b : AudioBuffer) : list float32 :=
  map (fun k => float32_element (getChannelData b (k mod numberOfChannels b)%nat)
                  (k / numberOfChannels b)%nat)
    (seq 0 (buffer_length b * numberOfChannels b)%nat).

(** ** Base64 payloads *)

(** The bytes [atob] decodes from an acceptable payload. *)
Definition payload_bytes (data : list ascii) : list byte :=
  let ss := omap sextet data in sextet_bytes (length ss) ss.

(** Base64 as it is written (RFC 4648), independently of the decoder: the
    alphabet, in the order of the 6-bit values; the characters of a byte
    sequence, four for every three bytes, and two or three for a last
    group of one or two bytes; the padding that brings their number to a
    multiple of four. *)
Definition base64_alphabet : list ascii :=
  list_ascii_of_string
    "ABCDEFGHIJKLMNOPQRSTUVWXYZabcdefghijklmnopqrstuvwxyz0123456789+/".

Definition base64_char (n : Z) : ascii :=
  nth (Z.to_nat (n mod 64)) base64_alphabet "="%char.

Fixpoint base64_digits (bytes : list byte) : list ascii :=
  match bytes with
  | b0 :: b1 :: b2 :: rest =>
      let n := (byte_val b0 * 256 + byte_val b1) * 256 + byte_val b2 in
      base64_char (n / 262144) :: base64_char (n / 4096) :: base64_char (n / 64) ::
      base64_char n :: base64_digits rest
  | [b0; b1] =>
      let n := (byte_val b0 * 256 + byte_val b1) * 4 in
      [base64_char (n / 4096); base64_char (n / 64); base64_char n]
  | [b0] =>
      let n := byte_val b0 * 16 in
      [base64_char (n / 64); base64_char n]
  | [] => []
  end.

Definition base64_padding (bytes : list byte) : list ascii :=
  match (length bytes mod 3)%nat with
  | 1%nat => ["="; "="]%char
  | 2%nat => ["="]%char
  | _ => []
  end.

(** The base64 text of a byte sequence: a string is valid base64 when it
    is the text of some byte sequence. *)
Definition base64_encode (bytes : list byte) : string :=
  string_of_list_ascii (base64_digits bytes ++ base64_padding bytes).

Definition valid_base64 (s : string) : Prop :=
  exists bytes : list byte, s = base64_encode bytes.

(** The base64 text without its padding. *)
Definition base64_unpadded (bytes : list byte) : string :=
  string_of_list_ascii (base64_digits bytes).

(** TAB, LF, FF, CR and the space. *)
Definition ascii_whitespace : list ascii := ["009"; "010"; "012"; "013"; " "]%char.

(** A character of the alphabet: no padding, no whitespace. *)
Definition plain_char (c : ascii) : Prop :=
  is_base64_char c = true /\ is_equals c = false /\ is_ascii_whitespace c = false.

(** A character that no base64 text holds, and that is no whitespace. *)
Definition foreign_char (c : ascii) : Prop :=
  ~ In c base64_alphabet /\ c <> "="%char /\ ~ In c ascii_whitespace.

(** ** Retrieval of the music *)

(** The music cannot be retrieved: the request fails, the response is not
    a success, or its body cannot be read. *)
Definition music_unavailable (P : Platform) (url : string) : Prop :=
  match fetch P url with
  | Throw _ => True
  | Ok response =>
      ok response = false \/ exists e, arrayBuffer response = Throw e
  end.

(** The exception the retrieval raises when it fails. *)
Definition retrieval_error (P : Platform) (url : string) : exn :=
  match fetch P url with
  | Throw e => e
  | Ok response =>
      if negb (ok response)
      then Error ("Failed to fetch music file: " ++ statusText response)
      else match arrayBuffer response with
           | Throw e => e
           | Ok _ => Error EmptyString
           end
  end.

(** The music is retrieved and decoded. *)
Definition music_retrieved (P : Platform) (url : string) (music : AudioBuffer) : Prop :=
  exists (response : Response) (bytes : list byte),
    fetch P url = Ok response /\ ok response = true /\
    arrayBuffer response = Ok bytes /\ decodeAudioData P bytes = Ok music.

(** ** A concrete platform

    Sums and products of the audio graph in IEEE 754 binary32; one music
    file, of two frames at 24000 Hz, behind the URL [music.mp3]; a URL that
    answers 404; every other request fails. *)

Definition ieee_fadd (x y : float32) : float32 :=
  float32_of (SFadd prec32 emax32 (f32_val x) (f32_val y)).

Definition ieee_fmul (x y : float32) : float32 :=
  float32_of (SFmul prec32 emax32 (f32_val x) (f32_val y)).

(** One channel, the samples 1.0 and -1.0. *)
Definition example_music : AudioBuffer :=
  mkAudioBuffer 24000 2
    [[Math_fround (number_of_Z 1); Math_fround (number_of_Z (-1))]].

Definition example_platform : Platform :=
  mkPlatform
    (fun url =>
       if String.eqb url "music.mp3" then Ok (mkResponse true "OK" (Ok [x00]))
       else if String.eqb url "missing.mp3" then Ok (mkResponse false "Not Found" (Ok []))
       else Throw TypeError)
    (fun bytes => match bytes with [] => Throw EncodingError | _ => Ok example_music end)
    ieee_fadd ieee_fmul (fun b _ => b) (fun n _ => replicate n f32_zero).

(** Five samples: 16384, -16384, 32767, -32768, 0. *)
Definition example_speech : list byte :=
  [x00; x40; x00; xc0; xff; x7f; x00; x80; x00; x00].

(** The array the decoder returns for it. *)
Definition example_array : Uint8Array := new_Uint8Array example_speech.

(** The volume 0.5. *)
Definition one_half : number := SFdiv prec64 emax64 (number_of_Z 1) (number_of_Z 2).




(** The example speech mixed with the example music at half volume, and
    the sum the mix computes at frame 2: 32767/32768 + 0.5 * 1.0. *)
Definition example_rendered : AudioBuffer :=
  mix_render example_platform (int16_elements example_speech) example_music one_half.

Definition example_sum : float32 :=
  ieee_fadd (pcm16_to_float 32767)
    (ieee_fmul (Math_fround one_half) (Math_fround (number_of_Z 1))).

(** ** The script and its paragraphs *)

(** The text a paragraph shows. *)
Definition paragraph_text (p : paragraph) : jsstring :=
  match p with
  | SpeakerParagraph _ label text => label ++ text
  | CueParagraph _ text => text
  | PlainParagraph text => text
  end.

(** Two strings cannot be laid over one another from their starts: they
    differ at an index both have. *)
Fixpoint clash (a b : jsstring) {struct a} : bool :=
  match a, b with
  | x :: a', y :: b' => negb (code_unit_eqb x y) || clash a' b'
  | _, _ => false
  end.

(** A replacement that fits nowhere on a pattern, nor the pattern on a
    later part of the replacement: no text with a replacement in it holds
    the pattern across it. *)
Definition never_overlap (pattern replacement : jsstring) : bool :=
  forallb (fun i => clash replacement (drop i pattern)) (seq 0 (length pattern)) &&
  forallb (fun i => clash (drop i replacement) pattern) (seq 1 (length replacement - 1)).

(** A line [trim] leaves nothing of. *)
Definition is_blank (line : jsstring) : bool := jsstring_eqb (trim line) [].

(** A line with its speaker tags in the short form. *)
Definition standardise (line : jsstring) : jsstring :=
  replace (replace line tag_narrator tag_s1) tag_inquirer tag_s2.

(** The lines of a script that are dialogue, in their short form. *)
Definition dialogue_lines (script : jsstring) : list jsstring :=
  List.filter (fun line => negb (is_blank line) && negb (is_non_dialogue line))
    (map standardise (split newline script)).

(** ** A concrete script, model and browser

    A script of six lines: the title of the episode, an audio cue, an
    empty line, a line of the narrator, a bullet, a line of the inquirer;
    and the two lines of dialogue it is sent as. *)

Definition example_script : jsstring :=
  [0x639; 0x646; 0x648; 0x627; 0x646; 0x20; 0x627; 0x644; 0x62d; 0x644; 0x642; 0x629;
   0x3a; 0x20; 0x58; 0xa; 0x28; 0x625; 0x631; 0x634; 0x627; 0x62f; 0x20; 0x635;
   0x648; 0x62a; 0x64a; 0x29; 0x20; 0x69; 0x6e; 0x74; 0x72; 0x6f; 0xa; 0xa; 0x633;
   0x31; 0x20; 0x28; 0x627; 0x644; 0x631; 0x627; 0x648; 0x64a; 0x29; 0x3a; 0x20;
   0x41; 0xa; 0x20; 0x20; 0x2a; 0x20; 0x6e; 0x6f; 0x74; 0x65; 0xa; 0x633; 0x32; 0x20;
   0x28; 0x627; 0x644; 0x645; 0x633; 0x62a; 0x641; 0x633; 0x631; 0x29; 0x3a; 0x20;
   0x42]%N.

Definition example_dialogue : jsstring :=
  [0x633; 0x31; 0x3a; 0x20; 0x41; 0xa; 0x633; 0x32; 0x3a; 0x20; 0x42]%N.

(** A model that answers every request with the example speech. *)
Definition example_genai : GenAI :=
  mkGenAI (Some "key"%string)
    (fun _ _ =>
       Returned
         (mkGenerateContentResponse
            (Some [mkCandidate
                     (Some (mkContent
                              (Some [mkPart
                                       (Some (mkInlineData
                                                (Some "AEAAwP9/AIAAAA=="%string)))])))]))).

(** A browser whose new URL is longer than every URL alive. *)
Definition example_new_url (urls : list string) : string :=
  String "b" (String.concat EmptyString urls).

(** The messages of the exceptions of the platform, for the example. *)
Definition example_message (e : exn) : string :=
  match e with
  | RangeError => "RangeError"
  | InvalidCharacterError => "InvalidCharacterError"
  | NotSupportedError => "NotSupportedError"
  | TypeError => "TypeError"
  | EncodingError => "EncodingError"
  | Error message => message
  end.

(** The surroundings of the example: the example script, no music as the
    first track. *)
Definition example_environment : Environment :=
  mkEnvironment example_script "none" example_new_url example_message.

(** A platform whose music file cannot be decoded. *)
Definition example_corrupt_platform : Platform :=
  mkPlatform (fun _ => Ok (mkResponse true "OK" (Ok [])))
    (decodeAudioData example_platform) ieee_fadd ieee_fmul
    (fun b _ => b) (fun n _ => replicate n f32_zero).

(** A sample that is a number: neither an infinity nor NaN. *)
Definition is_number (f : float32) : bool :=
  match f32_val f with
  | S754_zero _ | S754_finite _ _ _ => true
  | _ => false
  end.

(** A 16-bit sample after it went to a float and back. *)
Definition round_trip (s : Z) : Z := if 0 <? s then s - 1 else s.

(** * Lemmas *)

(** ** Bytes, integers and the DataView *)

Lemma byte_val_range (b : byte) : 0 <= byte_val b < 256.
Proof.
  unfold byte_val. pose proof (Byte.to_N_bounded b). lia.
Qed.

Lemma byte_val_ToUint8 (z : Z) : byte_val (ToUint8 z) = z mod 256.
Proof.
  unfold ToUint8, byte_val.
  pose proof (Z.mod_pos_bound z 256 eq_refl) as Hr.
  destruct (Byte.of_N (Z.to_N (z mod 256))) as [b|] eqn:E.
  - apply Byte.to_of_N in E. rewrite E. lia.
  - apply Byte.of_N_None_iff in E. lia.
Qed.

Lemma ToUint8_byte_val (b : byte) : ToUint8 (byte_val b) = b.
Proof.
  unfold ToUint8. pose proof (byte_val_range b) as Hr.
  rewrite Z.mod_small by lia. unfold byte_val.
  rewrite N2Z.id, Byte.of_to_N. reflexivity.
Qed.

Lemma length_le_bytes (n : nat) (z : Z) : length (le_bytes n z) = n.
Proof. revert z. induction n as [|n IH]; intros z; simpl; [|rewrite IH]; reflexivity. Qed.

Lemma le_value_le_bytes (n : nat) (z : Z) :
  le_value (le_bytes n z) = z mod 256 ^ Z.of_nat n.
Proof.
  revert z. induction n as [|n IH]; intros z.
  - simpl. rewrite Z.mod_1_r. reflexivity.
  - cbn [le_bytes le_value]. rewrite IH, byte_val_ToUint8.
    rewrite Nat2Z.inj_succ, Z.pow_succ_r by lia.
    rewrite Z.rem_mul_r by lia. lia.
Qed.

Lemma le_bytes_le_value_2 (b0 b1 : byte) : le_bytes 2 (le_value [b0; b1]) = [b0; b1].
Proof.
  pose proof (byte_val_range b0). pose proof (byte_val_range b1).
  cbn [le_bytes le_value].
  replace (byte_val b0 + 256 * (byte_val b1 + 256 * 0)) with (byte_val b0 + byte_val b1 * 256) by lia.
  rewrite Z.div_add by lia. rewrite Z.div_small by lia. simpl (0 + _).
  f_equal; [|f_equal].
  - rewrite <- (ToUint8_byte_val b0) at 2. unfold ToUint8.
    rewrite Z.mod_add by lia. reflexivity.
  - apply ToUint8_byte_val.
Qed.

Lemma ToUint16_ToInt16 (z : Z) : ToUint16 (ToInt16 z) = ToUint16 z.
Proof.
  unfold ToUint16, ToInt16.
  rewrite Zminus_mod, Z.mod_mod by lia.
  rewrite <- Zminus_mod. f_equal. lia.
Qed.

Lemma set_bytes_ok (view : DataView) (offset : nat) (bs : list byte) :
  (offset + length bs <= length view)%nat ->
  set_bytes view offset bs = Ok (take offset view ++ bs ++ drop (offset + length bs) view).
Proof.
  intros H. unfold set_bytes.
  destruct (Nat.leb_spec (offset + length bs) (length view)); [reflexivity|lia].
Qed.

Lemma ToUint8_ascii (c : ascii) : ToUint8 (Z.of_N (N_of_ascii c)) = byte_of_ascii c.
Proof. destruct c as [[] [] [] [] [] [] [] []]; reflexivity. Qed.

Lemma set_bytes_nil (view : DataView) (offset : nat) :
  (offset <= length view)%nat -> set_bytes view offset [] = Ok view.
Proof.
  intros H. rewrite set_bytes_ok by (simpl; lia).
  simpl. rewrite Nat.add_0_r, take_drop. reflexivity.
Qed.

Lemma set_bytes_cons (view : DataView) (offset : nat) (b : byte) (bs : list byte) :
  (offset + S (length bs) <= length view)%nat ->
  (let* v := set_bytes view offset [b] in set_bytes v (S offset) bs)
  = set_bytes view offset (b :: bs).
Proof.
  intros H. rewrite (set_bytes_ok view offset [b]) by (simpl; lia).
  cbn [bind]. 
  assert (length (take offset view) = offset) as Hpre
    by (rewrite length_take; lia).
  rewrite (set_bytes_ok view offset (b :: bs)) by (simpl; lia).
  rewrite set_bytes_ok
    by (rewrite !length_app, Hpre, length_drop; simpl; lia).
  f_equal. cbn [length].
  generalize dependent (take offset view). intros pre Hpre. subst offset.
  rewrite <- (Nat.add_1_r (length pre)).
  rewrite take_app_add', <- Nat.add_assoc, drop_app_add' by done.
  cbn [take drop app Nat.add].
  rewrite take_0, drop_drop, <- app_assoc.
  cbn [app]. do 3 f_equal. f_equal. lia.
Qed.

Lemma for_loop_from_shift {St} (body : nat -> St -> result St) (n i : nat) (s : St) :
  for_loop_from (S i) n body s = for_loop_from i n (fun j => body (S j)) s.
Proof.
  revert i s. induction n as [|n IH]; intros i s; [reflexivity|].
  cbn [for_loop_from]. destruct (body (S i) s); cbn [bind]; [apply IH|reflexivity].
Qed.

Lemma for_loop_from_ext {St} (f g : nat -> St -> result St) (n i : nat) (s : St) :
  (forall j t, f j t = g j t) -> for_loop_from i n f s = for_loop_from i n g s.
Proof.
  intros E. revert i s. induction n as [|n IH]; intros i s; [reflexivity|].
  cbn [for_loop_from]. rewrite E. destruct (g i s); cbn [bind]; [apply IH|reflexivity].
Qed.

Lemma length_set_bytes (view v : DataView) (offset : nat) (bs : list byte) :
  set_bytes view offset bs = Ok v -> length v = length view.
Proof.
  unfold set_bytes. destruct (_ <=? _)%nat eqn:L; [|discriminate].
  apply Nat.leb_le in L. intros [= <-].
  rewrite !length_app, length_take, length_drop. lia.
Qed.

Lemma length_ascii_bytes (s : string) : length (ascii_bytes s) = String.length s.
Proof. induction s as [|c s IH]; [reflexivity|]. cbn. f_equal. exact IH. Qed.

Lemma writeString_set_bytes (s : string) : forall (view : DataView) (offset : nat),
  (offset + String.length s <= length view)%nat ->
  writeString view offset s = set_bytes view offset (ascii_bytes s).
Proof.
  unfold writeString, for_loop.
  induction s as [|c s IH]; intros view offset H.
  - cbn. symmetry. apply set_bytes_nil. simpl in H. lia.
  - cbn [String.length for_loop_from] in *.
    change (ascii_bytes (String c s)) with (byte_of_ascii c :: ascii_bytes s).
    rewrite <- set_bytes_cons by (rewrite length_ascii_bytes; lia).
    unfold setUint8 at 1. rewrite Nat.add_0_r.
    change (charCodeAt (String c s) 0) with (Z.of_N (N_of_ascii c)).
    rewrite ToUint8_ascii.
    destruct (set_bytes view offset [byte_of_ascii c]) as [v|e] eqn:E; cbn [bind]; [|reflexivity].
    apply length_set_bytes in E.
    rewrite for_loop_from_shift.
    rewrite <- (IH v (S offset)) by lia.
    apply for_loop_from_ext. intros j t. rewrite Nat.add_succ_r. reflexivity.
Qed.

Lemma int16_elements_length (n : nat) : forall (buf : ArrayBuffer),
  length buf = (2 * n)%nat -> length (int16_elements buf) = n.
Proof.
  induction n as [|n IH]; intros buf H.
  - destruct buf; [reflexivity|discriminate].
  - destruct buf as [|b0 [|b1 rest]]; simpl in H; try lia.
    cbn [int16_elements length]. f_equal. apply IH. lia.
Qed.

Lemma le_value_2_range (b0 b1 : byte) : 0 <= le_value [b0; b1] < 65536.
Proof.
  pose proof (byte_val_range b0). pose proof (byte_val_range b1).
  cbn [le_value]. lia.
Qed.

Lemma int16_store_load (b0 b1 : byte) :
  le_bytes 2 (ToUint16 (ToInt16 (le_value [b0; b1]))) = [b0; b1].
Proof.
  rewrite ToUint16_ToInt16. unfold ToUint16.
  rewrite Z.mod_small by apply le_value_2_range.
  apply le_bytes_le_value_2.
Qed.

Lemma int16_buffer_elements (n : nat) : forall (buf : ArrayBuffer),
  length buf = (2 * n)%nat -> int16_buffer (int16_elements buf) = buf.
Proof.
  induction n as [|n IH]; intros buf H.
  - destruct buf; [reflexivity|discriminate].
  - destruct buf as [|b0 [|b1 rest]]; simpl in H; try lia.
    cbn [int16_elements]. unfold int16_buffer in *. cbn [flat_map].
    rewrite int16_store_load, IH by lia. reflexivity.
Qed.

Lemma set_bytes_prefix (hdr tail : list byte) (offset : nat) (bs : list byte) :
  (offset + length bs <= length hdr)%nat ->
  set_bytes (hdr ++ tail) offset bs
  = Ok ((take offset hdr ++ bs ++ drop (offset + length bs) hdr) ++ tail).
Proof.
  intros H. rewrite set_bytes_ok by (rewrite length_app; lia).
  f_equal. rewrite take_app_le, drop_app_le by lia.
  rewrite <- !app_assoc. reflexivity.
Qed.

Lemma data_loop (a : list Z) : forall (k i : nat) (pre : list byte),
  length a = (i + k)%nat -> length pre = (44 + i * 2)%nat ->
  for_loop_from i k (fun i view => setInt16 view (44 + i * 2) (element a i))
    (pre ++ replicate (2 * k) x00)
  = Ok (pre ++ int16_buffer (drop i a)).
Proof.
  induction k as [|k IH]; intros i pre Ha Hpre.
  - cbn [for_loop_from]. rewrite drop_ge by lia. reflexivity.
  - cbn [for_loop_from].
    assert (setInt16 (pre ++ replicate (2 * S k) x00) (44 + i * 2) (element a i)
            = Ok ((pre ++ le_bytes 2 (ToUint16 (element a i))) ++ replicate (2 * k) x00))
      as ->.
    { unfold setInt16. rewrite ToUint16_ToInt16.
      rewrite set_bytes_ok
        by (rewrite length_app, length_replicate, length_le_bytes; lia).
      rewrite length_le_bytes, <- Hpre, take_app_length, drop_app_add.
      replace (2 * S k)%nat with (2 + 2 * k)%nat by lia.
      rewrite <- app_assoc. reflexivity. }
    cbn [bind].
    rewrite IH; [|lia|rewrite length_app, length_le_bytes; lia].
    rewrite <- app_assoc. do 2 f_equal.
    destruct (drop i a) as [|x rest] eqn:E.
    { apply (f_equal length) in E. rewrite length_drop in E. simpl in E. lia. }
    assert (element a i = x) as ->.
    { unfold element. rewrite <- (take_drop i a), E.
      rewrite app_nth2 by (rewrite length_take; lia).
      rewrite length_take, Nat.min_l by lia. rewrite Nat.sub_diag. reflexivity. }
    replace (drop (S i) a) with rest.
    2:{ replace (S i) with (i + 1)%nat by lia. rewrite <- drop_drop, E. reflexivity. }
    reflexivity.
Qed.

(** ** The WAV encoder in closed form *)

Ltac eval_ascii_bytes :=
  repeat match goal with
  | |- context [ascii_bytes ?s] =>
      let v := eval vm_compute in (ascii_bytes s) in
      change (ascii_bytes s) with v
  end.

Ltac header_write :=
  first [ rewrite writeString_set_bytes by (cbn [length String.length]; lia)
        | unfold setUint32 at 1 | unfold setUint16 at 1 ];
  eval_ascii_bytes;
  cbn [set_bytes bind take drop app length le_bytes Nat.add Nat.leb].

Lemma pcmToWav_even (pcmData : Uint8Array) (n : nat) (sampleRate numChannels : number) :
  length (buffer pcmData) = (2 * n)%nat ->
  pcmToWav pcmData sampleRate numChannels
  = Ok (mkBlob (wav_header sampleRate numChannels (Z.of_nat n * 2) ++ buffer pcmData)
          "audio/wav").
Proof.
  intros Hlen. unfold pcmToWav, new_Int16Array.
  replace (Nat.even (length (buffer pcmData))) with true
    by (rewrite Hlen, Nat.even_mul; reflexivity).
  cbn [bind]. rewrite (int16_elements_length n) by exact Hlen.
  change (16 / 8) with 2.
  generalize (buffer pcmData) Hlen. clear pcmData Hlen. intros pcmData Hlen.
  fold (times numChannels (number_of_Z 2)).
  fold (times sampleRate (times numChannels (number_of_Z 2))).
  unfold new_ArrayBuffer.
  replace (Z.to_nat (44 + Z.of_nat n * 2)) with (44 + 2 * n)%nat by lia.
  rewrite replicate_add. cbn [replicate app].
  set (data := for_loop n _).
  do 13 header_write.
  subst data. unfold for_loop.
  match goal with |- context [for_loop_from 0 n _ ?v] =>
    let h := eval cbn [take] in (take 44 v) in
    change v with (h ++ replicate (2 * n) x00);
    rewrite (data_loop (int16_elements pcmData) n 0 h)
  end; [| rewrite (int16_elements_length n) by exact Hlen; lia | reflexivity ].
  cbn [bind]. change (drop 0 (int16_elements pcmData)) with (int16_elements pcmData). rewrite (int16_buffer_elements n) by exact Hlen.
  reflexivity.
Qed.

Lemma le_value_u32 (v : Z) : le_value (le_bytes 4 (ToUint32 v)) = ToUint32 v.
Proof.
  rewrite le_value_le_bytes. unfold ToUint32.
  change (256 ^ Z.of_nat 4) with 4294967296. apply Z.mod_mod. lia.
Qed.

Lemma le_value_u16 (v : Z) : le_value (le_bytes 2 (ToUint16 v)) = ToUint16 v.
Proof.
  rewrite le_value_le_bytes. unfold ToUint16.
  change (256 ^ Z.of_nat 2) with 65536. apply Z.mod_mod. lia.
Qed.

Lemma pcmToWav_odd (pcmData : Uint8Array) (sampleRate numChannels : number) :
  Nat.even (length (buffer pcmData)) = false ->
  pcmToWav pcmData sampleRate numChannels = Throw RangeError.
Proof.
  intros H. unfold pcmToWav, new_Int16Array. rewrite H. reflexivity.
Qed.

Lemma pcmToWav_total (pcmData : Uint8Array) (sampleRate numChannels : number) :
  pcmToWav pcmData sampleRate numChannels
  = if Nat.even (length (buffer pcmData))
    then Ok (mkBlob (wav_header sampleRate numChannels
                       (Z.of_nat (length (buffer pcmData)))
                       ++ buffer pcmData) "audio/wav")
    else Throw RangeError.
Proof.
  destruct (Nat.even (length (buffer pcmData))) eqn:E.
  - apply Nat.even_spec in E. destruct E as [n Hn].
    rewrite (pcmToWav_even pcmData n) by exact Hn.
    rewrite Hn. replace (Z.of_nat (2 * n)) with (Z.of_nat n * 2) by lia.
    reflexivity.
  - apply pcmToWav_odd. exact E.
Qed.

Section HeaderFields.
Variables (sampleRate numChannels : number) (dataSize : Z) (pcmData : list byte).
Local Abbreviation blob :=
  (mkBlob (wav_header sampleRate numChannels dataSize ++ pcmData) "audio/wav").

Lemma header_length : length (wav_header sampleRate numChannels dataSize) = 44%nat.
Proof. reflexivity. Qed.

Lemma header_tags :
  tag blob 0 = ascii_bytes "RIFF" /\ tag blob 8 = ascii_bytes "WAVE" /\
  tag blob 12 = ascii_bytes "fmt " /\ tag blob 36 = ascii_bytes "data".
Proof. repeat split; reflexivity. Qed.

Lemma header_ChunkSize : ChunkSize blob = ToUint32 (36 + dataSize).
Proof. exact (le_value_u32 (36 + dataSize)). Qed.
Lemma header_NumChannels : NumChannels blob = ToUint16 (truncate numChannels).
Proof. exact (le_value_u16 _). Qed.
Lemma header_SampleRate : SampleRate blob = ToUint32 (truncate sampleRate).
Proof. exact (le_value_u32 _). Qed.
Lemma header_ByteRate :
  ByteRate blob
  = ToUint32 (truncate (times sampleRate (times numChannels (number_of_Z 2)))).
Proof. exact (le_value_u32 _). Qed.
Lemma header_BlockAlign :
  BlockAlign blob = ToUint16 (truncate (times numChannels (number_of_Z 2))).
Proof. exact (le_value_u16 _). Qed.
Lemma header_BitsPerSample : BitsPerSample blob = 16.
Proof. exact (le_value_u16 16). Qed.
Lemma header_Subchunk2Size : Subchunk2Size blob = ToUint32 dataSize.
Proof. exact (le_value_u32 dataSize). Qed.
Lemma header_data : wav_data blob = pcmData.
Proof. reflexivity. Qed.
End HeaderFields.

(** ** IEEE 754 arithmetic of the sample converter *)

(** *** Mantissa widths *)

Lemma digits_log2 (m : positive) : digits m = Z.log2 (Zpos m) + 1.
Proof.
  unfold digits.
  assert (forall p, digits2_pos p = Pos.size p) as E
    by (induction p as [p IH|p IH|]; simpl; rewrite ?IH; reflexivity).
  destruct m as [p|p|]; simpl; rewrite ?E; lia.
Qed.

Lemma digits_pos (m : positive) : 0 < digits m.
Proof. reflexivity. Qed.

Lemma digits_bounds (m : positive) : 2 ^ (digits m - 1) <= Zpos m < 2 ^ digits m.
Proof.
  rewrite digits_log2. replace (Z.log2 (Z.pos m) + 1 - 1) with (Z.log2 (Z.pos m)) by lia.
  apply Z.log2_spec. lia.
Qed.

Lemma digits_unique (m : positive) (d : Z) :
  2 ^ (d - 1) <= Zpos m < 2 ^ d -> digits m = d.
Proof.
  intros H. rewrite digits_log2.
  assert (0 < d) as Hd.
  { destruct (Z.ltb_spec 0 d) as [|Hd]; [assumption|].
    destruct H as [_ H]. 
    destruct (Z.eq_dec d 0) as [->|]; [simpl in H; lia|].
    rewrite Z.pow_neg_r in H by lia. lia. }
  rewrite (Z.log2_unique (Zpos m) (d - 1)); [lia|lia|].
  replace (Z.succ (d - 1)) with d by lia. exact H.
Qed.

Lemma Zdigits2_mul_pow2 (m : positive) (k : Z) :
  0 <= k -> Zdigits2 (Zpos m * 2 ^ k) = digits m + k.
Proof.
  intros Hk. pose proof (digits_bounds m) as [Hl Hu].
  assert (0 < 2 ^ k) as Hp by (apply Z.pow_pos_nonneg; lia).
  destruct (Zpos m * 2 ^ k) as [|q|q] eqn:E; try lia.
  change (Zdigits2 (Zpos q)) with (digits q).
  apply digits_unique. rewrite <- E.
  replace (digits m + k - 1) with (digits m - 1 + k) by lia.
  pose proof (digits_pos m).
  rewrite !Z.pow_add_r by lia. nia.
Qed.

(** *** Shifting out zero bits is exact *)

Lemma shr_1_even (M : Z) :
  0 < M ->
  shr_1 {| shr_m := M * 2; shr_r := false; shr_s := false |}
  = {| shr_m := M; shr_r := false; shr_s := false |}.
Proof.
  intros H. destruct M as [|q|q]; try lia.
  rewrite Z.mul_comm. reflexivity.
Qed.

Lemma iter_pos_shr_1_exact (p : positive) : forall (M : Z),
  0 < M ->
  SpecFloat.iter_pos shr_1 p {| shr_m := M * 2 ^ Zpos p; shr_r := false; shr_s := false |}
  = {| shr_m := M; shr_r := false; shr_s := false |}.
Proof.
  induction p as [p IH|p IH|]; intros M HM; cbn [SpecFloat.iter_pos].
  - change (Zpos p~1) with (2 * Zpos p + 1).
    replace (M * 2 ^ (2 * Zpos p + 1)) with (M * 2 ^ Zpos p * 2 ^ Zpos p * 2)
      by (rewrite Z.pow_add_r, Z.pow_mul_r, Z.pow_2_r, Z.pow_mul_l, Z.pow_1_r by lia; ring).
    assert (0 < 2 ^ Zpos p) by (apply Z.pow_pos_nonneg; lia).
    rewrite shr_1_even by nia. rewrite IH by nia. apply IH. exact HM.
  - change (Zpos p~0) with (2 * Zpos p).
    replace (M * 2 ^ (2 * Zpos p)) with (M * 2 ^ Zpos p * 2 ^ Zpos p)
      by (rewrite Z.pow_mul_r, Z.pow_2_r, Z.pow_mul_l by lia; ring).
    assert (0 < 2 ^ Zpos p) by (apply Z.pow_pos_nonneg; lia).
    rewrite IH by nia. apply IH. exact HM.
  - rewrite Z.pow_1_r. apply shr_1_even. exact HM.
Qed.

Section Rounding.
Variables prec emax : Z.

(** A mantissa that already fits is returned as it is. *)
Lemma binary_round_aux_fits (s : bool) (M : positive) (e : Z) :
  fexp prec emax (digits M + e) <= e -> e <= emax - prec ->
  binary_round_aux prec emax s (Zpos M) e loc_Exact = S754_finite s M e.
Proof.
  intros Hf He. unfold binary_round_aux, shr_fexp.
  change (Zdigits2 (Zpos M)) with (digits M).
  assert (forall mrs, shr mrs e (fexp prec emax (digits M + e) - e) = (mrs, e)) as Hs.
  { intros mrs. unfold shr.
    destruct (fexp prec emax (digits M + e) - e) eqn:E; try reflexivity. lia. }
  rewrite Hs. cbn [shr_record_of_loc shr_m loc_of_shr_record round_nearest_even].
  change (Zdigits2 (Zpos M)) with (digits M). rewrite Hs. cbn [shr_m].
  destruct (Z.leb_spec e (emax - prec)); [reflexivity|lia].
Qed.

(** When the bits to shift out are all zero, rounding only drops them. *)
Lemma binary_round_aux_exact (s : bool) (a : positive) (n e : Z) :
  0 < n ->
  fexp prec emax (digits a + n + e) = e + n -> e + n <= emax - prec ->
  binary_round_aux prec emax s (Zpos a * 2 ^ n) e loc_Exact
  = S754_finite s a (e + n).
Proof.
  intros Hn Hf He. unfold binary_round_aux, shr_fexp.
  rewrite Zdigits2_mul_pow2 by lia. rewrite Hf.
  replace (e + n - e) with n by lia.
  destruct n as [|p|p]; try lia.
  cbn [shr shr_record_of_loc]. rewrite iter_pos_shr_1_exact by lia.
  cbn [shr_m loc_of_shr_record round_nearest_even].
  change (Zdigits2 (Zpos a)) with (digits a).
  replace (digits a + (e + Zpos p)) with (digits a + Zpos p + e) by lia.
  rewrite Hf, Z.sub_diag. cbn [shr shr_m].
  destruct (Z.leb_spec (e + Zpos p) (emax - prec)); [reflexivity|lia].
Qed.
End Rounding.

(** *** The numbers of the conversion *)

Lemma number_of_Z_0 : number_of_Z 0 = S754_zero false.
Proof. reflexivity. Qed.
Lemma number_of_Z_1 : number_of_Z 1 = S754_finite false 4503599627370496 (-52).
Proof. reflexivity. Qed.
Lemma number_of_Z_m1 : number_of_Z (-1) = S754_finite true 4503599627370496 (-52).
Proof. reflexivity. Qed.
Lemma number_of_Z_0x8000 :
  number_of_Z 32768 = S754_finite false 4503599627370496 (-37).
Proof. reflexivity. Qed.
Lemma number_of_Z_0x7FFF :
  number_of_Z 32767 = S754_finite false 9006924376834048 (-38).
Proof. reflexivity. Qed.

(** *** Binary32 values as numbers *)

Lemma pos_iter_xO (m d : positive) : Zpos (Pos.iter xO m d) = Zpos m * 2 ^ Zpos d.
Proof.
  induction d as [|d IH] using Pos.peano_ind.
  - cbn [Pos.iter]. rewrite Z.pow_1_r. lia.
  - rewrite Pos.iter_succ, Pos2Z.inj_xO, IH, Pos2Z.inj_succ, Z.pow_succ_r by lia.
    ring.
Qed.

Lemma valid32_finite (s : bool) (m : positive) (e : Z) :
  valid_binary prec32 emax32 (S754_finite s m e) = true ->
  -149 <= e <= 104 /\ digits m <= 24.
Proof.
  unfold valid_binary, bounded, canonical_mantissa, fexp, emin, prec32, emax32.
  fold (digits m). intros H. apply andb_true_iff in H as [H1 H2].
  apply Z.eqb_eq in H1. apply Z.leb_le in H2. lia.
Qed.

Lemma Zpos_widen (m : positive) :
  digits m <= 24 -> Zpos (widen m) = Zpos m * 2 ^ (53 - digits m).
Proof.
  intros H. unfold widen. rewrite pos_iter_xO, Z2Pos.id by lia. reflexivity.
Qed.

Lemma digits_widen (m : positive) : digits m <= 24 -> digits (widen m) = 53.
Proof.
  intros H. change (digits (widen m)) with (Zdigits2 (Zpos (widen m))).
  rewrite Zpos_widen, Zdigits2_mul_pow2 by lia. lia.
Qed.

Lemma float32_number_finite (s : bool) (m : positive) (e : Z)
    (H : valid_binary prec32 emax32 (S754_finite s m e) = true) :
  float32_number (mkFloat32 (S754_finite s m e) H)
  = S754_finite s (widen m) (e - (53 - digits m)).
Proof.
  pose proof (valid32_finite s m e H) as [He Hm]. pose proof (digits_pos m).
  unfold float32_number. cbn [f32_val]. unfold binary_round, shl_align.
  fold (digits m).
  assert (fexp prec64 emax64 (digits m + e) = e - (53 - digits m)) as ->
    by (unfold fexp, emin, prec64, emax64; lia).
  replace (e - (53 - digits m) - e) with (Zneg (Z.to_pos (53 - digits m)))
    by (rewrite <- Pos2Z.opp_pos, Z2Pos.id; lia).
  fold (widen m). apply binary_round_aux_fits.
  - rewrite digits_widen by lia. unfold fexp, emin, prec64, emax64. lia.
  - unfold prec64, emax64. lia.
Qed.

(** *** Clamping *)

Lemma widen_ge (m : positive) : digits m <= 24 -> (4503599627370496 <= widen m)%positive.
Proof.
  intros H. pose proof (digits_bounds (widen m)) as [Hl _].
  rewrite digits_widen in Hl by exact H. change (2 ^ (53 - 1)) with 4503599627370496 in Hl.
  lia.
Qed.

Lemma SFltb_pos_one (W : positive) (E : Z) :
  (4503599627370496 <= W)%positive ->
  SFltb (S754_finite false W E) (S754_finite false 4503599627370496 (-52))
  = (E <? -52).
Proof.
  intros HW. unfold SFltb, SFcompare.
  rewrite Pos.compare_cont_spec. cbn [Pos.switch_Eq].
  destruct (Z.ltb_spec E (-52)) as [HE|HE].
  - rewrite (proj2 (Z.compare_lt_iff _ _) HE). reflexivity.
  - destruct (Z.compare_spec E (-52)) as [HE'|HE'|HE']; [|lia|reflexivity].
    destruct (Pos.compare_spec W 4503599627370496%positive) as [HW'|HW'|HW'];
      [reflexivity| |reflexivity].
    exfalso. apply Pos.lt_nle in HW'. exact (HW' HW).
Qed.

Lemma SFltb_m1_neg (W : positive) (E : Z) :
  (4503599627370496 <= W)%positive ->
  SFltb (S754_finite true 4503599627370496 (-52)) (S754_finite true W E)
  = (E <? -52).
Proof.
  intros HW. unfold SFltb, SFcompare.
  rewrite Pos.compare_cont_spec. cbn [Pos.switch_Eq].
  destruct (Z.ltb_spec E (-52)) as [HE|HE].
  - rewrite (proj2 (Z.compare_gt_iff _ _) HE). reflexivity.
  - destruct (Z.compare_spec (-52) E) as [HE'|HE'|HE']; [|reflexivity|lia].
    destruct (Pos.compare_spec 4503599627370496%positive W) as [HW'|HW'|HW'];
      [reflexivity|reflexivity|].
    exfalso. apply Pos.lt_nle in HW'. exact (HW' HW).
Qed.

Lemma clamp_sample_finite (s : bool) (m : positive) (e : Z)
    (H : valid_binary prec32 emax32 (S754_finite s m e) = true) :
  clamp_sample (mkFloat32 (S754_finite s m e) H)
  = if digits m + e <=? 0
    then S754_finite s (widen m) (e - (53 - digits m))
    else number_of_Z (if s then -1 else 1).
Proof.
  pose proof (valid32_finite s m e H) as [He Hm].
  pose proof (widen_ge m Hm) as Hw.
  unfold clamp_sample. rewrite float32_number_finite.
  rewrite number_of_Z_1, number_of_Z_m1.
  assert ((digits m + e <=? 0) = (e - (53 - digits m) <? -52)) as ->
    by (destruct (Z.leb_spec (digits m + e) 0), (Z.ltb_spec (e - (53 - digits m)) (-52)); lia).
  generalize (e - (53 - digits m)). intros E.
  unfold Math_min, Math_max. cbn [is_nan is_neg_zero is_pos_zero orb andb].
  destruct s.
  - change (SFltb (S754_finite true (widen m) E)
              (S754_finite false 4503599627370496 (-52))) with true.
    cbn [is_nan is_pos_zero orb andb].
    rewrite SFltb_m1_neg by exact Hw. destruct (E <? -52); reflexivity.
  - rewrite SFltb_pos_one by exact Hw. destruct (E <? -52); reflexivity.
Qed.

Lemma digits_mul (p q : positive) :
  digits p + digits q - 1 <= digits (p * q) <= digits p + digits q.
Proof.
  rewrite !digits_log2, Pos2Z.inj_mul.
  pose proof (Z.log2_mul_below (Zpos p) (Zpos q) ltac:(lia) ltac:(lia)).
  pose proof (Z.log2_mul_above (Zpos p) (Zpos q) ltac:(lia) ltac:(lia)).
  lia.
Qed.

Lemma Zpos_scaled_mantissa (m c : positive) :
  digits (m * c) <= 53 ->
  Zpos (scaled_mantissa m c) = Zpos (m * c) * 2 ^ (53 - digits (m * c)).
Proof.
  intros H. unfold scaled_mantissa.
  assert (0 < 2 ^ (53 - digits (m * c))) by (apply Z.pow_pos_nonneg; lia).
  rewrite Z2Pos.id by nia. reflexivity.
Qed.

(** The product of a binary32 value by a 16-bit integer is exact in
    binary64: no bit of it is rounded away. *)
Lemma SFmul_scale_exact (s : bool) (m : positive) (e : Z) (c C : positive) (ec : Z) :
  -149 <= e <= 104 -> digits m <= 24 -> digits c <= 16 ->
  ec < 0 -> Zpos C = Zpos c * 2 ^ (- ec) ->
  SFmul prec64 emax64 (S754_finite s (widen m) (e - (53 - digits m)))
    (S754_finite false C ec)
  = S754_finite s (scaled_mantissa m c) (e + digits (m * c) - 53).
Proof.
  intros He Hm Hc Hkc HC. set (kc := - ec) in *.
  pose proof (digits_mul m c) as HD. pose proof (digits_pos m). pose proof (digits_pos c).
  set (D := digits (m * c)) in *.
  cbn [SFmul]. rewrite xorb_false_r.
  set (n := D - digits m + kc).
  assert (Zpos (widen m * C) = Zpos (scaled_mantissa m c) * 2 ^ n) as ->.
  { rewrite Pos2Z.inj_mul, Zpos_widen, HC, Zpos_scaled_mantissa by (fold D; lia).
    fold D. subst n. rewrite Pos2Z.inj_mul.
    replace (53 - digits m) with ((53 - D) + (D - digits m)) at 1 by lia.
    rewrite !Z.pow_add_r by lia. ring. }
  assert (digits (scaled_mantissa m c) = 53) as Hd.
  { change (digits (scaled_mantissa m c)) with (Zdigits2 (Zpos (scaled_mantissa m c))).
    rewrite Zpos_scaled_mantissa, Zdigits2_mul_pow2 by (fold D; lia). fold D. lia. }
  rewrite binary_round_aux_exact.
  - f_equal. subst n. lia.
  - subst n. lia.
  - rewrite Hd. unfold fexp, emin, prec64, emax64. subst n. lia.
  - unfold prec64, emax64. subst n. lia.
Qed.

Lemma truncate_scaled (s : bool) (m c : positive) (e : Z) :
  digits m + e <= 0 -> digits m <= 24 -> digits c <= 16 ->
  truncate (S754_finite s (scaled_mantissa m c) (e + digits (m * c) - 53))
  = let q := Zpos m * Zpos c / 2 ^ (- e) in if s then - q else q.
Proof.
  intros Hlt Hm Hc. pose proof (digits_mul m c) as HD.
  pose proof (digits_pos m). pose proof (digits_pos c).
  cbn [truncate]. rewrite Zpos_scaled_mantissa by lia.
  set (D := digits (m * c)) in *.
  destruct (Z.leb_spec 0 (e + D - 53)); [lia|].
  replace (- (e + D - 53)) with (- e + (53 - D)) by lia.
  rewrite Z.pow_add_r by lia.
  assert (0 < 2 ^ (53 - D)) by (apply Z.pow_pos_nonneg; lia).
  rewrite Z.div_mul_cancel_r by lia.
  rewrite Pos2Z.inj_mul. reflexivity.
Qed.

Lemma scaled_quotient_bound (m c : positive) (e : Z) :
  digits m + e <= 0 -> 0 <= Zpos m * Zpos c / 2 ^ (- e) < Zpos c.
Proof.
  intros Hlt. pose proof (digits_bounds m) as [_ Hu]. pose proof (digits_pos m).
  assert (2 ^ digits m <= 2 ^ (- e)) by (apply Z.pow_le_mono_r; lia).
  assert (0 < 2 ^ (- e)) by (apply Z.pow_pos_nonneg; lia).
  split.
  - apply Z.div_pos; lia.
  - apply Z.div_lt_upper_bound; nia.
Qed.

Lemma ToInt16_small (z : Z) : -32768 <= z <= 32767 -> ToInt16 z = z.
Proof. intros H. unfold ToInt16. rewrite Z.mod_small by lia. lia. Qed.

Lemma pcm16_closed_form_range (s : bool) (m : positive) (e : Z) :
  -32768 <= pcm16_closed_form s m e <= 32767.
Proof.
  unfold pcm16_closed_form.
  destruct (Z.leb_spec (digits m + e) 0) as [Hin|Hout]; [|destruct s; lia].
  pose proof (scaled_quotient_bound m 32768 e Hin).
  pose proof (scaled_quotient_bound m 32767 e Hin).
  destruct s; lia.
Qed.

Lemma truncate_scale_finite (s : bool) (m : positive) (e : Z)
    (H : valid_binary prec32 emax32 (S754_finite s m e) = true) :
  truncate (scale_sample (clamp_sample (mkFloat32 (S754_finite s m e) H)))
  = pcm16_closed_form s m e.
Proof.
  pose proof (valid32_finite s m e H) as [He Hm].
  unfold pcm16_closed_form. rewrite clamp_sample_finite.
  destruct (Z.leb_spec (digits m + e) 0) as [Hlt|Hge].
  - unfold scale_sample. rewrite number_of_Z_0.
    destruct s; cbn [SFltb SFcompare].
    + rewrite number_of_Z_0x8000.
      rewrite (SFmul_scale_exact true m e 32768 4503599627370496 (-37))
        by (try reflexivity; try lia; vm_compute; congruence).
      rewrite truncate_scaled by (try lia; vm_compute; congruence).
      reflexivity.
    + rewrite number_of_Z_0x7FFF.
      rewrite (SFmul_scale_exact false m e 32767 9006924376834048 (-38))
        by (try reflexivity; try lia; vm_compute; congruence).
      rewrite truncate_scaled by (try lia; vm_compute; congruence).
      reflexivity.
  - destruct s; vm_compute; reflexivity.
Qed.

(** The conversion of a finite sample: the store into the [Int16Array]
    has nothing to wrap. *)
Lemma float_to_pcm16_finite (s : bool) (m : positive) (e : Z)
    (H : valid_binary prec32 emax32 (S754_finite s m e) = true) :
  float_to_pcm16 (mkFloat32 (S754_finite s m e) H) = pcm16_closed_form s m e.
Proof.
  unfold float_to_pcm16, Int16_of_number. rewrite truncate_scale_finite.
  apply ToInt16_small. apply pcm16_closed_form_range.
Qed.

(** *** Integers as numbers

    An integer below 2^52 is a number, and so is the product of two such
    integers when it is below 2^52: nothing is rounded. *)

Lemma widen_spec (m : positive) :
  digits m <= 52 ->
  Zpos (widen m) = Zpos m * 2 ^ (53 - digits m) /\ digits (widen m) = 53.
Proof.
  intros H. pose proof (digits_pos m).
  assert (Zpos (widen m) = Zpos m * 2 ^ (53 - digits m)) as E
    by (unfold widen; rewrite pos_iter_xO, Z2Pos.id by lia; reflexivity).
  split; [exact E|].
  change (digits (widen m)) with (Zdigits2 (Zpos (widen m))).
  rewrite E, Zdigits2_mul_pow2 by lia. lia.
Qed.

Lemma number_of_Z_pos (p : positive) :
  digits p <= 52 -> number_of_Z (Zpos p) = S754_finite false (widen p) (digits p - 53).
Proof.
  intros Hp. pose proof (digits_pos p). destruct (widen_spec p Hp) as [_ Hd].
  unfold number_of_Z, binary_normalize, binary_round, shl_align. fold (digits p).
  assert (fexp prec64 emax64 (digits p + 0) = digits p - 53) as ->
    by (unfold fexp, emin, prec64, emax64; lia).
  replace (digits p - 53 - 0) with (Zneg (Z.to_pos (53 - digits p)))
    by (rewrite <- Pos2Z.opp_pos, Z2Pos.id; lia).
  fold (widen p). apply binary_round_aux_fits.
  - rewrite Hd. unfold fexp, emin, prec64, emax64. lia.
  - unfold prec64, emax64. lia.
Qed.

Lemma digits_below (p : positive) : Zpos p < 2 ^ 52 -> digits p <= 52.
Proof.
  intros H. rewrite digits_log2.
  pose proof (Z.log2_lt_pow2 (Zpos p) 52 ltac:(lia)). lia.
Qed.

Lemma truncate_number_of_Z (z : Z) : 0 <= z < 2 ^ 52 -> truncate (number_of_Z z) = z.
Proof.
  intros H. destruct z as [|p|p]; [reflexivity| |lia].
  pose proof (digits_below p ltac:(lia)) as Hp. pose proof (digits_pos p).
  rewrite number_of_Z_pos by exact Hp. destruct (widen_spec p Hp) as [E _].
  cbn [truncate]. destruct (Z.leb_spec 0 (digits p - 53)); [lia|].
  rewrite E. replace (- (digits p - 53)) with (53 - digits p) by lia.
  apply Z.div_mul. apply Z.pow_nonzero; lia.
Qed.

Lemma times_integers (a b : Z) :
  0 <= a < 2 ^ 52 -> 0 <= b < 2 ^ 52 -> a * b < 2 ^ 52 ->
  times (number_of_Z a) (number_of_Z b) = number_of_Z (a * b).
Proof.
  intros Ha Hb Hab. destruct a as [|p|p]; [| |lia].
  - destruct b as [|q|q]; [reflexivity| |lia].
    rewrite (number_of_Z_pos q) by (apply digits_below; lia). reflexivity.
  - destruct b as [|q|q]; [| |lia].
    + rewrite (number_of_Z_pos p) by (apply digits_below; lia). reflexivity.
    + change (Zpos p * Zpos q) with (Zpos (p * q)) in *.
      pose proof (digits_below p ltac:(lia)) as Hp.
      pose proof (digits_below q ltac:(lia)) as Hq.
      pose proof (digits_below (p * q) Hab) as Hpq.
      pose proof (digits_mul p q) as HD.
      pose proof (digits_pos p). pose proof (digits_pos q).
      rewrite !number_of_Z_pos by assumption.
      destruct (widen_spec p Hp) as [Ep _]. destruct (widen_spec q Hq) as [Eq _].
      destruct (widen_spec (p * q) Hpq) as [Epq Hd].
      set (D := digits (p * q)) in *.
      unfold times. cbn [SFmul xorb].
      set (n := 53 - digits p - digits q + D).
      assert (Zpos (widen p * widen q) = Zpos (widen (p * q)) * 2 ^ n) as ->.
      { rewrite Pos2Z.inj_mul, Ep, Eq, Epq, Pos2Z.inj_mul. subst n.
        assert (2 ^ (53 - digits p) * 2 ^ (53 - digits q)
                = 2 ^ (53 - D) * 2 ^ (53 - digits p - digits q + D)) as E
          by (rewrite <- !Z.pow_add_r by lia; f_equal; lia).
        transitivity (Zpos p * Zpos q * (2 ^ (53 - digits p) * 2 ^ (53 - digits q)));
          [ring|rewrite E; ring]. }
      rewrite binary_round_aux_exact.
      * f_equal. subst n. lia.
      * subst n. lia.
      * rewrite Hd. unfold fexp, emin, prec64, emax64. subst n. lia.
      * unfold prec64, emax64. subst n. lia.
Qed.

(** ** The conversion on exact values *)

Lemma digits_le_pow2 (m : positive) (k : Z) :
  0 <= k -> (digits m <= k <-> Zpos m < 2 ^ k).
Proof.
  intros Hk. rewrite digits_log2.
  rewrite (Z.log2_lt_pow2 (Zpos m) k) by lia. lia.
Qed.

Lemma Qmin_compare (x y : Q) :
  Qmin x y = match Qcompare x y with Gt => y | _ => x end.
Proof. reflexivity. Qed.

Lemma Qmax_compare (x y : Q) :
  Qmax x y = match Qcompare x y with Lt => y | _ => x end.
Proof. reflexivity. Qed.

Ltac q_lia := unfold Qeq, Qle, Qlt in *; cbn [Qnum Qden] in *; lia.

Lemma clamp_above (q : Q) : (1 <= q)%Q -> Qmax (-1) (Qmin 1 q) = 1%Q.
Proof.
  intros H. rewrite Qmin_compare.
  destruct (Qcompare_spec 1 q) as [E|L|G]; try reflexivity.
  exfalso. destruct q. q_lia.
Qed.

Lemma clamp_below (q : Q) : (q <= -1)%Q -> Qmax (-1) (Qmin 1 q) = (-1)%Q.
Proof.
  intros H. rewrite Qmin_compare.
  destruct (Qcompare_spec 1 q) as [E|L|G]; try (exfalso; destruct q; q_lia).
  rewrite Qmax_compare. destruct (Qcompare_spec (-1) q) as [E'|L'|G']; try reflexivity.
  exfalso. destruct q. q_lia.
Qed.

Lemma clamp_inside (q : Q) : (-1 < q)%Q -> (q < 1)%Q -> Qmax (-1) (Qmin 1 q) = q.
Proof.
  intros Hl Hu. rewrite Qmin_compare.
  destruct (Qcompare_spec 1 q) as [E|L|G]; try (exfalso; destruct q; q_lia).
  rewrite Qmax_compare.
  destruct (Qcompare_spec (-1) q) as [E'|L'|G']; try reflexivity;
    exfalso; destruct q; q_lia.
Qed.

Lemma float_to_pcm16_exact_one : float_to_pcm16_exact 1 = 32767.
Proof. reflexivity. Qed.

Lemma exact_above (q : Q) : (1 <= q)%Q -> float_to_pcm16_exact q = 32767.
Proof. intros H. unfold float_to_pcm16_exact. rewrite clamp_above by exact H. reflexivity. Qed.

Lemma exact_below (q : Q) : (q <= -1)%Q -> float_to_pcm16_exact q = -32768.
Proof. intros H. unfold float_to_pcm16_exact. rewrite clamp_below by exact H. reflexivity. Qed.

Lemma Zpos_pow2 (k : Z) : 0 <= k -> Zpos (Z.to_pos (2 ^ k)) = 2 ^ k.
Proof. intros H. apply Z2Pos.id. apply Z.pow_pos_nonneg; lia. Qed.

(** The closed form of the conversion is the exact formula at the value
    of the sample. *)
Lemma exact_finite (s : bool) (m : positive) (e : Z) :
  float_to_pcm16_exact (Q_of_finite s m e) = pcm16_closed_form s m e.
Proof.
  pose proof (digits_pos m) as Hd.
  unfold Q_of_finite, pcm16_closed_form.
  destruct (Z.leb_spec 0 e) as [He|He].
  - (* an integer, at least 1 in magnitude *)
    destruct (Z.leb_spec (digits m + e) 0); [lia|].
    assert (0 < 2 ^ e) by (apply Z.pow_pos_nonneg; lia).
    destruct s.
    + apply exact_below. unfold Qle. cbn [Qnum Qden inject_Z]. nia.
    + apply exact_above. unfold Qle. cbn [Qnum Qden inject_Z]. nia.
  - pose proof (Zpos_pow2 (- e) ltac:(lia)) as HD.
    assert (0 < 2 ^ (- e)) by (apply Z.pow_pos_nonneg; lia).
    pose proof (digits_le_pow2 m (- e) ltac:(lia)) as Hlt.
    destruct (Z.leb_spec (digits m + e) 0) as [Hin|Hout].
    + (* below 1 in magnitude *)
      assert (Zpos m < 2 ^ (- e)) as Hm by (apply Hlt; lia).
      unfold float_to_pcm16_exact. rewrite clamp_inside.
      * destruct s.
        -- destruct (Qlt_le_dec _ 0) as [_|C].
           ++ unfold Qtruncate. cbn [Qnum Qden Qmult]. rewrite Pos.mul_1_r, HD.
              change (Z.neg m * 32768) with (- (Zpos m * 32768)).
              rewrite Z.quot_opp_l, Z.quot_div_nonneg by lia. reflexivity.
           ++ exfalso. unfold Qle in C. cbn [Qnum Qden] in C. lia.
        -- destruct (Qlt_le_dec _ 0) as [C|_].
           ++ exfalso. unfold Qlt in C. cbn [Qnum Qden] in C. lia.
           ++ unfold Qtruncate. cbn [Qnum Qden Qmult]. rewrite Pos.mul_1_r, HD.
              rewrite Z.quot_div_nonneg by lia. reflexivity.
      * unfold Qlt. cbn [Qnum Qden]. rewrite HD. destruct s; lia.
      * unfold Qlt. cbn [Qnum Qden]. rewrite HD. destruct s; lia.
    + assert (2 ^ (- e) <= Zpos m) as Hm by (destruct (Z.lt_ge_cases (Zpos m) (2 ^ (- e))); [|lia]; apply Hlt in H0; lia).
      destruct s.
      * apply exact_below. unfold Qle. cbn [Qnum Qden]. rewrite HD. lia.
      * apply exact_above. unfold Qle. cbn [Qnum Qden]. rewrite HD. lia.
Qed.

Lemma truncate_scale_special (x : spec_float) (H : valid_binary prec32 emax32 x = true) :
  match x with
  | S754_zero _ | S754_nan => truncate (scale_sample (clamp_sample (mkFloat32 x H))) = 0
  | S754_infinity s =>
      truncate (scale_sample (clamp_sample (mkFloat32 x H))) = if s then -32768 else 32767
  | S754_finite _ _ _ => True
  end.
Proof. destruct x as [[]|[]| |s m e]; try exact I; vm_compute; reflexivity. Qed.

Lemma truncate_scale_range (f : float32) :
  -32768 <= truncate (scale_sample (clamp_sample f)) <= 32767.
Proof.
  destruct f as [x H]. pose proof (truncate_scale_special x H) as Hs.
  destruct x as [s|s| |s m e]; try (rewrite Hs; try destruct s; lia).
  rewrite truncate_scale_finite. apply pcm16_closed_form_range.
Qed.

Lemma float_to_pcm16_truncate (f : float32) :
  float_to_pcm16 f = truncate (scale_sample (clamp_sample f)).
Proof.
  unfold float_to_pcm16, Int16_of_number. apply ToInt16_small, truncate_scale_range.
Qed.

Lemma float_to_pcm16_range (f : float32) : -32768 <= float_to_pcm16 f <= 32767.
Proof. rewrite float_to_pcm16_truncate. apply truncate_scale_range. Qed.

Lemma float_to_pcm16_special (x : spec_float) (H : valid_binary prec32 emax32 x = true) :
  match x with
  | S754_zero _ | S754_nan => float_to_pcm16 (mkFloat32 x H) = 0
  | S754_infinity s => float_to_pcm16 (mkFloat32 x H) = if s then -32768 else 32767
  | S754_finite _ _ _ => True
  end.
Proof.
  rewrite float_to_pcm16_truncate. apply truncate_scale_special.
Qed.

Lemma float_to_pcm16_value (f : float32) (q : Q) :
  float32_value f = Some q -> float_to_pcm16 f = float_to_pcm16_exact q.
Proof.
  destruct f as [x H]. pose proof (float_to_pcm16_special x H) as Hs.
  unfold float32_value. cbn [f32_val].
  destruct x as [s|s| |s m e]; try discriminate; intros [= <-].
  - rewrite Hs. reflexivity.
  - rewrite float_to_pcm16_finite, exact_finite. reflexivity.
Qed.

(** ** From 16-bit samples to floats and back *)

(** *** From int16 to float, exactly *)

(** An integer of at most 16 bits as a number. *)
Lemma binary_round64_int (s : bool) (p : positive) :
  digits p <= 16 ->
  binary_round prec64 emax64 s p 0 = S754_finite s (widen p) (digits p - 53).
Proof.
  intros Hp. pose proof (digits_pos p).
  unfold binary_round, shl_align. fold (digits p).
  assert (fexp prec64 emax64 (digits p + 0) = digits p - 53) as ->
    by (unfold fexp, emin, prec64, emax64; lia).
  replace (digits p - 53 - 0) with (Zneg (Z.to_pos (53 - digits p)))
    by (rewrite <- Pos2Z.opp_pos, Z2Pos.id; lia).
  fold (widen p). apply binary_round_aux_fits.
  - rewrite digits_widen by lia. unfold fexp, emin, prec64, emax64. lia.
  - unfold prec64, emax64. lia.
Qed.

(** The quotient by 32768 only changes the exponent. *)
Lemma SFdiv_0x8000 (s : bool) (p : positive) :
  digits p <= 16 ->
  SFdiv prec64 emax64 (S754_finite s (widen p) (digits p - 53))
    (S754_finite false 4503599627370496 (-37))
  = S754_finite s (widen p) (digits p - 68).
Proof.
  intros Hp. pose proof (digits_pos p).
  cbn [SFdiv]. rewrite xorb_false_r. unfold SFdiv_core_binary.
  change (Zdigits2 (Zpos (widen p))) with (digits (widen p)).
  rewrite digits_widen by lia.
  change (Zdigits2 4503599627370496) with 53.
  assert (fexp prec64 emax64 (53 + (digits p - 53) - (53 + -37)) = digits p - 69) as ->
    by (unfold fexp, emin, prec64, emax64; lia).
  replace (Z.min (digits p - 69) (digits p - 53 - -37)) with (digits p - 69) by lia.
  replace (digits p - 53 - -37 - (digits p - 69)) with 53 by lia.
  cbn match. rewrite Z.shiftl_mul_pow2 by lia.
  assert (Zpos (widen p) * 2 ^ 53 = (Zpos (widen p) * 2) * 4503599627370496) as E
    by (change (2 ^ 53) with (2 * 4503599627370496); ring).
  destruct (Z.div_eucl (Zpos (widen p) * 2 ^ 53) 4503599627370496) as [q r] eqn:Ediv.
  assert (Zpos (widen p) * 2 ^ 53 / 4503599627370496 = q) as Hq
    by (unfold Z.div; rewrite Ediv; reflexivity).
  assert ((Zpos (widen p) * 2 ^ 53) mod 4503599627370496 = r) as Hr
    by (unfold Z.modulo; rewrite Ediv; reflexivity).
  rewrite E, Z.div_mul in Hq by lia. rewrite E, Z.mod_mul in Hr by lia.
  subst q r.
  change (new_location 4503599627370496 0) with loc_Exact.
  change (Zpos (widen p) * 2) with (Zpos (widen p) * 2 ^ 1).
  rewrite binary_round_aux_exact.
  - f_equal. lia.
  - lia.
  - rewrite digits_widen by lia. unfold fexp, emin, prec64, emax64. lia.
  - unfold prec64, emax64. lia.
Qed.

Lemma float32_of_val (y : spec_float) :
  valid_binary prec32 emax32 y = true -> f32_val (float32_of y) = y.
Proof.
  intros H. unfold float32_of.
  generalize (eq_refl (valid_binary prec32 emax32 y)).
  generalize (valid_binary prec32 emax32 y) at 2 3.
  intros b. destruct b; intros E; [reflexivity|congruence].
Qed.

Lemma Zpos_narrow (p : positive) :
  digits p <= 16 -> Zpos (narrow p) = Zpos p * 2 ^ (24 - digits p).
Proof.
  intros H. unfold narrow.
  assert (0 < 2 ^ (24 - digits p)) by (apply Z.pow_pos_nonneg; lia).
  apply Z2Pos.id. nia.
Qed.

Lemma digits_narrow (p : positive) : digits p <= 16 -> digits (narrow p) = 24.
Proof.
  intros H. change (digits (narrow p)) with (Zdigits2 (Zpos (narrow p))).
  rewrite Zpos_narrow, Zdigits2_mul_pow2 by lia. lia.
Qed.

(** Storing the quotient into the [Float32Array] loses nothing. *)
Lemma Math_fround_quotient (s : bool) (p : positive) :
  digits p <= 16 ->
  f32_val (Math_fround (S754_finite s (widen p) (digits p - 68)))
  = S754_finite s (narrow p) (digits p - 39).
Proof.
  intros Hp. pose proof (digits_pos p).
  assert (binary_round prec32 emax32 s (widen p) (digits p - 68)
          = S754_finite s (narrow p) (digits p - 39)) as E.
  { unfold binary_round, shl_align. fold (digits (widen p)).
    rewrite digits_widen by lia.
    assert (fexp prec32 emax32 (53 + (digits p - 68)) = digits p - 39) as ->
      by (unfold fexp, emin, prec32, emax32; lia).
    replace (digits p - 39 - (digits p - 68)) with 29 by lia. cbn match.
    assert (Zpos (widen p) = Zpos (narrow p) * 2 ^ 29) as ->.
    { rewrite Zpos_widen, Zpos_narrow by lia.
      replace (53 - digits p) with ((24 - digits p) + 29) by lia.
      rewrite Z.pow_add_r by lia. ring. }
    rewrite binary_round_aux_exact.
    - f_equal. lia.
    - lia.
    - rewrite digits_narrow by lia. unfold fexp, emin, prec32, emax32. lia.
    - unfold prec32, emax32. lia. }
  unfold Math_fround. rewrite E. apply float32_of_val.
  unfold valid_binary, bounded, canonical_mantissa. fold (digits (narrow p)).
  rewrite digits_narrow by lia. unfold fexp, emin, prec32, emax32.
  apply andb_true_iff. split; [apply Z.eqb_eq|apply Z.leb_le]; lia.
Qed.

Lemma pcm16_to_float_val (s : bool) (p : positive) :
  digits p <= 16 ->
  f32_val (pcm16_to_float (if s then Zneg p else Zpos p))
  = S754_finite s (narrow p) (digits p - 39).
Proof.
  intros Hp. unfold pcm16_to_float. rewrite number_of_Z_0x8000.
  assert (number_of_Z (if s then Zneg p else Zpos p)
          = S754_finite s (widen p) (digits p - 53)) as ->.
  { destruct s; unfold number_of_Z; cbn [binary_normalize];
      apply binary_round64_int; exact Hp. }
  rewrite SFdiv_0x8000 by exact Hp. apply Math_fround_quotient. exact Hp.
Qed.

Lemma digits_int16 (p : positive) : Zpos p <= 32768 -> digits p <= 16.
Proof.
  intros H. apply (digits_le_pow2 p 16); [lia|]. change (2 ^ 16) with 65536. lia.
Qed.

(** The round trip of a sample: exact at zero and below, one less above
    zero. *)
Lemma roundtrip_sample (s : Z) :
  -32768 <= s <= 32767 ->
  float_to_pcm16 (pcm16_to_float s) = if 0 <? s then s - 1 else s.
Proof.
  intros Hs. destruct s as [|p|p].
  - vm_compute. reflexivity.
  - pose proof (digits_int16 p ltac:(lia)) as Hd.
    pose proof (pcm16_to_float_val false p Hd) as Hv. cbn match in Hv.
    destruct (pcm16_to_float (Zpos p)) as [x Hx]. cbn [f32_val] in Hv. subst x.
    rewrite float_to_pcm16_finite. unfold pcm16_closed_form.
    rewrite digits_narrow, Zpos_narrow by exact Hd.
    assert (digits p <= 15) as Hd15
      by (apply (digits_le_pow2 p 15); [lia|]; change (2 ^ 15) with 32768; lia).
    destruct (Z.leb_spec (24 + (digits p - 39)) 0); [|lia].
    pose proof (digits_pos p).
    replace (- (digits p - 39)) with (15 + (24 - digits p)) by lia.
    rewrite Z.pow_add_r by lia.
    assert (0 < 2 ^ (24 - digits p)) by (apply Z.pow_pos_nonneg; lia).
    replace (Zpos p * 2 ^ (24 - digits p) * 32767)
      with (Zpos p * 32767 * 2 ^ (24 - digits p)) by ring.
    rewrite Z.div_mul_cancel_r by lia.
    change (2 ^ 15) with 32768. change (0 <? Zpos p) with true. cbn match.
    symmetry. apply (Z.div_unique _ _ _ (32768 - Zpos p)); lia.
  - pose proof (digits_int16 p ltac:(lia)) as Hd.
    pose proof (pcm16_to_float_val true p Hd) as Hv. cbn match in Hv.
    destruct (pcm16_to_float (Zneg p)) as [x Hx]. cbn [f32_val] in Hv. subst x.
    rewrite float_to_pcm16_finite. unfold pcm16_closed_form.
    rewrite digits_narrow, Zpos_narrow by exact Hd.
    change (0 <? Zneg p) with false. cbn match.
    pose proof (digits_pos p).
    destruct (Z.leb_spec (24 + (digits p - 39)) 0) as [Hin|Hout].
    + replace (- (digits p - 39)) with (15 + (24 - digits p)) by lia.
      rewrite Z.pow_add_r by lia.
      assert (0 < 2 ^ (24 - digits p)) by (apply Z.pow_pos_nonneg; lia).
      replace (Zpos p * 2 ^ (24 - digits p) * 32768)
        with (Zpos p * 32768 * 2 ^ (24 - digits p)) by ring.
      rewrite Z.div_mul_cancel_r by lia.
      change (2 ^ 15) with 32768. rewrite Z.div_mul by lia. reflexivity.
    + assert (32768 <= Zpos p); [|lia].
      destruct (Z.lt_ge_cases (Zpos p) 32768) as [Hlt|]; [|lia].
      change 32768 with (2 ^ 15) in Hlt. apply (digits_le_pow2 p 15) in Hlt; lia.
Qed.

(** ** The mixer *)

(** *** Loops that fill an array *)

Lemma length_foldl_insert {A} (f : nat -> A) (g : nat -> nat) (ixs : list nat) :
  forall l : list A,
  length (foldl (fun acc i => <[g i := f i]> acc) l ixs) = length l.
Proof.
  induction ixs as [|i ixs IH]; intros l; cbn [foldl]; [reflexivity|].
  rewrite IH, length_insert. reflexivity.
Qed.

Lemma foldl_insert_fill {A} (f : nat -> A) (l : list A) (k n : nat) :
  (k + n <= length l)%nat ->
  foldl (fun acc i => <[i := f i]> acc) l (seq k n)
  = take k l ++ map f (seq k n) ++ drop (k + n) l.
Proof.
  induction n as [|n IH]; intros Hl.
  - cbn [seq foldl map app]. rewrite Nat.add_0_r, take_drop. reflexivity.
  - rewrite seq_S, foldl_app, map_app. cbn [foldl map]. rewrite IH by lia.
    assert (length (take k l ++ map f (seq k n)) = (k + n)%nat) as Hpre
      by (rewrite length_app, length_take, length_map, length_seq; lia).
    rewrite (app_assoc (take k l)).
    rewrite insert_app_r_alt by lia. rewrite Hpre, Nat.sub_diag.
    destruct (drop (k + n) l) as [|x rest] eqn:E.
    { apply (f_equal length) in E. rewrite length_drop in E. simpl in E. lia. }
    cbn [insert list_insert]. 
    replace (drop (k + S n) l) with rest.
    2:{ replace (k + S n)%nat with ((k + n) + 1)%nat by lia.
        rewrite <- drop_drop, E. reflexivity. }
    rewrite <- !app_assoc. reflexivity.
Qed.

Lemma foldl_insert_fill_all {A} (f : nat -> A) (l : list A) :
  foldl (fun acc i => <[i := f i]> acc) l (seq 0 (length l)) = map f (seq 0 (length l)).
Proof.
  rewrite foldl_insert_fill by (simpl; lia).
  rewrite drop_ge by (simpl; lia). rewrite app_nil_r. reflexivity.
Qed.

Lemma length_int16_buffer (a : list Z) : length (int16_buffer a) = (2 * length a)%nat.
Proof.
  unfold int16_buffer. induction a as [|x a IH]; [reflexivity|].
  cbn [flat_map]. rewrite length_app, length_le_bytes, IH. cbn [length]. lia.
Qed.

Lemma elements_new_Uint8Array (buf : ArrayBuffer) : elements (new_Uint8Array buf) = buf.
Proof.
  unfold elements, new_Uint8Array. cbn [byteLength byteOffset buffer drop].
  apply take_ge. lia.
Qed.

Lemma audioBufferToPcm_whole (b : AudioBuffer) :
  elements (audioBufferToPcm b) = buffer (audioBufferToPcm b).
Proof. apply elements_new_Uint8Array. Qed.

Lemma length_audioBufferToPcm (b : AudioBuffer) :
  length (buffer (audioBufferToPcm b))
  = (2 * (buffer_length b * numberOfChannels b))%nat.
Proof.
  unfold audioBufferToPcm. cbn [buffer new_Uint8Array].
  rewrite length_int16_buffer, length_map.
  f_equal.
  set (nc := numberOfChannels b). set (n := buffer_length b).
  rewrite <- (length_replicate (n * nc) f32_zero) at 2.
  generalize (replicate (n * nc) f32_zero) as l0.
  generalize (seq 0 nc) as cs.
  induction cs as [|c cs IH]; intros l; cbn [foldl]; [reflexivity|].
  rewrite IH.
  apply (length_foldl_insert (fun i => float32_element (getChannelData b c) i)
           (fun i => (i * nc + c)%nat)).
Qed.

Lemma map_element_seq {A} (f : Z -> A) (a : list Z) :
  map (fun i => f (element a i)) (seq 0 (length a)) = map f a.
Proof.
  unfold element. induction a as [|x a IH]; [reflexivity|].
  cbn [length seq map nth]. f_equal.
  rewrite <- seq_shift, map_map. exact IH.
Qed.

(** *** The mixer, step by step *)

Lemma mixAudio_odd (P : Platform) (speech : Uint8Array) (url : string) (vol : number) :
  Nat.even (length (buffer speech)) = false ->
  mixAudio P speech url vol = Throw RangeError.
Proof. intros H. unfold mixAudio, new_Int16Array. rewrite H. reflexivity. Qed.

Lemma mixAudio_empty (P : Platform) (speech : Uint8Array) (url : string) (vol : number) :
  buffer speech = [] -> mixAudio P speech url vol = Throw NotSupportedError.
Proof. intros H. unfold mixAudio. rewrite H. reflexivity. Qed.

(** After the speech buffer is built the mixer is the retrieval of the
    music, its decoding, the rendering and the two conversions. *)
Lemma mixAudio_steps (P : Platform) (speech : Uint8Array) (url : string) (vol : number) :
  Nat.even (length (buffer speech)) = true -> buffer speech <> [] ->
  mixAudio P speech url vol =
  let samples := int16_elements (buffer speech) in
  let* response := fetch P url in
  let* _ :=
    if negb (ok response)
    then Throw (Error ("Failed to fetch music file: " ++ statusText response))
    else Ok tt in
  let* musicArrayBuffer := arrayBuffer response in
  let* music := decodeAudioData P musicArrayBuffer in
  let* _ := setValueAtTime vol in
  pcmToWav (audioBufferToPcm (mix_render P samples music vol))
    (number_of_Z 24000) (number_of_Z 2).
Proof.
  intros Heven Hne. unfold mixAudio, new_Int16Array. rewrite Heven. cbn [bind].
  generalize (buffer speech) Heven Hne. clear speech Heven Hne. intros speech Heven Hne.
  apply Nat.even_spec in Heven as [n Hn].
  pose proof (int16_elements_length n speech Hn) as Hlen.
  assert (n <> 0%nat) as Hn0 by (destruct speech; [congruence|simpl in Hn; lia]).
  unfold createBuffer. rewrite Hlen.
  destruct (Nat.eqb_spec n 0) as [|_]; [contradiction|].
  cbn [orb Nat.eqb Z.leb Z.compare bind].
  cbn [getChannelData buffer_channels buffer_length nth replicate].
  assert (setChannelData (mkAudioBuffer 24000 n [replicate n f32_zero]) 0
            (foldl (fun speechChannelData i =>
                      <[i := pcm16_to_float (element (int16_elements speech) i)]>
                        speechChannelData)
               (replicate n f32_zero) (seq 0 n))
          = speech_buffer (int16_elements speech)) as ->.
  { unfold setChannelData, speech_buffer. cbn [buffer_sampleRate buffer_length buffer_channels].
    rewrite Hlen. f_equal. cbn [insert list_insert]. f_equal.
    rewrite <- (length_replicate n f32_zero) at 2.
    rewrite (foldl_insert_fill_all
               (fun i => pcm16_to_float (element (int16_elements speech) i))).
    rewrite length_replicate, <- Hlen. apply map_element_seq. }
  unfold new_OfflineAudioContext.
  change (buffer_length (speech_buffer (int16_elements speech)))
    with (length (int16_elements speech)).
  rewrite Hlen.
  destruct (Nat.eqb_spec n 0) as [|_]; [contradiction|].
  cbn [orb Nat.eqb Z.leb Z.compare bind].
  destruct (fetch P url) as [response|e]; cbn [bind]; [|reflexivity].
  destruct (negb (ok response)); cbn [bind]; [reflexivity|].
  destruct (arrayBuffer response) as [bytes|e]; cbn [bind]; [|reflexivity].
  destruct (decodeAudioData P bytes) as [music|e]; cbn [bind]; [|reflexivity].
  unfold setValueAtTime. destruct (is_float vol); cbn [bind]; [|reflexivity].
  unfold mix_render. rewrite Hlen. reflexivity.
Qed.

Lemma nth_map_seq {A} (f : nat -> A) (d : A) (n i : nat) :
  (i < n)%nat -> nth i (map f (seq 0 n)) d = f i.
Proof.
  intros Hi. rewrite (nth_indep _ d (f 0%nat)) by (rewrite length_map, length_seq; lia).
  rewrite map_nth, seq_nth by lia. reflexivity.
Qed.

(** *** Interleaving *)

Section Interleave.
Context {A : Type}.
Variables (F : nat -> nat -> A) (nc n : nat).
Local Open Scope nat_scope.

Lemma length_interleave_channel (l : list A) (c : nat) :
  length (interleave_channel F nc n l c) = length l.
Proof. apply (length_foldl_insert (F c) (fun i => i * nc + c)). Qed.

Lemma lookup_interleave_channel (l : list A) (c k : nat) :
  c < nc -> length l = n * nc ->
  interleave_channel F nc n l c !! k
  = if decide (k mod nc = c /\ k < length l) then Some (F c (k / nc)) else l !! k.
Proof.
  intros Hc Hl. unfold interleave_channel.
  assert (forall m, m <= n ->
    foldl (fun l i => <[i * nc + c := F c i]> l) l (seq 0 m) !! k
    = if decide (k mod nc = c /\ k / nc < m) then Some (F c (k / nc)) else l !! k)
    as Hm.
  { induction m as [|m IH]; intros Hle.
    - cbn [seq foldl]. case_decide; [lia|reflexivity].
    - rewrite seq_S, foldl_app. cbn [foldl]. rewrite list_lookup_insert, IH by lia.
      rewrite (length_foldl_insert (F c) (fun i => i * nc + c)).
      assert (m * nc + c < length l) by nia.
      pose proof (Nat.div_mod_eq k nc).
      assert (k mod nc < nc) by (apply Nat.mod_upper_bound; lia).
      assert ((m * nc + c) mod nc = c)
        by (rewrite Nat.add_comm, Nat.Div0.mod_add; apply Nat.mod_small; lia).
      assert ((m * nc + c) / nc = m) as H3
        by (rewrite Nat.add_comm, Nat.div_add by lia; rewrite Nat.div_small; lia).
      destruct (decide (k = m * nc + c)) as [->|Hk].
      * rewrite decide_True by lia. rewrite decide_True by lia.
        rewrite H3. reflexivity.
      * rewrite decide_False by lia.
        destruct (decide (k mod nc = c /\ k / nc < m)) as [[? ?]|Hn].
        -- rewrite decide_True by lia. reflexivity.
        -- rewrite decide_False; [reflexivity|].
           intros [? ?]. apply Hn. split; [assumption|].
           assert (k / nc <> m) by nia. lia. }
  rewrite Hm by lia.
  pose proof (Nat.div_mod_eq k nc).
  assert (k mod nc < nc) by (apply Nat.mod_upper_bound; lia).
  apply decide_ext. split; intros [? ?]; (split; [assumption|]).
  - nia.
  - apply Nat.Div0.div_lt_upper_bound. lia.
Qed.

Lemma interleave_channels (l : list A) : forall m : nat,
  m <= nc -> length l = n * nc ->
  length (foldl (interleave_channel F nc n) l (seq 0 m)) = length l /\
  forall k : nat,
    foldl (interleave_channel F nc n) l (seq 0 m) !! k
    = if decide (k mod nc < m /\ k < length l)
      then Some (F (k mod nc) (k / nc)) else l !! k.
Proof.
  induction m as [|m IH]; intros Hm Hl.
  - split; [reflexivity|]. intros k. cbn [seq foldl].
    rewrite decide_False by lia. reflexivity.
  - destruct IH as [IHl IHk]; [lia|exact Hl|].
    rewrite seq_S, foldl_app. cbn [foldl Nat.add].
    split; [rewrite length_interleave_channel; exact IHl|].
    intros k. rewrite lookup_interleave_channel by lia.
    rewrite IHl, IHk.
    destruct (decide (k mod nc = m /\ k < length l)) as [[<- ?]|Hn].
    + rewrite decide_True by lia. reflexivity.
    + apply decide_ext. split; intros [? ?]; (split; [|assumption]); [lia|].
      assert (k mod nc <> m) by tauto. lia.
Qed.

Lemma interleave_all (l : list A) :
  length l = n * nc ->
  foldl (interleave_channel F nc n) l (seq 0 nc)
  = map (fun k => F (k mod nc) (k / nc)) (seq 0 (n * nc)).
Proof.
  intros Hl. destruct (interleave_channels l nc (Nat.le_refl nc) Hl) as [Hlen Hk].
  apply list_eq. intros k. rewrite Hk, list_lookup_fmap.
  destruct (Nat.lt_ge_cases k (n * nc)) as [Hlt|Hge].
  - rewrite lookup_seq_lt by lia. cbn [fmap option_fmap option_map Nat.add].
    rewrite decide_True; [reflexivity|].
    split; [apply Nat.mod_upper_bound|]; lia.
  - rewrite lookup_seq_ge by lia. rewrite decide_False by lia.
    cbn [fmap option_fmap option_map]. apply lookup_ge_None. lia.
Qed.
End Interleave.

Lemma audioBufferToPcm_interleaved (b : AudioBuffer) :
  buffer (audioBufferToPcm b)
  = int16_buffer (map float_to_pcm16 (interleaved_samples b)).
Proof.
  unfold audioBufferToPcm, interleaved_samples. cbn [buffer new_Uint8Array]. do 2 f_equal.
  apply (interleave_all (fun c i => float32_element (getChannelData b c) i)).
  apply length_replicate.
Qed.

(** Samples of 16 bits come back from the bytes they were stored as. *)
Lemma int16_elements_buffer (a : list Z) :
  Forall (fun v => -32768 <= v <= 32767) a -> int16_elements (int16_buffer a) = a.
Proof.
  induction 1 as [|v a Hv _ IH]; [reflexivity|].
  unfold int16_buffer. cbn [flat_map].
  pose proof (le_value_u16 v) as E.
  destruct (le_bytes 2 (ToUint16 v)) as [|b0 [|b1 [|b2 bs]]] eqn:Eb;
    try (apply (f_equal length) in Eb; rewrite length_le_bytes in Eb; discriminate).
  cbn [app int16_elements]. rewrite E. fold (int16_buffer a). rewrite IH. f_equal.
  unfold ToInt16, ToUint16. rewrite Zplus_mod_idemp_l.
  rewrite Z.mod_small by lia. lia.
Qed.

Lemma interleaved_samples_nth (b : AudioBuffer) (c i : nat) :
  (c < numberOfChannels b)%nat -> (i < buffer_length b)%nat ->
  nth (i * numberOfChannels b + c) (interleaved_samples b) f32_nan
  = float32_element (getChannelData b c) i.
Proof.
  intros Hc Hi. unfold interleaved_samples.
  rewrite nth_map_seq by nia.
  replace ((i * numberOfChannels b + c) mod numberOfChannels b)%nat with c
    by (rewrite Nat.add_comm, Nat.Div0.mod_add; symmetry; apply Nat.mod_small; lia).
  replace ((i * numberOfChannels b + c) / numberOfChannels b)%nat with i
    by (rewrite Nat.add_comm, Nat.div_add by lia; rewrite Nat.div_small; lia).
  reflexivity.
Qed.

Lemma length_interleaved_samples (b : AudioBuffer) :
  length (interleaved_samples b) = (buffer_length b * numberOfChannels b)%nat.
Proof. unfold interleaved_samples. rewrite length_map, length_seq. reflexivity. Qed.

Lemma audioBufferToPcm_elements (b : AudioBuffer) :
  int16_elements (buffer (audioBufferToPcm b))
  = map float_to_pcm16 (interleaved_samples b).
Proof.
  rewrite audioBufferToPcm_interleaved. apply int16_elements_buffer.
  apply List.Forall_forall. intros v Hv. apply in_map_iff in Hv as (f & <- & _).
  apply float_to_pcm16_range.
Qed.

Lemma audioBufferToPcm_nth (b : AudioBuffer) (c i : nat) :
  (c < numberOfChannels b)%nat -> (i < buffer_length b)%nat ->
  nth (i * numberOfChannels b + c) (int16_elements (buffer (audioBufferToPcm b))) 0
  = float_to_pcm16 (float32_element (getChannelData b c) i).
Proof.
  intros Hc Hi. rewrite audioBufferToPcm_elements.
  rewrite (nth_indep _ 0 (float_to_pcm16 f32_nan))
    by (rewrite length_map, length_interleaved_samples; nia).
  rewrite map_nth, interleaved_samples_nth by assumption. reflexivity.
Qed.

(** *** The rendered mix *)

Section Render.
Variables (P : Platform) (samples : list Z) (music : AudioBuffer) (vol : number).

Local Abbreviation rendered := (mix_render P samples music vol).
Local Abbreviation played := (playback P 24000 music).
Local Abbreviation gain := (Math_fround vol).

Lemma rendered_shape :
  buffer_sampleRate rendered = 24000 /\ buffer_length rendered = length samples /\
  numberOfChannels rendered = 2%nat /\
  Forall (fun channelData => length channelData = length samples)
    (buffer_channels rendered).
Proof.
  repeat split. cbn. repeat constructor; rewrite length_map, length_seq; reflexivity.
Qed.

Lemma speech_frame (i : nat) :
  (i < length samples)%nat ->
  node_frame P 24000 (BufferSourceNode (speech_buffer samples) false) i
  = [pcm16_to_float (nth i samples 0)].
Proof.
  intros Hi. cbn. f_equal.
  rewrite (nth_indep _ f32_zero (pcm16_to_float 0)) by (rewrite length_map; lia).
  apply map_nth.
Qed.

Lemma gain_frame (i : nat) :
  node_frame P 24000 (GainNode gain (BufferSourceNode music true)) i = music_frame P music vol i.
Proof. unfold music_frame. cbn [node_frame]. rewrite map_map. reflexivity. Qed.

(** A sample of the rendered mix. *)
Lemma rendered_sample (c i : nat) :
  (c < 2)%nat -> (i < length samples)%nat ->
  nth i (getChannelData rendered c) f32_zero
  = nth c (zip_with (fadd P)
             [pcm16_to_float (nth i samples 0); pcm16_to_float (nth i samples 0)]
             (mix_channels P 2 (music_frame P music vol i))) f32_zero.
Proof.
  intros Hc Hi. unfold mix_render, startRendering, getChannelData.
  cbn [buffer_channels ctx_channels ctx_length ctx_sampleRate].
  assert (forall d, nth c (map (fun channel => map (fun i =>
            nth channel (destination_frame P (mkOfflineAudioContext 2 (length samples) 24000)
               [BufferSourceNode (speech_buffer samples) false;
                GainNode (Math_fround vol) (BufferSourceNode music true)] i) f32_zero)
            (seq 0 (length samples))) (seq 0 2)) d
          = map (fun i => nth c (destination_frame P (mkOfflineAudioContext 2 (length samples) 24000)
               [BufferSourceNode (speech_buffer samples) false;
                GainNode (Math_fround vol) (BufferSourceNode music true)] i) f32_zero)
            (seq 0 (length samples))) as ->.
  { intros d. destruct c as [|[|c]]; [reflexivity|reflexivity|lia]. }
  rewrite nth_map_seq by exact Hi.
  unfold destination_frame. cbn [map ctx_channels ctx_sampleRate sum_frames foldl].
  rewrite speech_frame by exact Hi. rewrite gain_frame.
  reflexivity.
Qed.

(** Mono music feeds both output channels. *)
Lemma rendered_sample_mono (m : list float32) (c i : nat) :
  buffer_channels played = [m] -> (c < 2)%nat -> (i < length samples)%nat ->
  nth i (getChannelData rendered c) f32_zero
  = fadd P (pcm16_to_float (nth i samples 0))
      (fmul P gain (nth (i mod buffer_length played)%nat m f32_zero)).
Proof.
  intros Hm Hc Hi. rewrite rendered_sample by assumption.
  unfold music_frame. rewrite Hm. destruct c as [|[|c]]; [reflexivity|reflexivity|lia].
Qed.

(** Stereo music feeds the output channel for channel. *)
Lemma rendered_sample_stereo (l r : list float32) (c i : nat) :
  buffer_channels played = [l; r] -> (c < 2)%nat -> (i < length samples)%nat ->
  nth i (getChannelData rendered c) f32_zero
  = fadd P (pcm16_to_float (nth i samples 0))
      (fmul P gain (nth (i mod buffer_length played)%nat (nth c [l; r] []) f32_zero)).
Proof.
  intros Hm Hc Hi. rewrite rendered_sample by assumption.
  unfold music_frame. rewrite Hm. destruct c as [|[|c]]; [reflexivity|reflexivity|lia].
Qed.

End Render.

(** ** The byte decoder *)

Lemma for_loop_pure {St} (g : nat -> St -> St) (n : nat) : forall (i : nat) (s : St),
  for_loop_from i n (fun i s => Ok (g i s)) s = Ok (foldl (fun s i => g i s) s (seq i n)).
Proof.
  induction n as [|n IH]; intros i s; cbn [for_loop_from seq foldl bind]; [reflexivity|].
  apply IH.
Qed.

Lemma map_charCodeAt (s : string) :
  map (fun i => ToUint8 (charCodeAt s i)) (seq 0 (String.length s)) = ascii_bytes s.
Proof.
  induction s as [|c s IH]; [reflexivity|].
  cbn [String.length seq map]. change (ascii_bytes (String c s)) with (byte_of_ascii c :: ascii_bytes s).
  f_equal.
  - change (charCodeAt (String c s) 0) with (Z.of_N (N_of_ascii c)). apply ToUint8_ascii.
  - rewrite <- seq_shift, map_map. exact IH.
Qed.

Lemma ascii_bytes_of_bytes (bs : list byte) :
  ascii_bytes (string_of_list_ascii (map ascii_of_byte bs)) = bs.
Proof.
  unfold ascii_bytes. rewrite list_ascii_of_string_of_list_ascii, map_map.
  rewrite <- (map_id bs) at 2. apply map_ext. intros b. apply byte_of_ascii_of_byte.
Qed.

(** Stores into an array that spans its buffer, at the indices of a loop
    within its bounds, are stores into the buffer. *)
Lemma foldl_set_element (f : nat -> Z) (ixs : list nat) : forall buf : list byte,
  Forall (fun i => (i < length buf)%nat) ixs ->
  foldl (fun bytes i => set_element bytes i (f i)) (new_Uint8Array buf) ixs
  = new_Uint8Array (foldl (fun buf i => <[i := ToUint8 (f i)]> buf) buf ixs).
Proof.
  induction ixs as [|i ixs IH]; intros buf H; [reflexivity|].
  apply Forall_cons in H as [Hi H]. cbn [foldl].
  assert (set_element (new_Uint8Array buf) i (f i)
          = new_Uint8Array (<[i := ToUint8 (f i)]> buf)) as ->.
  { unfold set_element, new_Uint8Array. cbn [byteLength byteOffset buffer Nat.add].
    destruct (Nat.ltb_spec i (length buf)); [|lia].
    rewrite length_insert. reflexivity. }
  apply IH. eapply Forall_impl; [exact H|]. intros j Hj. cbn beta.
  rewrite length_insert. exact Hj.
Qed.

(** The array the decoder returns spans a buffer of its own, which holds
    the bytes [atob] gives as characters. *)
Lemma decode_atob (base64 : string) :
  decode base64 =
  match base64_payload base64 with
  | Some data => Ok (new_Uint8Array (payload_bytes data))
  | None => Throw InvalidCharacterError
  end.
Proof.
  unfold decode, atob. destruct (base64_payload base64) as [data|]; [|reflexivity].
  cbn [bind]. unfold for_loop.
  rewrite (for_loop_pure (fun i bytes => set_element bytes i _)).
  f_equal. unfold new_ArrayBuffer. rewrite Nat2Z.id.
  rewrite (foldl_set_element (fun i => charCodeAt _ i)).
  2:{ apply List.Forall_forall. intros i Hi. apply in_seq in Hi.
      rewrite length_replicate. lia. }
  f_equal.
  rewrite <- (length_replicate (String.length _) x00) at 2.
  rewrite (foldl_insert_fill_all (fun i => ToUint8 (charCodeAt _ i))).
  rewrite length_replicate, map_charCodeAt. apply ascii_bytes_of_bytes.
Qed.

Lemma decode_whole (base64 : string) (bytes : Uint8Array) :
  decode base64 = Ok bytes -> elements bytes = buffer bytes.
Proof.
  rewrite decode_atob. destruct (base64_payload base64); [|discriminate].
  intros [= <-]. apply elements_new_Uint8Array.
Qed.

Lemma length_omap_sextet (data : list ascii) :
  Forall (fun c => is_base64_char c = true) data ->
  length (omap sextet data) = length data.
Proof.
  induction 1 as [|c data Hc _ IH]; [reflexivity|].
  unfold is_base64_char in Hc. cbn [omap list_omap]. 
  destruct (sextet c); [|discriminate]. cbn [length]. rewrite <- IH. reflexivity.
Qed.

(** *** Base64 as it is written *)

Lemma list_ind3 {A : Type} (P : list A -> Prop) :
  P [] -> (forall a, P [a]) -> (forall a b, P [a; b]) ->
  (forall a b c l, P l -> P (a :: b :: c :: l)) -> forall l, P l.
Proof.
  intros H0 H1 H2 H3. fix IH 1.
  intros [|a [|b [|c l]]]; [exact H0|apply H1|apply H2|apply H3; apply IH].
Qed.

(** The decoder reads the alphabet as the encoder writes it. *)
Lemma base64_char_sextet (n : Z) : sextet (base64_char n) = Some (n mod 64).
Proof.
  unfold base64_char. pose proof (Z.mod_pos_bound n 64 eq_refl) as H.
  rewrite <- (Z2Nat.id (n mod 64)) at 2 by lia.
  assert (Z.to_nat (n mod 64) < 64)%nat as Hk by lia.
  generalize dependent (Z.to_nat (n mod 64)). intros k Hk.
  do 64 (destruct k as [|k]; [reflexivity|]). lia.
Qed.

Lemma base64_char_plain (n : Z) : plain_char (base64_char n).
Proof.
  unfold base64_char. pose proof (Z.mod_pos_bound n 64 eq_refl) as H.
  assert (Z.to_nat (n mod 64) < 64)%nat as Hk by lia.
  generalize dependent (Z.to_nat (n mod 64)). intros k Hk.
  do 64 (destruct k as [|k]; [repeat split|]). lia.
Qed.

Lemma base64_digits_plain (bytes : list byte) : Forall plain_char (base64_digits bytes).
Proof.
  induction bytes as [|a|a b|a b c l IH] using list_ind3; cbn [base64_digits];
    repeat constructor; try apply base64_char_plain. exact IH.
Qed.

(** The lengths of the text, for the three lengths of a last group. *)
Lemma base64_shape (bytes : list byte) :
  (length bytes <= length (base64_digits bytes))%nat /\
  ((length (base64_digits bytes) mod 4 = 0 /\ base64_padding bytes = []) \/
   (length (base64_digits bytes) mod 4 = 2 /\ base64_padding bytes = ["="; "="]%char) \/
   (length (base64_digits bytes) mod 4 = 3 /\ base64_padding bytes = ["="]%char))%nat.
Proof.
  induction bytes as [|a|a b|a b c l [IHl IH]] using list_ind3.
  - split; [reflexivity|]. left. split; reflexivity.
  - split; [cbn; lia|]. right. left. split; reflexivity.
  - split; [cbn; lia|]. right. right. split; reflexivity.
  - cbn [base64_digits length]. split; [lia|].
    assert (forall n, S (S (S (S n))) mod 4 = n mod 4)%nat as E4.
    { intros n. replace (S (S (S (S n)))) with (n + 1 * 4)%nat by lia.
      apply Nat.Div0.mod_add. }
    assert (base64_padding (a :: b :: c :: l) = base64_padding l) as ->.
    { unfold base64_padding. cbn [length].
      replace (S (S (S (length l)))) with (length l + 1 * 3)%nat by lia.
      rewrite Nat.Div0.mod_add. reflexivity. }
    rewrite E4. exact IH.
Qed.

Lemma length_string_of_list_ascii (l : list ascii) :
  String.length (string_of_list_ascii l) = length l.
Proof. induction l as [|c l IH]; [reflexivity|cbn; rewrite IH; reflexivity]. Qed.

Lemma length_base64_encode (bytes : list byte) :
  (String.length (base64_encode bytes) mod 4 = 0)%nat.
Proof.
  unfold base64_encode. rewrite length_string_of_list_ascii, length_app.
  destruct (base64_shape bytes) as [_ [[H ->]|[[H ->]|[H ->]]]]; cbn [length].
  - rewrite Nat.add_0_r. exact H.
  - rewrite <- Nat.Div0.add_mod_idemp_l, H. reflexivity.
  - rewrite <- Nat.Div0.add_mod_idemp_l, H. reflexivity.
Qed.

(** The padding is what the decoder removes. *)
Lemma strip_equals_padding (digits pad : list ascii) :
  Forall plain_char digits ->
  pad = [] \/ pad = ["="]%char \/ pad = ["="; "="]%char ->
  strip_equals (digits ++ pad) = digits.
Proof.
  intros Hd Hp. unfold strip_equals. rewrite rev_app_distr.
  assert (forall c r, rev digits = c :: r -> is_equals c = false) as Hlast.
  { intros c r E. assert (In c digits) as Hc by (apply in_rev; rewrite E; left; reflexivity).
    rewrite List.Forall_forall in Hd. apply (Hd c Hc). }
  destruct Hp as [->|[->| ->]]; cbn [rev app].
  - rewrite app_nil_r. destruct (rev digits) as [|c1 [|c2 r]] eqn:E; [reflexivity| |];
      rewrite (Hlast _ _ eq_refl); reflexivity.
  - change (is_equals "=") with true. cbn match.
    destruct (rev digits) as [|c2 r] eqn:E.
    + apply (f_equal (@rev ascii)) in E. rewrite rev_involutive in E. subst digits. reflexivity.
    + rewrite (Hlast _ _ eq_refl). change (rev r ++ [c2]) with (rev (c2 :: r)).
      rewrite <- E. apply rev_involutive.
  - change (is_equals "=") with true. cbn match. apply rev_involutive.
Qed.

Lemma filter_whitespace_plain (l : list ascii) :
  Forall plain_char l -> filter (fun c => negb (is_ascii_whitespace c)) l = l.
Proof.
  induction 1 as [|c l (_ & _ & Hc) _ IH]; [reflexivity|].
  rewrite filter_cons_True by (rewrite Hc; exact I). rewrite IH. reflexivity.
Qed.

Lemma base64_data_encode (bytes : list byte) :
  base64_data (base64_encode bytes) = base64_digits bytes /\
  base64_data (base64_unpadded bytes) = base64_digits bytes.
Proof.
  pose proof (base64_digits_plain bytes) as Hd.
  unfold base64_data, base64_encode, base64_unpadded.
  rewrite !list_ascii_of_string_of_list_ascii.
  destruct (base64_shape bytes) as [_ Hs]. split.
  - rewrite filter_app, (filter_whitespace_plain _ Hd).
    assert (filter (fun c => negb (is_ascii_whitespace c)) (base64_padding bytes)
            = base64_padding bytes) as ->
      by (destruct Hs as [[_ ->]|[[_ ->]|[_ ->]]]; reflexivity).
    unfold strip_padding. rewrite length_app.
    assert ((length (base64_digits bytes) + length (base64_padding bytes)) mod 4 = 0)%nat
      as ->.
    { destruct Hs as [[H ->]|[[H ->]|[H ->]]]; cbn [length].
      - rewrite Nat.add_0_r. exact H.
      - rewrite <- Nat.Div0.add_mod_idemp_l, H. reflexivity.
      - rewrite <- Nat.Div0.add_mod_idemp_l, H. reflexivity. }
    cbn [Nat.eqb]. apply strip_equals_padding; [exact Hd|].
    destruct Hs as [[_ ->]|[[_ ->]|[_ ->]]]; tauto.
  - rewrite (filter_whitespace_plain _ Hd). unfold strip_padding.
    destruct (_ =? 0)%nat; [|reflexivity].
    rewrite <- (app_nil_r (base64_digits bytes)) at 1.
    apply strip_equals_padding; [exact Hd|tauto].
Qed.

Lemma ToUint8_low (x : Z) (b : byte) : ToUint8 (x * 256 + byte_val b) = b.
Proof.
  rewrite <- (ToUint8_byte_val b) at 2. unfold ToUint8.
  rewrite Z.add_comm, Z.mod_add by lia. reflexivity.
Qed.

(** The bytes of the characters of a byte sequence are the sequence. *)
Lemma sextet_bytes_digits (bytes : list byte) : forall fuel : nat,
  (length bytes <= 3 * fuel)%nat ->
  sextet_bytes fuel (omap sextet (base64_digits bytes)) = bytes.
Proof.
  induction bytes as [|a|a b|a b c l IH] using list_ind3; intros fuel Hf.
  - destruct fuel; reflexivity.
  - destruct fuel as [|fuel]; [cbn in Hf; lia|].
    cbn [base64_digits omap list_omap]. rewrite !base64_char_sextet.
    cbn [list_omap sextet_bytes]. pose proof (byte_val_range a).
    f_equal. transitivity (ToUint8 (byte_val a)); [|apply ToUint8_byte_val].
    f_equal. Z.div_mod_to_equations. lia.
  - destruct fuel as [|fuel]; [cbn in Hf; lia|].
    cbn [base64_digits omap list_omap]. rewrite !base64_char_sextet.
    cbn [list_omap sextet_bytes]. pose proof (byte_val_range a). pose proof (byte_val_range b).
    assert ((((byte_val a * 256 + byte_val b) * 4 / 4096) mod 64 * 64
             + ((byte_val a * 256 + byte_val b) * 4 / 64) mod 64) * 64
            + ((byte_val a * 256 + byte_val b) * 4) mod 64
            = (byte_val a * 256 + byte_val b) * 4) as ->
      by (Z.div_mod_to_equations; lia).
    rewrite Z.div_mul by lia.
    f_equal; [|f_equal; apply ToUint8_low].
    rewrite Z.div_add_l by lia. rewrite (Z.div_small (byte_val b)) by lia.
    rewrite Z.add_0_r. apply ToUint8_byte_val.
  - destruct fuel as [|fuel]; [cbn in Hf; lia|].
    cbn [base64_digits omap list_omap]. rewrite !base64_char_sextet.
    cbn [list_omap sextet_bytes].
    pose proof (byte_val_range a). pose proof (byte_val_range b). pose proof (byte_val_range c).
    set (n := (byte_val a * 256 + byte_val b) * 256 + byte_val c).
    assert ((((n / 262144) mod 64 * 64 + (n / 4096) mod 64) * 64 + (n / 64) mod 64) * 64
            + n mod 64 = n) as ->
      by (subst n; Z.div_mod_to_equations; lia).
    fold (omap sextet (base64_digits l)). rewrite IH by (cbn [length] in Hf; lia).
    f_equal; [|f_equal; [|f_equal]].
    + replace (n / 65536) with (byte_val a) by (subst n; Z.div_mod_to_equations; lia).
      apply ToUint8_byte_val.
    + replace (n / 256) with (byte_val a * 256 + byte_val b)
        by (subst n; Z.div_mod_to_equations; lia).
      apply ToUint8_low.
    + subst n. apply ToUint8_low.
Qed.

Lemma base64_payload_digits (s : string) (bytes : list byte) :
  base64_data s = base64_digits bytes -> base64_payload s = Some (base64_digits bytes).
Proof.
  intros E. unfold base64_payload. rewrite E.
  destruct (base64_shape bytes) as [_ Hs].
  assert ((length (base64_digits bytes) mod 4 =? 1)%nat = false) as ->
    by (apply Nat.eqb_neq; destruct Hs as [[H _]|[[H _]|[H _]]]; rewrite H; discriminate).
  assert (forallb is_base64_char (base64_digits bytes) = true) as ->; [|reflexivity].
  apply forallb_forall. intros c Hc.
  pose proof (base64_digits_plain bytes) as Hd. rewrite List.Forall_forall in Hd.
  apply (Hd c Hc).
Qed.

(** The decoder on the text of a byte sequence, with or without its
    padding. *)
Lemma decode_encode (bytes : list byte) :
  decode (base64_encode bytes) = Ok (new_Uint8Array bytes) /\
  decode (base64_unpadded bytes) = Ok (new_Uint8Array bytes).
Proof.
  destruct (base64_data_encode bytes) as [E1 E2].
  assert (payload_bytes (base64_digits bytes) = bytes) as Hp.
  { unfold payload_bytes. apply sextet_bytes_digits.
    rewrite length_omap_sextet.
    - destruct (base64_shape bytes) as [H _]. lia.
    - eapply Forall_impl; [apply base64_digits_plain|]. intros c Hc. apply Hc. }
  rewrite !decode_atob, (base64_payload_digits _ bytes E1),
    (base64_payload_digits _ bytes E2), Hp.
  split; reflexivity.
Qed.

(** The tests of the decoder, read as memberships. *)
Lemma is_base64_char_alphabet (c : ascii) :
  is_base64_char c = existsb (Ascii.eqb c) base64_alphabet.
Proof. destruct c as [[] [] [] [] [] [] [] []]; reflexivity. Qed.

Lemma is_ascii_whitespace_list (c : ascii) :
  is_ascii_whitespace c = existsb (Ascii.eqb c) ascii_whitespace.
Proof. destruct c as [[] [] [] [] [] [] [] []]; reflexivity. Qed.

Lemma existsb_eqb_false (c : ascii) (l : list ascii) :
  ~ In c l -> existsb (Ascii.eqb c) l = false.
Proof.
  intros H. apply not_true_is_false. intros E. apply H.
  apply existsb_exists in E as (x & Hx & Ex). apply Ascii.eqb_eq in Ex. subst x. exact Hx.
Qed.

Lemma strip_equals_In (c : ascii) (data : list ascii) :
  In c data -> is_equals c = false -> In c (strip_equals data).
Proof.
  intros Hc Hn. unfold strip_equals.
  assert (In c (rev data)) as Hr by (apply in_rev; rewrite rev_involutive; exact Hc).
  destruct (rev data) as [|c1 [|c2 r]] eqn:E; [exact Hc| |].
  - destruct (is_equals c1) eqn:E1; [|exact Hc]. destruct Hr as [<-|[]]. congruence.
  - destruct (is_equals c1) eqn:E1; [|exact Hc].
    destruct Hr as [<-|Hr]; [congruence|].
    destruct (is_equals c2) eqn:E2.
    + destruct Hr as [<-|Hr]; [congruence|]. apply in_rev in Hr. exact Hr.
    + apply in_rev in Hr. exact Hr.
Qed.

(** A string with a foreign character is refused. *)
Lemma decode_foreign (s : string) (c : ascii) :
  In c (list_ascii_of_string s) -> foreign_char c ->
  decode s = Throw InvalidCharacterError.
Proof.
  intros Hc (Ha & He & Hw). rewrite decode_atob.
  assert (is_base64_char c = false) as Hb
    by (rewrite is_base64_char_alphabet; apply existsb_eqb_false; exact Ha).
  assert (is_ascii_whitespace c = false) as Hs
    by (rewrite is_ascii_whitespace_list; apply existsb_eqb_false; exact Hw).
  assert (is_equals c = false) as Hq.
  { apply not_true_is_false. intros E. apply He. unfold is_equals in E.
    apply N.eqb_eq in E. rewrite <- (ascii_N_embedding c), E. reflexivity. }
  assert (In c (base64_data s)) as Hd.
  { unfold base64_data, strip_padding.
    set (data := filter _ _).
    assert (In c data) as Hdata.
    { apply list_elem_of_In. apply list_elem_of_filter. split.
      - rewrite Hs. exact I.
      - apply list_elem_of_In. exact Hc. }
    destruct (_ =? 0)%nat; [apply strip_equals_In|]; assumption. }
  unfold base64_payload. destruct (_ =? 1)%nat; [reflexivity|].
  assert (forallb is_base64_char (base64_data s) = false) as ->; [|reflexivity].
  apply not_true_is_false. intros Hall. rewrite forallb_forall in Hall.
  specialize (Hall c Hd). congruence.
Qed.

Lemma decode_throws (s : string) (e : exn) :
  decode s = Throw e -> e = InvalidCharacterError.
Proof.
  rewrite decode_atob. destruct (base64_payload s); [discriminate|]. intros [= <-].
  reflexivity.
Qed.

(** ** The pipeline *)

(** *** The two paths of the pipeline *)

Lemma assemble_direct (P : Platform) (payload bg : string) (custom : option string)
    (vol : number) :
  truthy (selectedMusicUrl bg custom) = false \/
  selectedMusicUrl bg custom = Some "none"%string ->
  assemble P payload bg custom vol
  = let* pcmData := decode payload in pcmToWav pcmData (number_of_Z 24000) (number_of_Z 1).
Proof.
  intros H. unfold assemble.
  destruct (decode payload) as [pcm|e]; cbn [bind]; [|reflexivity].
  destruct H as [H|H]; rewrite H; reflexivity.
Qed.

Lemma assemble_mix (P : Platform) (payload bg : string) (custom : option string)
    (vol : number) (url : string) :
  selectedMusicUrl bg custom = Some url -> url <> EmptyString -> url <> "none"%string ->
  assemble P payload bg custom vol
  = let* pcmData := decode payload in mixAudio P pcmData url vol.
Proof.
  intros H Hne Hnone. unfold assemble. rewrite H.
  destruct (decode payload) as [pcm|e]; cbn [bind]; [|reflexivity].
  cbn [truthy differs default]. 
  apply String.eqb_neq in Hne, Hnone. rewrite Hne, Hnone. reflexivity.
Qed.

(** *** Failure of the music retrieval *)

Lemma mixAudio_after_speech (P : Platform) (speech : Uint8Array) (url : string)
    (vol : number) (e : exn) :
  (let* response := fetch P url in
   let* _ :=
     if negb (ok response)
     then Throw (Error ("Failed to fetch music file: " ++ statusText response))
     else Ok tt in
   let* musicArrayBuffer := arrayBuffer response in
   let* music := decodeAudioData P musicArrayBuffer in
   let* _ := setValueAtTime vol in
   pcmToWav (audioBufferToPcm (mix_render P (int16_elements (buffer speech)) music vol))
     (number_of_Z 24000) (number_of_Z 2))
  = Throw e ->
  exists e', mixAudio P speech url vol = Throw e'.
Proof.
  intros H. destruct (Nat.even (length (buffer speech))) eqn:Heven.
  - destruct (buffer speech) as [|b bs] eqn:Hb.
    + exists NotSupportedError. apply mixAudio_empty. exact Hb.
    + exists e. rewrite mixAudio_steps by (rewrite Hb; try exact Heven; discriminate).
      rewrite Hb. exact H.
  - exists RangeError. apply mixAudio_odd. exact Heven.
Qed.

Lemma mixAudio_unavailable (P : Platform) (speech : Uint8Array) (url : string)
    (vol : number) :
  music_unavailable P url ->
  (exists e, mixAudio P speech url vol = Throw e) /\
  (Nat.even (length (buffer speech)) = true -> buffer speech <> [] ->
   mixAudio P speech url vol = Throw (retrieval_error P url)).
Proof.
  unfold music_unavailable, retrieval_error. intros H.
  assert ((let* response := fetch P url in
           let* _ :=
             if negb (ok response)
             then Throw (Error ("Failed to fetch music file: " ++ statusText response))
             else Ok tt in
           let* musicArrayBuffer := arrayBuffer response in
           let* music := decodeAudioData P musicArrayBuffer in
           let* _ := setValueAtTime vol in
           pcmToWav
             (audioBufferToPcm (mix_render P (int16_elements (buffer speech)) music vol))
             (number_of_Z 24000) (number_of_Z 2))
          = Throw (retrieval_error P url)) as Hsteps.
  { unfold retrieval_error. destruct (fetch P url) as [response|e]; cbn [bind]; [|reflexivity].
    destruct H as [H|[e H]].
    - rewrite H. reflexivity.
    - destruct (negb (ok response)); cbn [bind]; [reflexivity|]. rewrite H. reflexivity. }
  split.
  - eapply mixAudio_after_speech. exact Hsteps.
  - intros Heven Hne. rewrite mixAudio_steps by assumption. exact Hsteps.
Qed.

(** * The properties of the pipeline *)

(** ** The sample converter *)

(** The float a 16-bit sample becomes is exactly the sample over 32768. *)
Lemma pcm16_to_float_value (s : Z) :
  -32768 <= s <= 32767 ->
  exists q : Q, float32_value (pcm16_to_float s) = Some q /\ (q == s # 32768)%Q.
Proof.
  intros Hs. destruct s as [|p|p].
  - exists 0%Q. split; reflexivity.
  - pose proof (digits_int16 p ltac:(lia)) as Hd. pose proof (digits_pos p).
    exists (Q_of_finite false (narrow p) (digits p - 39)). split.
    + unfold float32_value. rewrite (pcm16_to_float_val false p Hd). reflexivity.
    + unfold Q_of_finite. destruct (Z.leb_spec 0 (digits p - 39)); [lia|].
      unfold Qeq. cbn [Qnum Qden]. rewrite Zpos_pow2, Zpos_narrow by lia.
      replace (- (digits p - 39)) with (15 + (24 - digits p)) by lia.
      rewrite Z.pow_add_r by lia. change (2 ^ 15) with 32768. ring.
  - pose proof (digits_int16 p ltac:(lia)) as Hd. pose proof (digits_pos p).
    exists (Q_of_finite true (narrow p) (digits p - 39)). split.
    + unfold float32_value. rewrite (pcm16_to_float_val true p Hd). reflexivity.
    + unfold Q_of_finite. destruct (Z.leb_spec 0 (digits p - 39)); [lia|].
      unfold Qeq. cbn [Qnum Qden]. rewrite Zpos_pow2 by lia.
      change (Zneg (narrow p)) with (- Zpos (narrow p)). rewrite Zpos_narrow by lia.
      replace (- (digits p - 39)) with (15 + (24 - digits p)) by lia.
      rewrite Z.pow_add_r by lia. change (2 ^ 15) with 32768.
      change (Zneg p) with (- Zpos p). ring.
Qed.

(** C1, where the claim fails: the sample 1 becomes 1/32768, which scaled by
    32767 is below 1 and truncates to 0. The round trip is therefore not the
    identity on the 16-bit range. *)
Lemma roundtrip_drift_at_1 :
  float_to_pcm16 (pcm16_to_float 1) = 0 /\
  ~ (forall s : Z, -32768 <= s <= 32767 -> float_to_pcm16 (pcm16_to_float s) = s).
Proof.
  assert (float_to_pcm16 (pcm16_to_float 1) = 0) as H
    by (rewrite roundtrip_sample by lia; reflexivity).
  split; [exact H|]. intros Hall. specialize (Hall 1 ltac:(lia)). congruence.
Qed.

(** C1, amended: converting a 16-bit sample [s] to a float by [s / 32768.0]
    and back by the float-to-PCM16 mapping yields [s] when [s <= 0] and
    [s - 1] when [s > 0]. The float is exactly [s / 32768]; in particular
    -32768 maps to -1.0 and back to -32768. *)
Theorem pcm16_roundtrip (s : Z) :
  -32768 <= s <= 32767 ->
  float_to_pcm16 (pcm16_to_float s) = (if 0 <? s then s - 1 else s) /\
  (exists q : Q, float32_value (pcm16_to_float s) = Some q /\ (q == s # 32768)%Q) /\
  f32_val (pcm16_to_float (-32768)) = f32_val (Math_fround (number_of_Z (-1))).
Proof.
  intros Hs. split; [apply roundtrip_sample; exact Hs|].
  split; [apply pcm16_to_float_value; exact Hs|].
  vm_compute. reflexivity.
Qed.

(** The most negative sample makes the round trip unchanged. *)
Lemma pcm16_roundtrip_witness :
  -32768 <= -32768 <= 32767 /\ float_to_pcm16 (pcm16_to_float (-32768)) = -32768.
Proof.
  split; [lia|]. apply (pcm16_roundtrip (-32768)). lia.
Defined.

(** C2: the float-to-PCM16 conversion of the code computes, on every sample
    that is a number, what the specification describes on its exact value:
    clamp to [-1, 1], scale by 32768 below zero and by 32767 otherwise,
    truncate toward zero. Samples at or beyond the bounds, infinities
    included, give -32768 and 32767; NaN gives 0. The stored integer is the
    truncated product itself: it never wraps, and it lies in the 16-bit
    range. *)
Theorem float_to_pcm16_refines (f : float32) :
  (forall q : Q, float32_value f = Some q ->
     float_to_pcm16 f = float_to_pcm16_exact q /\
     ((1 <= q)%Q -> float_to_pcm16 f = 32767) /\
     ((q <= -1)%Q -> float_to_pcm16 f = -32768)) /\
  (f32_val f = S754_infinity false -> float_to_pcm16 f = 32767) /\
  (f32_val f = S754_infinity true -> float_to_pcm16 f = -32768) /\
  (f32_val f = S754_nan -> float_to_pcm16 f = 0) /\
  float_to_pcm16 f = truncate (scale_sample (clamp_sample f)) /\
  -32768 <= float_to_pcm16 f <= 32767.
Proof.
  pose proof (float_to_pcm16_range f) as Hr.
  split; [|split; [|split; [|split; [|split]]]].
  - intros q Hq. rewrite (float_to_pcm16_value f q Hq).
    split; [reflexivity|]. split; [apply exact_above|apply exact_below].
  - destruct f as [x H]. cbn [f32_val]. intros ->. apply (float_to_pcm16_special _ H).
  - destruct f as [x H]. cbn [f32_val]. intros ->. apply (float_to_pcm16_special _ H).
  - destruct f as [x H]. cbn [f32_val]. intros ->. apply (float_to_pcm16_special _ H).
  - apply float_to_pcm16_truncate.
  - exact Hr.
Qed.

(** The conversion at work: 0.5 and -0.5 (scaled by 32767 and by 32768),
    1.5 and -1.5 (clamped), and the smallest positive binary32 value. *)
Lemma float_to_pcm16_examples :
  float_to_pcm16 (Math_fround one_half) = 16383 /\
  float_to_pcm16 (pcm16_to_float (-16384)) = -16384 /\
  float_to_pcm16 (ieee_fadd (Math_fround (number_of_Z 1)) (Math_fround one_half)) = 32767 /\
  float_to_pcm16 (ieee_fadd (Math_fround (number_of_Z (-1))) (pcm16_to_float (-16384)))
  = -32768 /\
  float_to_pcm16 (float32_of (S754_finite false 1 (-149))) = 0.
Proof. repeat split; vm_compute; reflexivity. Qed.

(** ** The WAV encoder *)

(** C3, where the claim fails, in three ways. With 32768 channels (at
    24000 Hz, on an empty buffer) the NumChannels field is 32768 and the
    BlockAlign field, 16 bits wide, is 0 and not NumChannels * 2. With a
    sample rate of 2^52 + 1 and 3 channels the byte rate, a product of
    numbers, is rounded before it is stored: the field is 8 where
    SampleRate * NumChannels * 2 is 6. On an array of one sample that
    spans the second half of a buffer of two, the blob holds the two
    samples of the buffer, 48 bytes and not 46. *)
Lemma pcmToWav_fields_not_as_claimed :
  (exists blob : Blob,
     pcmToWav (new_Uint8Array []) (number_of_Z 24000) (number_of_Z 32768) = Ok blob /\
     NumChannels blob = 32768 /\ BlockAlign blob = 0 /\
     BlockAlign blob <> NumChannels blob * 2) /\
  (exists blob : Blob,
     pcmToWav (new_Uint8Array []) (number_of_Z 4503599627370497) (number_of_Z 3)
     = Ok blob /\
     SampleRate blob = 1 /\ NumChannels blob = 3 /\ ByteRate blob = 8 /\
     ByteRate blob <> SampleRate blob * NumChannels blob * 2) /\
  (exists blob : Blob,
     pcmToWav (mkUint8Array [x01; x00; xff; x7f] 2 2) (number_of_Z 24000) (number_of_Z 1)
     = Ok blob /\
     elements (mkUint8Array [x01; x00; xff; x7f] 2 2) = [xff; x7f] /\
     length (blob_bytes blob) = 48%nat /\ wav_data blob = [x01; x00; xff; x7f]).
Proof.
  split; [|split].
  - eexists. split; [apply (pcmToWav_even _ 0); reflexivity|].
    split; [vm_compute; reflexivity|].
    split; [vm_compute; reflexivity|vm_compute; discriminate].
  - eexists. split; [apply (pcmToWav_even _ 0); reflexivity|].
    split; [vm_compute; reflexivity|]. split; [vm_compute; reflexivity|].
    split; [vm_compute; reflexivity|vm_compute; discriminate].
  - eexists. split; [apply (pcmToWav_even _ 2); reflexivity|].
    repeat split.
Qed.

(** C3, amended: for every array over a buffer holding N 16-bit samples,
    and every sample rate and channel count, the encoder returns a blob of
    44 + N * 2 bytes with the four tags at offsets 0, 8, 12 and 36,
    BitsPerSample 16, and the bytes of the buffer (the samples
    little-endian, two bytes each) from byte 44 on; they are the bytes of
    the array when it spans its buffer. Each numeric field holds the
    integer part of its value reduced to the width of the field: ChunkSize
    is 36 + N * 2 and Subchunk2Size N * 2 modulo 2^32, the block alignment
    is the product of numbers numChannels * 2 and the byte rate the product
    sampleRate * blockAlign. For an integer channel count and an integer
    sample rate the fields hold the values themselves when these fit:
    36 + N * 2 < 2^32; 0 <= channel_count < 32768; 0 <= sample_rate < 2^32;
    ByteRate is sample_rate * channel_count * 2 when both are at least 1
    and the product is below 2^32. *)
Theorem pcmToWav_layout (pcmData : Uint8Array) (n : nat) (sampleRate numChannels : number) :
  length (buffer pcmData) = (2 * n)%nat ->
  exists blob : Blob,
    pcmToWav pcmData sampleRate numChannels = Ok blob /\
    length (blob_bytes blob) = (44 + 2 * n)%nat /\
    tag blob 0 = ascii_bytes "RIFF" /\ tag blob 8 = ascii_bytes "WAVE" /\
    tag blob 12 = ascii_bytes "fmt " /\ tag blob 36 = ascii_bytes "data" /\
    ChunkSize blob = ToUint32 (36 + Z.of_nat n * 2) /\
    Subchunk2Size blob = ToUint32 (Z.of_nat n * 2) /\
    NumChannels blob = ToUint16 (truncate numChannels) /\
    SampleRate blob = ToUint32 (truncate sampleRate) /\
    ByteRate blob
    = ToUint32 (truncate (times sampleRate (times numChannels (number_of_Z 2)))) /\
    BlockAlign blob = ToUint16 (truncate (times numChannels (number_of_Z 2))) /\
    BitsPerSample blob = 16 /\
    wav_data blob = buffer pcmData /\
    wav_data blob = int16_buffer (int16_elements (buffer pcmData)) /\
    (elements pcmData = buffer pcmData -> wav_data blob = elements pcmData) /\
    (36 + Z.of_nat n * 2 < 4294967296 ->
     ChunkSize blob = 36 + Z.of_nat n * 2 /\ Subchunk2Size blob = Z.of_nat n * 2) /\
    (forall channel_count sample_rate : Z,
       numChannels = number_of_Z channel_count -> sampleRate = number_of_Z sample_rate ->
       (0 <= channel_count < 32768 ->
        NumChannels blob = channel_count /\ BlockAlign blob = channel_count * 2) /\
       (0 <= sample_rate < 4294967296 -> SampleRate blob = sample_rate) /\
       (1 <= channel_count -> 1 <= sample_rate ->
        sample_rate * (channel_count * 2) < 4294967296 ->
        ByteRate blob = sample_rate * (channel_count * 2))).
Proof.
  intros Hlen. eexists. split; [apply (pcmToWav_even pcmData n); exact Hlen|].
  rewrite header_ChunkSize, header_Subchunk2Size, header_NumChannels, header_SampleRate,
    header_ByteRate, header_BlockAlign, header_BitsPerSample, header_data.
  repeat match goal with |- _ /\ _ => split end; try reflexivity.
  - cbn [blob_bytes]. rewrite length_app, header_length. lia.
  - symmetry. apply (int16_buffer_elements n). exact Hlen.
  - intros E. symmetry. exact E.
  - intros H. unfold ToUint32. rewrite !Z.mod_small by lia. split; reflexivity.
  - intros c r -> ->. split; [|split].
    + intros H. rewrite times_integers by lia.
      rewrite !truncate_number_of_Z by lia.
      unfold ToUint16. rewrite !Z.mod_small by lia. split; reflexivity.
    + intros H. rewrite truncate_number_of_Z by lia.
      unfold ToUint32. rewrite Z.mod_small by lia. reflexivity.
    + intros Hc Hr H.
      rewrite (times_integers c 2), times_integers by nia.
      rewrite truncate_number_of_Z by nia.
      unfold ToUint32. rewrite Z.mod_small by nia. reflexivity.
Qed.

(** Two samples, mono, at 24000 Hz: 48 bytes, ChunkSize 40, ByteRate 48000. *)
Lemma pcmToWav_layout_witness :
  length (buffer (new_Uint8Array [x01; x00; xff; x7f])) = (2 * 2)%nat /\
  exists blob : Blob,
    pcmToWav (new_Uint8Array [x01; x00; xff; x7f]) (number_of_Z 24000) (number_of_Z 1)
    = Ok blob /\
    length (blob_bytes blob) = 48%nat /\ ChunkSize blob = 40 /\ ByteRate blob = 48000.
Proof.
  split; [reflexivity|].
  destruct (pcmToWav_layout (new_Uint8Array [x01; x00; xff; x7f]) 2
              (number_of_Z 24000) (number_of_Z 1) eq_refl)
    as (blob & Hb & Hl & _ & _ & _ & _ & Hc & _ & _ & _ & _ & _ & _ & _ & _ & _ & _ & Hi).
  exists blob. split; [exact Hb|]. split; [exact Hl|]. split; [exact Hc|].
  destruct (Hi 1 24000 eq_refl eq_refl) as (_ & _ & Hr). apply Hr; lia.
Defined.

(** C9, where the claim fails: with a channel count of 0 and a sample rate
    of 0 the encoder returns a blob. *)
Lemma pcmToWav_accepts_zero_channels :
  exists blob : Blob,
    pcmToWav (new_Uint8Array []) (number_of_Z 0) (number_of_Z 0) = Ok blob.
Proof. eexists. apply (pcmToWav_even _ 0). reflexivity. Qed.

(** C9, amended: the encoder validates neither the channel count nor the
    sample rate. Whatever numbers they are, it returns a blob, the header
    followed by the bytes of the buffer under the array, whenever that
    buffer has an even length; its only failure is the RangeError of the
    16-bit view on a buffer of odd length. *)
Theorem pcmToWav_no_validation (pcmData : Uint8Array) (sampleRate numChannels : number) :
  pcmToWav pcmData sampleRate numChannels
  = if Nat.even (length (buffer pcmData))
    then Ok (mkBlob (wav_header sampleRate numChannels
                       (Z.of_nat (length (buffer pcmData)))
                       ++ buffer pcmData) "audio/wav")
    else Throw RangeError.
Proof.
  destruct (Nat.even (length (buffer pcmData))) eqn:E.
  - rewrite pcmToWav_total, E. reflexivity.
  - apply pcmToWav_odd. exact E.
Qed.

(** ** The byte decoder *)

(** C4, where the claim fails: the decoder accepts strings that are not
    valid base64. The text of the byte 0 is [AA==]; without its padding,
    with whitespace in it, and with another last character, whose low bits
    are dropped, it is no text of any byte sequence, and the decoder
    returns the byte 0 all the same. *)
Lemma decode_accepts_invalid :
  base64_encode [x00] = "AA=="%string /\
  decode "AA" = Ok (new_Uint8Array [x00]) /\ ~ valid_base64 "AA" /\
  decode "AA ==" = Ok (new_Uint8Array [x00]) /\ ~ valid_base64 "AA ==" /\
  decode "AB==" = Ok (new_Uint8Array [x00]) /\ ~ valid_base64 "AB==".
Proof.
  assert (forall s : string, (String.length s mod 4 <> 0)%nat -> ~ valid_base64 s) as Hlen.
  { intros s Hs [bytes ->]. apply Hs. apply length_base64_encode. }
  repeat split; try (vm_compute; reflexivity); try (apply Hlen; vm_compute; discriminate).
  intros [bytes E].
  assert (decode "AB==" = Ok (new_Uint8Array bytes)) as Hd
    by (rewrite E; apply decode_encode).
  assert (decode "AB==" = Ok (new_Uint8Array [x00])) as Hd' by (vm_compute; reflexivity).
  rewrite Hd in Hd'. injection Hd' as Hb _. subst bytes. discriminate E.
Qed.

(** C4, amended: on the base64 text of a byte sequence (RFC 4648), with its
    padding or without it, the decoder returns an array that holds exactly
    these bytes; on a string with a character that is neither of the
    alphabet, nor the padding character, nor whitespace, it throws the
    decoder's InvalidCharacterError, which is the only exception it
    throws. Some strings that are not valid base64 are accepted, as the
    counterexample shows. *)
Theorem decode_base64 (bytes : list byte) (s : string) :
  (exists array : Uint8Array,
     decode (base64_encode bytes) = Ok array /\
     elements array = bytes /\ buffer array = bytes) /\
  decode (base64_unpadded bytes) = decode (base64_encode bytes) /\
  (forall c : ascii,
     In c (list_ascii_of_string s) -> foreign_char c ->
     decode s = Throw InvalidCharacterError) /\
  (forall e : exn, decode s = Throw e -> e = InvalidCharacterError).
Proof.
  destruct (decode_encode bytes) as [E1 E2].
  split; [|split; [|split]].
  - exists (new_Uint8Array bytes). split; [exact E1|].
    split; [apply elements_new_Uint8Array|reflexivity].
  - rewrite E1, E2. reflexivity.
  - intros c Hc Hf. apply (decode_foreign s c); assumption.
  - apply decode_throws.
Qed.

(** The decoder at work: the example speech from its payload, with and
    without padding and with whitespace; a character outside the alphabet,
    a length of 1 modulo 4, and padding inside the text. *)
Lemma decode_examples :
  base64_encode example_speech = "AEAAwP9/AIAAAA=="%string /\
  decode "AEAAwP9/AIAAAA==" = Ok example_array /\
  decode "AEAAwP9/AIAAAA" = Ok example_array /\
  decode "AEAA wP9/ AIAA AA==" = Ok example_array /\
  decode EmptyString = Ok (new_Uint8Array []) /\
  decode "AEA*" = Throw InvalidCharacterError /\
  decode "AEAAw" = Throw InvalidCharacterError /\
  decode "AE=A" = Throw InvalidCharacterError.
Proof. repeat split; vm_compute; reflexivity. Qed.

(** ** The pipeline *)

(** C5: on the direct path (no music selected, or the selection "none"), a
    payload that decodes to N 16-bit samples yields a WAV blob with
    NumChannels 1, SampleRate 24000, Subchunk2Size N * 2 (as the 32-bit
    field holds it: N * 2 itself below 2^32) and the decoded speech bytes
    as its data. *)
Theorem assemble_direct_path (P : Platform) (payload backgroundMusic : string)
    (customMusicUrl : option string) (musicVolume : number)
    (speech : Uint8Array) (n : nat) :
  decode payload = Ok speech -> length (elements speech) = (2 * n)%nat ->
  truthy (selectedMusicUrl backgroundMusic customMusicUrl) = false \/
  selectedMusicUrl backgroundMusic customMusicUrl = Some "none"%string ->
  exists blob : Blob,
    assemble P payload backgroundMusic customMusicUrl musicVolume = Ok blob /\
    NumChannels blob = 1 /\ SampleRate blob = 24000 /\
    Subchunk2Size blob = ToUint32 (Z.of_nat n * 2) /\
    (Z.of_nat n * 2 < 4294967296 -> Subchunk2Size blob = Z.of_nat n * 2) /\
    wav_data blob = elements speech /\
    length (blob_bytes blob) = (44 + 2 * n)%nat.
Proof.
  intros Hd Hlen Hsel. rewrite assemble_direct by exact Hsel. rewrite Hd. cbn [bind].
  rewrite (decode_whole payload speech Hd) in *.
  eexists. split; [apply (pcmToWav_even speech n); exact Hlen|].
  rewrite header_NumChannels, header_SampleRate, header_Subchunk2Size, header_data.
  repeat match goal with |- _ /\ _ => split end; try reflexivity.
  - intros H. unfold ToUint32. rewrite Z.mod_small by lia. reflexivity.
  - cbn [blob_bytes]. rewrite length_app, header_length. lia.
Qed.

(** Five samples, selection "none": Subchunk2Size 10, the data the speech. *)
Lemma assemble_direct_path_witness :
  exists blob : Blob,
    assemble example_platform "AEAAwP9/AIAAAA==" "none" None (number_of_Z 0) = Ok blob /\
    NumChannels blob = 1 /\ SampleRate blob = 24000 /\ Subchunk2Size blob = 10 /\
    wav_data blob = example_speech.
Proof.
  destruct (assemble_direct_path example_platform "AEAAwP9/AIAAAA==" "none" None
              (number_of_Z 0) example_array 5)
    as (blob & Hb & Hc & Hr & _ & Hs & Hd & _).
  - vm_compute. reflexivity.
  - reflexivity.
  - right. reflexivity.
  - exists blob. repeat split; try assumption. apply Hs. reflexivity.
Defined.

(** The pipeline without its unreachable inner check. *)
Lemma assemble_cases (P : Platform) (payload bg : string) (custom : option string)
    (vol : number) :
  assemble P payload bg custom vol
  = let* pcmData := decode payload in
    if truthy (selectedMusicUrl bg custom) && differs (selectedMusicUrl bg custom) "none"
    then mixAudio P pcmData (default EmptyString (selectedMusicUrl bg custom)) vol
    else pcmToWav pcmData (number_of_Z 24000) (number_of_Z 1).
Proof.
  unfold assemble. destruct (decode payload) as [pcm|e]; cbn [bind]; [|reflexivity].
  destruct (truthy (selectedMusicUrl bg custom)); reflexivity.
Qed.

(** C10: on a speech array over a buffer of odd byte length (the arrays
    of the decoder span their buffers) the WAV encoder and the mixer both
    fail, with the RangeError of the 16-bit view; so the pipeline fails on
    every payload that decodes to such an array, on either path. *)
Theorem odd_speech_rejected (P : Platform) (speech : Uint8Array) :
  Nat.odd (length (buffer speech)) = true ->
  (forall sampleRate numChannels : number,
     pcmToWav speech sampleRate numChannels = Throw RangeError) /\
  (forall (musicUrl : string) (musicVolume : number),
     mixAudio P speech musicUrl musicVolume = Throw RangeError) /\
  (forall (payload backgroundMusic : string) (customMusicUrl : option string)
          (musicVolume : number),
     decode payload = Ok speech ->
     assemble P payload backgroundMusic customMusicUrl musicVolume = Throw RangeError).
Proof.
  intros Hodd. assert (Nat.even (length (buffer speech)) = false) as Heven
    by (rewrite <- Nat.negb_odd, Hodd; reflexivity).
  split; [|split].
  - intros. apply pcmToWav_odd. exact Heven.
  - intros. apply mixAudio_odd. exact Heven.
  - intros payload bg custom vol Hd. rewrite assemble_cases, Hd. cbn [bind].
    destruct (_ && _); [apply mixAudio_odd|apply pcmToWav_odd]; exact Heven.
Qed.

(** A speech buffer of one byte. *)
Lemma odd_speech_rejected_witness :
  Nat.odd (length (buffer (new_Uint8Array [x00]))) = true /\
  pcmToWav (new_Uint8Array [x00]) (number_of_Z 24000) (number_of_Z 1) = Throw RangeError /\
  mixAudio example_platform (new_Uint8Array [x00]) "music.mp3" one_half
  = Throw RangeError /\
  assemble example_platform "AA==" "none" None one_half = Throw RangeError.
Proof.
  pose proof (odd_speech_rejected example_platform (new_Uint8Array [x00]) eq_refl)
    as (Hw & Hm & Ha).
  split; [reflexivity|]. split; [apply Hw|]. split; [apply Hm|].
  apply Ha. vm_compute. reflexivity.
Defined.

(** C8, where the claim fails: with a music that cannot be retrieved, the
    exception is not always the one of the retrieval. On speech of an odd
    number of bytes the mixer fails before the request, with a RangeError,
    and on speech of no byte with a NotSupportedError; on a payload that
    is no base64 the pipeline fails in the decoder. The request itself
    would have failed with a TypeError. *)
Lemma music_fetch_failure_comes_later :
  music_unavailable example_platform "unreachable.mp3" /\
  retrieval_error example_platform "unreachable.mp3" = TypeError /\
  mixAudio example_platform (new_Uint8Array [x00]) "unreachable.mp3" one_half
  = Throw RangeError /\
  mixAudio example_platform (new_Uint8Array []) "unreachable.mp3" one_half
  = Throw NotSupportedError /\
  assemble example_platform "AEA*" "unreachable.mp3" None one_half
  = Throw InvalidCharacterError.
Proof. repeat split. Qed.

(** C8, amended: when the music cannot be retrieved the mixer fails and
    returns no blob, and so does the pipeline on the mixing path. On speech
    the mixer accepts (a whole, non-zero number of samples) the exception
    is the one of the retrieval, from the mixer and from the pipeline
    alike: the rejection of the request, the error "Failed to fetch music
    file: ..." on a response that is not a success, or the failure to read
    the body. On other speech the exception is the earlier one. *)
Theorem music_fetch_failure (P : Platform) (speech : Uint8Array) (musicUrl : string)
    (musicVolume : number) :
  music_unavailable P musicUrl ->
  (exists e : exn, mixAudio P speech musicUrl musicVolume = Throw e) /\
  (forall (payload backgroundMusic : string) (customMusicUrl : option string),
     selectedMusicUrl backgroundMusic customMusicUrl = Some musicUrl ->
     musicUrl <> EmptyString -> musicUrl <> "none"%string ->
     exists e : exn,
       assemble P payload backgroundMusic customMusicUrl musicVolume = Throw e) /\
  (Nat.even (length (buffer speech)) = true -> buffer speech <> [] ->
   mixAudio P speech musicUrl musicVolume = Throw (retrieval_error P musicUrl) /\
   forall (payload backgroundMusic : string) (customMusicUrl : option string),
     decode payload = Ok speech ->
     selectedMusicUrl backgroundMusic customMusicUrl = Some musicUrl ->
     musicUrl <> EmptyString -> musicUrl <> "none"%string ->
     assemble P payload backgroundMusic customMusicUrl musicVolume
     = Throw (retrieval_error P musicUrl)) /\
  (forall e : exn, fetch P musicUrl = Throw e -> retrieval_error P musicUrl = e) /\
  (forall response : Response,
     fetch P musicUrl = Ok response -> ok response = false ->
     retrieval_error P musicUrl
     = Error ("Failed to fetch music file: " ++ statusText response)) /\
  (forall (response : Response) (e : exn),
     fetch P musicUrl = Ok response -> ok response = true ->
     arrayBuffer response = Throw e -> retrieval_error P musicUrl = e).
Proof.
  intros Hu. split; [|split; [|split; [|split; [|split]]]].
  - apply mixAudio_unavailable. exact Hu.
  - intros payload bg custom Hsel Hne Hnone.
    rewrite (assemble_mix P payload bg custom musicVolume musicUrl) by assumption.
    destruct (decode payload) as [pcm|e]; cbn [bind]; [|exists e; reflexivity].
    apply mixAudio_unavailable. exact Hu.
  - intros Heven Hne.
    assert (mixAudio P speech musicUrl musicVolume = Throw (retrieval_error P musicUrl))
      as Hmix by (apply mixAudio_unavailable; assumption).
    split; [exact Hmix|]. intros payload bg custom Hd Hsel Hne' Hnone.
    rewrite (assemble_mix P payload bg custom musicVolume musicUrl) by assumption.
    rewrite Hd. cbn [bind]. exact Hmix.
  - intros e E. unfold retrieval_error. rewrite E. reflexivity.
  - intros response E Hok. unfold retrieval_error. rewrite E, Hok. reflexivity.
  - intros response e E Hok Hb. unfold retrieval_error. rewrite E, Hok, Hb. reflexivity.
Qed.

(** An unreachable URL: the request is rejected with a TypeError, which is
    the exception of the mixer and of the pipeline. *)
Lemma music_fetch_failure_witness :
  mixAudio example_platform example_array "unreachable.mp3" one_half = Throw TypeError /\
  assemble example_platform "AEAAwP9/AIAAAA==" "unreachable.mp3" None one_half
  = Throw TypeError.
Proof.
  assert (music_unavailable example_platform "unreachable.mp3") as Hu by exact I.
  pose proof (music_fetch_failure example_platform example_array "unreachable.mp3"
                one_half Hu) as (_ & _ & Hm & _).
  destruct Hm as [Hmix Ha]; [reflexivity|discriminate|].
  split; [exact Hmix|].
  apply (Ha "AEAAwP9/AIAAAA=="%string "unreachable.mp3"%string None);
    [vm_compute; reflexivity|reflexivity|discriminate|discriminate].
Defined.

(** ** The mixer *)

(** The mixer succeeds on speech of at least one whole sample once the
    music is retrieved and decoded and the volume is a float. *)
Lemma mixAudio_retrieved (P : Platform) (speech : Uint8Array) (n : nat) (url : string)
    (vol : number) (music : AudioBuffer) :
  length (buffer speech) = (2 * n)%nat -> n <> 0%nat -> music_retrieved P url music ->
  is_float vol = true ->
  mixAudio P speech url vol
  = Ok (mkBlob (wav_header (number_of_Z 24000) (number_of_Z 2) (Z.of_nat (2 * n) * 2)
                  ++ buffer (audioBufferToPcm
                               (mix_render P (int16_elements (buffer speech)) music vol)))
          "audio/wav").
Proof.
  intros Hlen Hn (response & bytes & Hf & Hok & Hb & Hd) Hvol.
  rewrite mixAudio_steps.
  - cbv zeta. rewrite Hf. cbn [bind]. rewrite Hok. cbn [negb bind]. rewrite Hb. cbn [bind].
    rewrite Hd. cbn [bind]. unfold setValueAtTime. rewrite Hvol. cbn [bind].
    apply (pcmToWav_even _ (2 * n)).
    rewrite length_audioBufferToPcm.
    destruct (rendered_shape P (int16_elements (buffer speech)) music vol)
      as (_ & Hl & Hc & _).
    rewrite Hl, Hc, (int16_elements_length n) by exact Hlen. lia.
  - rewrite Hlen, Nat.even_mul. reflexivity.
  - destruct (buffer speech); [simpl in Hlen; lia|discriminate].
Qed.

(** The samples of the blob are the samples of the rendered mix, converted
    to 16 bits, frame by frame, the left channel first. *)
Lemma mixAudio_samples (P : Platform) (speech : Uint8Array) (n : nat) (url : string)
    (vol : number) (music : AudioBuffer) :
  length (buffer speech) = (2 * n)%nat -> n <> 0%nat -> music_retrieved P url music ->
  is_float vol = true ->
  exists blob : Blob,
    mixAudio P speech url vol = Ok blob /\
    length (blob_bytes blob) = (44 + n * 2 * 2)%nat /\
    NumChannels blob = 2 /\ SampleRate blob = 24000 /\
    Subchunk2Size blob = ToUint32 (Z.of_nat n * 2 * 2) /\
    wav_data blob
    = buffer (audioBufferToPcm (mix_render P (int16_elements (buffer speech)) music vol)) /\
    length (int16_elements (wav_data blob)) = (n * 2)%nat /\
    forall c i : nat, (c < 2)%nat -> (i < n)%nat ->
      nth (i * 2 + c) (int16_elements (wav_data blob)) 0
      = float_to_pcm16
          (nth i (getChannelData
                    (mix_render P (int16_elements (buffer speech)) music vol) c)
             f32_zero).
Proof.
  intros Hlen Hn Hm Hvol.
  pose proof (int16_elements_length n (buffer speech) Hlen) as Hs.
  destruct (rendered_shape P (int16_elements (buffer speech)) music vol)
    as (_ & Hl & Hc & Hall).
  eexists. split; [apply (mixAudio_retrieved P speech n url vol music); assumption|].
  rewrite header_NumChannels, header_SampleRate, header_Subchunk2Size, header_data.
  set (rendered := mix_render P (int16_elements (buffer speech)) music vol) in *.
  repeat match goal with |- _ /\ _ => split end; try reflexivity.
  - cbn [blob_bytes]. rewrite length_app, header_length, length_audioBufferToPcm.
    rewrite Hl, Hc. lia.
  - f_equal. lia.
  - rewrite audioBufferToPcm_elements, length_map, length_interleaved_samples.
    rewrite Hl, Hc. lia.
  - intros c i Hc' Hi. rewrite <- Hc. rewrite audioBufferToPcm_nth by lia.
    f_equal. unfold float32_element. apply nth_indep.
    rewrite List.Forall_forall in Hall.
    rewrite (Hall (getChannelData rendered c)); [lia|].
    unfold getChannelData. apply nth_In. fold (numberOfChannels rendered). lia.
Qed.




(** C7: in the rendered mix every sample of both output channels is the
    speech sample of its frame plus the gain times the music sample at the
    loop position: the one channel of mono music in both outputs, the left
    and right channels of stereo music in theirs. The speech enters the sum
    unscaled, the music scaled by the gain before the sum, and nothing is
    applied to the sum; the data of the blob is the float-to-PCM16
    conversion of these samples, frame by frame, which brings each into the
    16-bit range. There is a render when the speech holds at least one
    whole sample, the music is retrieved and the volume is a float. *)
Theorem mix_is_plain_sum (P : Platform) (speech : Uint8Array) (n : nat)
    (musicUrl : string) (musicVolume : number) (music : AudioBuffer) :
  length (buffer speech) = (2 * n)%nat -> n <> 0%nat -> music_retrieved P musicUrl music ->
  is_float musicVolume = true ->
  let samples := int16_elements (buffer speech) in
  let rendered := mix_render P samples music musicVolume in
  let played := playback P 24000 music in
  let gain := Math_fround musicVolume in
  (forall c i : nat, (c < 2)%nat -> (i < n)%nat ->
     (forall m : list float32, buffer_channels played = [m] ->
        nth i (getChannelData rendered c) f32_zero
        = fadd P (pcm16_to_float (nth i samples 0))
            (fmul P gain (nth (i mod buffer_length played)%nat m f32_zero))) /\
     (forall l r : list float32, buffer_channels played = [l; r] ->
        nth i (getChannelData rendered c) f32_zero
        = fadd P (pcm16_to_float (nth i samples 0))
            (fmul P gain
               (nth (i mod buffer_length played)%nat (nth c [l; r] []) f32_zero)))) /\
  (exists blob : Blob,
     mixAudio P speech musicUrl musicVolume = Ok blob /\
     wav_data blob = int16_buffer (map float_to_pcm16 (interleaved_samples rendered)) /\
     forall c i : nat, (c < 2)%nat -> (i < n)%nat ->
       nth (i * 2 + c) (int16_elements (wav_data blob)) 0
       = float_to_pcm16 (nth i (getChannelData rendered c) f32_zero)) /\
  Forall (fun v => -32768 <= v <= 32767)
    (map float_to_pcm16 (interleaved_samples rendered)).
Proof.
  intros Hlen Hn Hm Hvol samples rendered played gain.
  pose proof (int16_elements_length n (buffer speech) Hlen) as Hs.
  split; [|split].
  - intros c i Hc Hi. split.
    + intros m Hmono. apply rendered_sample_mono; [exact Hmono|exact Hc|].
      unfold samples. rewrite Hs. exact Hi.
    + intros l r Hst. apply rendered_sample_stereo; [exact Hst|exact Hc|].
      unfold samples. rewrite Hs. exact Hi.
  - destruct (mixAudio_samples P speech n musicUrl musicVolume music Hlen Hn Hm Hvol)
      as (blob & Hb & _ & _ & _ & _ & Hd & _ & Hsample).
    exists blob. split; [exact Hb|]. split; [|exact Hsample].
    rewrite Hd. apply audioBufferToPcm_interleaved.
  - apply List.Forall_forall. intros v Hv. apply in_map_iff in Hv as (f & <- & _).
    apply float_to_pcm16_range.
Qed.

(** At frame 2 of the example the sum, 32767/32768 + 0.5, exceeds 1.0 in
    the rendered buffer; the conversion brings it to 32767. *)
Lemma mix_is_plain_sum_witness :
  nth 2 (getChannelData example_rendered 0) f32_zero = example_sum /\
  (exists q : Q, float32_value example_sum = Some q /\ (1 < q)%Q) /\
  float_to_pcm16 example_sum = 32767.
Proof.
  destruct (mix_is_plain_sum example_platform example_array 5 "music.mp3"
              one_half example_music)
    as (Hsum & _).
  - reflexivity.
  - discriminate.
  - exists (mkResponse true "OK" (Ok [x00])), [x00]. repeat split; reflexivity.
  - reflexivity.
  - split; [|split].
    + destruct (Hsum 0%nat 2%nat) as (Hmono & _); [lia|lia|].
      apply (Hmono [Math_fround (number_of_Z 1); Math_fround (number_of_Z (-1))]).
      reflexivity.
    + eexists. split; vm_compute; reflexivity.
    + vm_compute. reflexivity.
Defined.

(** * Lemmas for the further properties *)

(** ** Strings of text *)

Lemma code_unit_eqb_eq (a b : N) : code_unit_eqb a b = true <-> a = b.
Proof. apply N.eqb_eq. Qed.

Lemma code_unit_eqb_refl (a : N) : code_unit_eqb a a = true.
Proof. apply N.eqb_refl. Qed.

Lemma code_unit_eqb_neq (a b : N) : code_unit_eqb a b = false <-> a <> b.
Proof. apply N.eqb_neq. Qed.

Lemma jsstring_eqb_eq (s t : jsstring) : jsstring_eqb s t = true <-> s = t.
Proof.
  revert t. induction s as [|a s IH]; intros [|b t]; cbn [jsstring_eqb];
    try (split; [discriminate|discriminate]); [tauto|].
  rewrite andb_true_iff, code_unit_eqb_eq, IH. split.
  - intros [-> ->]. reflexivity.
  - intros [= -> ->]. split; reflexivity.
Qed.

Lemma startsWith_app (s p : jsstring) :
  startsWith s p = true <-> exists t, s = p ++ t.
Proof.
  revert s. induction p as [|a p IH]; intros s; cbn [startsWith].
  - split; [intros _; exists s; reflexivity|reflexivity].
  - destruct s as [|b s].
    + split; [discriminate|intros [t Ht]; discriminate].
    + rewrite andb_true_iff, code_unit_eqb_eq, IH. split.
      * intros [-> [t ->]]. exists t. reflexivity.
      * intros [t [= -> ->]]. split; [reflexivity|exists t; reflexivity].
Qed.

Lemma startsWith_nil (s : jsstring) : startsWith s [] = true.
Proof. destruct s; reflexivity. Qed.

Lemma includes_app (s p : jsstring) :
  includes s p = true <-> exists a b, s = a ++ p ++ b.
Proof.
  induction s as [|c s IH]; cbn [includes]; rewrite orb_true_iff, startsWith_app.
  - split.
    + intros [[t Ht]|H]; [exists [], t; exact Ht|discriminate].
    + intros (a & b & H). left. destruct a; [exists b; exact H|discriminate].
  - rewrite IH. split.
    + intros [[t Ht]|(a & b & ->)]; [exists [], t; exact Ht|exists (c :: a), b; reflexivity].
    + intros (a & b & H). destruct a as [|c' a].
      * left. exists b. exact H.
      * right. injection H as -> ->. exists a, b. reflexivity.
Qed.

Lemma includes_false (s p : jsstring) :
  includes s p = false <-> forall a b, s <> a ++ p ++ b.
Proof.
  rewrite <- not_true_iff_false, includes_app. split.
  - intros H a b E. apply H. exists a, b. exact E.
  - intros H (a & b & E). exact (H a b E).
Qed.

(** *** [split] and [join] *)

Lemma split_cons (sep : N) (s : jsstring) :
  exists piece pieces, split sep s = piece :: pieces.
Proof.
  induction s as [|c s (piece & pieces & IH)]; cbn [split].
  - exists [], []. reflexivity.
  - destruct (code_unit_eqb c sep); [eexists _, _; reflexivity|].
    rewrite IH. eexists _, _. reflexivity.
Qed.

Lemma split_not_nil (sep : N) (s : jsstring) : split sep s <> [].
Proof. destruct (split_cons sep s) as (piece & pieces & ->). discriminate. Qed.

Lemma join_cons (sep : N) (piece piece' : jsstring) (pieces : list jsstring) :
  join sep (piece :: piece' :: pieces) = piece ++ sep :: join sep (piece' :: pieces).
Proof. reflexivity. Qed.

Lemma join_split (sep : N) (s : jsstring) : join sep (split sep s) = s.
Proof.
  induction s as [|c s IH]; [reflexivity|]. cbn [split].
  destruct (split_cons sep s) as (piece & pieces & E). rewrite E in IH |- *.
  destruct (code_unit_eqb c sep) eqn:Hc.
  - apply code_unit_eqb_eq in Hc as ->. rewrite join_cons, IH. reflexivity.
  - destruct pieces as [|piece' pieces].
    + cbn [join] in IH |- *. rewrite IH. reflexivity.
    + rewrite join_cons in IH |- *. cbn [app]. rewrite IH. reflexivity.
Qed.

Lemma split_no_sep (sep : N) (s : jsstring) :
  Forall (fun piece => ~ In sep piece) (split sep s).
Proof.
  induction s as [|c s IH]; cbn [split].
  - repeat constructor. intros [].
  - destruct (code_unit_eqb c sep) eqn:Hc.
    + constructor; [intros []|exact IH].
    + apply code_unit_eqb_neq in Hc.
      destruct (split sep s) as [|piece pieces].
      * repeat constructor. intros [H|[]]. congruence.
      * inversion IH as [|? ? Hp Hps]; subst. constructor; [|exact Hps].
        intros [H|H]; [congruence|exact (Hp H)].
Qed.

Lemma split_piece (sep : N) (piece : jsstring) :
  ~ In sep piece -> split sep piece = [piece].
Proof.
  induction piece as [|c piece IH]; intros H; [reflexivity|]. cbn [split].
  destruct (code_unit_eqb c sep) eqn:Hc.
  - apply code_unit_eqb_eq in Hc as ->. exfalso. apply H. left. reflexivity.
  - rewrite IH by (intros H'; apply H; right; exact H'). reflexivity.
Qed.

Lemma split_app_sep (sep : N) (piece rest : jsstring) :
  ~ In sep piece -> split sep (piece ++ sep :: rest) = piece :: split sep rest.
Proof.
  induction piece as [|c piece IH]; intros H.
  - cbn [app split]. rewrite code_unit_eqb_refl. reflexivity.
  - cbn [app split]. destruct (code_unit_eqb c sep) eqn:Hc.
    + apply code_unit_eqb_eq in Hc as ->. exfalso. apply H. left. reflexivity.
    + rewrite IH by (intros H'; apply H; right; exact H'). reflexivity.
Qed.

Lemma split_join (sep : N) (pieces : list jsstring) :
  pieces <> [] -> Forall (fun piece => ~ In sep piece) pieces ->
  split sep (join sep pieces) = pieces.
Proof.
  induction pieces as [|piece pieces IH]; intros Hne Hall; [congruence|].
  inversion Hall as [|? ? Hp Hps]; subst.
  destruct pieces as [|piece' pieces].
  - cbn [join]. apply split_piece. exact Hp.
  - rewrite join_cons, split_app_sep by exact Hp. rewrite IH by (congruence || assumption).
    reflexivity.
Qed.

Lemma join_nil_inv (sep : N) (pieces : list jsstring) :
  join sep pieces = [] -> Forall (fun piece => piece <> []) pieces -> pieces = [].
Proof.
  destruct pieces as [|piece pieces]; [reflexivity|]. intros H Hall.
  inversion Hall as [|? ? Hp _]; subst. exfalso.
  destruct pieces; cbn [join] in H; [congruence|].
  destruct piece; [congruence|discriminate].
Qed.

Lemma startsWith_app_sep (sep : N) (p x y : jsstring) :
  ~ In sep p -> startsWith (x ++ sep :: y) p = startsWith x p.
Proof.
  revert x. induction p as [|d p IH]; intros x Hsep.
  - rewrite !startsWith_nil. reflexivity.
  - assert (d <> sep) as Hd by (intros ->; apply Hsep; left; reflexivity).
    assert (~ In sep p) as Hp by (intros H; apply Hsep; right; exact H).
    destruct x as [|c x]; cbn [app startsWith].
    + apply code_unit_eqb_neq in Hd. rewrite Hd. reflexivity.
    + rewrite IH by exact Hp. reflexivity.
Qed.

Lemma includes_nil_l (p : jsstring) : p <> [] -> includes [] p = false.
Proof. destruct p; [congruence|reflexivity]. Qed.

(** An occurrence of a string without the separator lies on one side of
    it. *)
Lemma includes_app_sep (sep : N) (p x y : jsstring) :
  ~ In sep p -> p <> [] ->
  includes (x ++ sep :: y) p = includes x p || includes y p.
Proof.
  intros Hsep Hne. induction x as [|c x IH].
  - pose proof (startsWith_app_sep sep p [] y Hsep) as E. cbn [app] in E |- *.
    rewrite includes_nil_l by exact Hne. cbn [includes orb]. rewrite E.
    destruct p; [congruence|reflexivity].
  - change ((c :: x) ++ sep :: y) with (c :: (x ++ sep :: y)). cbn [includes].
    rewrite IH. change (c :: (x ++ sep :: y)) with ((c :: x) ++ sep :: y).
    rewrite startsWith_app_sep by exact Hsep. rewrite !orb_assoc. reflexivity.
Qed.

Lemma includes_join (sep : N) (pieces : list jsstring) (p : jsstring) :
  ~ In sep p -> p <> [] ->
  includes (join sep pieces) p = existsb (fun piece => includes piece p) pieces.
Proof.
  intros Hsep Hne. induction pieces as [|piece pieces IH].
  - apply includes_nil_l. exact Hne.
  - destruct pieces as [|piece' pieces].
    + cbn [join existsb]. rewrite orb_false_r. reflexivity.
    + rewrite join_cons, includes_app_sep, IH by assumption. reflexivity.
Qed.

(** *** [replace] *)

Lemma replace_from_drop (p r : jsstring) (k : nat) (s : jsstring) :
  replace_from p r k s = replace_from p r 0 (drop k s).
Proof.
  revert k. induction s as [|c s IH]; intros [|k]; try reflexivity.
  cbn [replace_from drop]. apply IH.
Qed.

Lemma replace_match (s p r : jsstring) :
  p <> [] -> startsWith s p = true ->
  replace s p r = r ++ replace (drop (length p) s) p r.
Proof.
  intros Hne H. destruct p as [|d p]; [congruence|].
  destruct s as [|c s]; [discriminate|].
  unfold replace. cbn [replace_from]. rewrite H, replace_from_drop.
  cbn [length Nat.sub drop]. rewrite Nat.sub_0_r. reflexivity.
Qed.

Lemma replace_copy (c : N) (s p r : jsstring) :
  startsWith (c :: s) p = false -> replace (c :: s) p r = c :: replace s p r.
Proof. intros H. unfold replace. cbn [replace_from]. rewrite H. reflexivity. Qed.

(** Without an occurrence of the pattern nothing is replaced. *)
Lemma replace_id (s p r : jsstring) : includes s p = false -> replace s p r = s.
Proof.
  induction s as [|c s IH]; [reflexivity|]. cbn [includes].
  intros H. apply orb_false_iff in H as [H1 H2].
  rewrite replace_copy by exact H1. rewrite IH by exact H2. reflexivity.
Qed.

(** A code unit of the result comes from the string or from the
    replacement. *)
Lemma replace_from_In (p r : jsstring) (x : N) (s : jsstring) : forall k : nat,
  In x (replace_from p r k s) -> In x s \/ In x r.
Proof.
  induction s as [|c s IH]; intros k H; [destruct H|].
  destruct k as [|k]; cbn [replace_from] in H.
  - destruct (startsWith (c :: s) p).
    + apply in_app_or in H as [H|H]; [right; exact H|].
      destruct (IH _ H) as [H'|H']; [left; right; exact H'|right; exact H'].
    + destruct H as [<-|H]; [left; left; reflexivity|].
      destruct (IH _ H) as [H'|H']; [left; right; exact H'|right; exact H'].
  - destruct (IH _ H) as [H'|H']; [left; right; exact H'|right; exact H'].
Qed.

Lemma replace_In (s p r : jsstring) (x : N) :
  In x (replace s p r) -> In x s \/ In x r.
Proof. apply replace_from_In. Qed.

Lemma clash_startsWith (r q x : jsstring) :
  clash r q = true -> startsWith (r ++ x) q = false.
Proof.
  revert q. induction r as [|a r IH]; intros [|b q]; cbn [clash]; try discriminate.
  intros H. cbn [app startsWith]. apply orb_true_iff in H as [H|H].
  - apply negb_true_iff, code_unit_eqb_neq in H.
    replace (code_unit_eqb b a) with false
      by (symmetry; apply code_unit_eqb_neq; congruence).
    reflexivity.
  - rewrite (IH _ H). apply andb_false_r.
Qed.

Lemma drop_cons_inv {A} (l : list A) (i : nat) (x : A) (l' : list A) :
  drop i l = x :: l' -> drop (S i) l = l' /\ (i < length l)%nat.
Proof.
  revert i. induction l as [|y l IH]; intros [|i] H; cbn [drop] in *; try discriminate.
  - injection H as -> ->. split; [reflexivity|cbn [length]; lia].
  - destruct (IH _ H) as [H1 H2]. split; [exact H1|cbn [length]; lia].
Qed.

Section Replace.
Variables p r q : jsstring.
Hypothesis p_not_empty : p <> [].
Hypothesis q_not_empty : q <> [].
Hypothesis apart : never_overlap q r = true.

Lemma apart_pattern (i : nat) : (i < length q)%nat -> clash r (drop i q) = true.
Proof.
  intros Hi. unfold never_overlap in apart. apply andb_true_iff in apart as [H _].
  rewrite forallb_forall in H. apply H. apply in_seq. lia.
Qed.

Lemma apart_replacement (i : nat) : (i < length r)%nat -> clash (drop i r) q = true.
Proof.
  intros Hi. destruct i as [|i].
  - assert (0 < length q)%nat as Hq by (destruct q; [congruence|cbn [length]; lia]).
    exact (apart_pattern 0 Hq).
  - unfold never_overlap in apart. apply andb_true_iff in apart as [_ H].
    rewrite forallb_forall in H. apply H. apply in_seq. lia.
Qed.

(** What the result starts with, among the ends of [q], the string started
    with: no replacement is part of it. *)
Lemma startsWith_replace (s : jsstring) : forall i : nat,
  startsWith (replace s p r) (drop i q) = true -> startsWith s (drop i q) = true.
Proof.
  induction s as [|c s IH]; intros i H; [exact H|].
  destruct (drop i q) as [|d q'] eqn:E; [reflexivity|].
  apply drop_cons_inv in E as E'. destruct E' as [E' Hi].
  destruct (startsWith (c :: s) p) eqn:M.
  - rewrite replace_match in H by assumption.
    rewrite clash_startsWith in H; [discriminate|]. rewrite <- E. apply apart_pattern. exact Hi.
  - rewrite replace_copy in H by exact M. cbn [startsWith] in H |- *.
    apply andb_true_iff in H as [H1 H2]. rewrite H1. cbn [andb].
    rewrite <- E'. apply (IH (S i)). rewrite E'. exact H2.
Qed.

Lemma includes_replacement (y : jsstring) : forall (i : nat),
  (i <= length r)%nat -> includes (drop i r ++ y) q = includes y q.
Proof.
  intros i Hi. remember (length r - i)%nat as n eqn:Hn. revert i Hi Hn.
  induction n as [|n IH]; intros i Hi Hn.
  - rewrite drop_ge by lia. reflexivity.
  - destruct (drop i r) as [|x r'] eqn:E.
    + apply (f_equal length) in E. rewrite length_drop in E. cbn [length] in E. lia.
    + apply drop_cons_inv in E as E'. destruct E' as [E' Hlt].
      cbn [app includes]. rewrite <- E' , (IH (S i)) by lia.
      change (x :: drop (S i) r ++ y) with ((x :: drop (S i) r) ++ y).
      rewrite E', <- E, clash_startsWith by (apply apart_replacement; exact Hlt).
      reflexivity.
Qed.

Lemma includes_suffix (s : jsstring) (k : nat) :
  includes s q = false -> includes (drop k s) q = false.
Proof.
  revert k. induction s as [|c s IH]; intros k H; [destruct k; exact H|].
  destruct k as [|k]; [exact H|]. cbn [drop]. apply IH.
  cbn [includes] in H. apply orb_false_iff in H as [_ H]. exact H.
Qed.

(** The pattern [q] is not in the result, when it is the pattern replaced
    or when it was not in the string. *)
Lemma includes_replace (s : jsstring) :
  p = q \/ includes s q = false -> includes (replace s p r) q = false.
Proof.
  remember (length s) as n eqn:Hn. revert s Hn.
  induction n as [n IH] using lt_wf_ind. intros s Hn Hs.
  destruct s as [|c s]; [apply includes_nil_l; exact q_not_empty|].
  assert (startsWith (replace (c :: s) p r) q = false) as Hstart.
  { apply not_true_iff_false. intros H.
    pose proof (startsWith_replace (c :: s) 0 H) as H'. change (drop 0 q) with q in H'.
    destruct Hs as [->|Hs].
    - rewrite replace_match in H by assumption.
      rewrite clash_startsWith in H; [discriminate|].
      apply (apart_replacement 0). destruct r as [|x r'] eqn:Er; [|cbn [length]; lia].
      exfalso. unfold never_overlap in apart. apply andb_true_iff in apart as [Ha _].
      rewrite forallb_forall in Ha.
      assert (In 0%nat (seq 0 (length q))) as Hin
        by (apply in_seq; destruct q; [congruence|cbn [length]; lia]).
      specialize (Ha _ Hin). discriminate.
    - cbn [includes] in Hs. rewrite H' in Hs. discriminate. }
  destruct (startsWith (c :: s) p) eqn:M.
  - rewrite replace_match by assumption.
    rewrite (includes_replacement _ 0) by lia.
    apply (IH (length (drop (length p) (c :: s)))); [|reflexivity|].
    + subst n. rewrite length_drop. destruct p; [congruence|]. cbn [length]. lia.
    + destruct Hs as [Hs|Hs]; [left; exact Hs|right; apply includes_suffix; exact Hs].
  - rewrite replace_copy in Hstart |- * by exact M. cbn [includes]. rewrite Hstart.
    cbn [orb]. apply (IH (length s)); [subst n; cbn [length]; lia|reflexivity|].
    destruct Hs as [Hs|Hs]; [left; exact Hs|right].
    cbn [includes] in Hs. apply orb_false_iff in Hs as [_ Hs]. exact Hs.
Qed.
End Replace.

(** ** The script sent to the model *)

Lemma preprocess_line_standardise (line : jsstring) :
  preprocess_line line = if is_non_dialogue (standardise line) then [] else standardise line.
Proof. reflexivity. Qed.

Lemma preprocess_dialogue_lines (script : jsstring) :
  preprocessScriptForTTS script = join newline (dialogue_lines script).
Proof.
  unfold preprocessScriptForTTS, dialogue_lines. f_equal.
  induction (split newline script) as [|line lines IH]; [reflexivity|].
  cbn [map List.filter]. rewrite IH, preprocess_line_standardise. fold (is_blank (standardise line)).
  destruct (is_non_dialogue (standardise line)).
  - rewrite andb_false_r. reflexivity.
  - rewrite andb_true_r. reflexivity.
Qed.

Lemma standardise_In (line : jsstring) (x : N) :
  In x (standardise line) -> In x line \/ In x tag_s1 \/ In x tag_s2.
Proof.
  intros H. apply replace_In in H as [H|H]; [|right; right; exact H].
  apply replace_In in H as [H|H]; [left; exact H|right; left; exact H].
Qed.

Lemma standardise_tags (line : jsstring) :
  includes (standardise line) tag_narrator = false /\
  includes (standardise line) tag_inquirer = false.
Proof.
  unfold standardise. split.
  - apply includes_replace; [discriminate|discriminate|reflexivity|].
    right. apply includes_replace; [discriminate|discriminate|reflexivity|].
    left. reflexivity.
  - apply includes_replace; [discriminate|discriminate|reflexivity|].
    left. reflexivity.
Qed.

Lemma standardise_id (line : jsstring) :
  includes line tag_narrator = false -> includes line tag_inquirer = false ->
  standardise line = line.
Proof.
  intros H1 H2. unfold standardise. rewrite (replace_id line) by exact H1.
  apply replace_id. exact H2.
Qed.

(** What the dialogue lines are made of. *)
Lemma dialogue_lines_spec (script : jsstring) :
  Forall (fun line =>
            is_blank line = false /\ is_non_dialogue line = false /\
            ~ In newline line /\ line <> [] /\
            includes line tag_narrator = false /\ includes line tag_inquirer = false)
    (dialogue_lines script).
Proof.
  apply List.Forall_forall. intros line H. unfold dialogue_lines in H.
  apply filter_In in H as [H Hkeep]. apply andb_true_iff in Hkeep as [Hb Hd].
  apply negb_true_iff in Hb, Hd. apply in_map_iff in H as (line0 & <- & Hin).
  pose proof (split_no_sep newline script) as Hsep.
  rewrite List.Forall_forall in Hsep. specialize (Hsep _ Hin).
  destruct (standardise_tags line0) as [Ht1 Ht2].
  repeat split; try assumption.
  - intros Hnl. apply standardise_In in Hnl as [Hnl|[Hnl|Hnl]]; [exact (Hsep Hnl)| |];
      vm_compute in Hnl; intuition discriminate.
  - intros E. rewrite E in Hb. discriminate.
Qed.

Lemma existsb_false {A} (f : A -> bool) (l : list A) :
  existsb f l = false <-> Forall (fun x => f x = false) l.
Proof.
  induction l as [|x l IH]; cbn [existsb].
  - split; [constructor|reflexivity].
  - rewrite orb_false_iff, IH. split.
    + intros [H1 H2]. constructor; assumption.
    + intros H. inversion H; subst. split; assumption.
Qed.

Lemma filter_all {A} (f : A -> bool) (l : list A) :
  Forall (fun x => f x = true) l -> List.filter f l = l.
Proof.
  induction 1 as [|x l Hx _ IH]; [reflexivity|]. cbn [List.filter]. rewrite Hx, IH.
  reflexivity.
Qed.

Lemma map_id_on {A} (f : A -> A) (l : list A) :
  Forall (fun x => f x = x) l -> map f l = l.
Proof.
  induction 1 as [|x l Hx _ IH]; [reflexivity|]. cbn [map]. rewrite Hx, IH. reflexivity.
Qed.

(** A script of dialogue lines only, with the short tags, is sent as it
    is. *)
Lemma preprocess_clean (script : jsstring) :
  Forall (fun line => is_blank line = false /\ is_non_dialogue line = false)
    (split newline script) ->
  includes script tag_narrator = false -> includes script tag_inquirer = false ->
  preprocessScriptForTTS script = script.
Proof.
  intros Hall H1 H2. rewrite preprocess_dialogue_lines. unfold dialogue_lines.
  rewrite <- (join_split newline script) in H1, H2.
  rewrite includes_join in H1, H2
    by (try discriminate; vm_compute; intuition discriminate).
  rewrite existsb_false in H1, H2.
  rewrite map_id_on.
  - rewrite filter_all; [apply join_split|].
    eapply Forall_impl; [exact Hall|]. cbn beta. intros line [-> ->]. reflexivity.
  - rewrite List.Forall_forall in H1, H2 |- *. intros line Hin.
    apply standardise_id; [apply H1|apply H2]; exact Hin.
Qed.

Lemma preprocess_lines (script : jsstring) :
  dialogue_lines script <> [] ->
  split newline (preprocessScriptForTTS script) = dialogue_lines script.
Proof.
  intros Hne. rewrite preprocess_dialogue_lines. apply split_join; [exact Hne|].
  eapply Forall_impl; [apply dialogue_lines_spec|]. cbn beta. tauto.
Qed.

Lemma preprocess_tags (script : jsstring) :
  includes (preprocessScriptForTTS script) tag_narrator = false /\
  includes (preprocessScriptForTTS script) tag_inquirer = false.
Proof.
  rewrite preprocess_dialogue_lines.
  rewrite !includes_join by (try discriminate; vm_compute; intuition discriminate).
  rewrite !existsb_false. split.
  - eapply Forall_impl; [apply dialogue_lines_spec|]. cbn beta. tauto.
  - eapply Forall_impl; [apply dialogue_lines_spec|]. cbn beta. tauto.
Qed.

Lemma preprocess_idempotent (script : jsstring) :
  preprocessScriptForTTS (preprocessScriptForTTS script) = preprocessScriptForTTS script.
Proof.
  destruct (dialogue_lines script) as [|line lines] eqn:E.
  - rewrite (preprocess_dialogue_lines script), E. reflexivity.
  - destruct (preprocess_tags script) as [H1 H2].
    apply preprocess_clean; [|exact H1|exact H2].
    rewrite preprocess_lines by (rewrite E; discriminate).
    eapply Forall_impl; [apply dialogue_lines_spec|]. cbn beta. tauto.
Qed.

(** ** The script as it is displayed *)

Lemma indexOf_range (s : jsstring) (c : N) : -1 <= indexOf s c < Z.of_nat (length s).
Proof.
  induction s as [|d s IH]; cbn [indexOf length]; [lia|].
  destruct (code_unit_eqb d c); [lia|].
  destruct (Z.ltb_spec (indexOf s c) 0); lia.
Qed.

(** The index is that of the first occurrence. *)
Lemma indexOf_first (a b : jsstring) (c : N) :
  ~ In c a -> indexOf (a ++ c :: b) c = Z.of_nat (length a).
Proof.
  induction a as [|d a IH]; intros H.
  - cbn [app indexOf]. rewrite code_unit_eqb_refl. reflexivity.
  - cbn [app indexOf length].
    replace (code_unit_eqb d c) with false
      by (symmetry; apply code_unit_eqb_neq; intros ->; apply H; left; reflexivity).
    rewrite IH by (intros H'; apply H; right; exact H').
    destruct (Z.ltb_spec (Z.of_nat (length a)) 0); lia.
Qed.

Lemma indexOf_absent (s : jsstring) (c : N) : ~ In c s -> indexOf s c = -1.
Proof.
  induction s as [|d s IH]; intros H; [reflexivity|]. cbn [indexOf].
  replace (code_unit_eqb d c) with false
    by (symmetry; apply code_unit_eqb_neq; intros ->; apply H; left; reflexivity).
  rewrite IH by (intros H'; apply H; right; exact H'). reflexivity.
Qed.

Lemma substring_0 (s : jsstring) (k : Z) : substring s 0 k = take (clamp_index s k) s.
Proof.
  unfold substring.
  replace (clamp_index s 0) with 0%nat by (unfold clamp_index; lia).
  rewrite Nat.max_0_l, Nat.min_0_l, Nat.sub_0_r. reflexivity.
Qed.

(** The two parts a line is cut into make the line. *)
Lemma substring_cut (s : jsstring) (k : Z) : substring s 0 k ++ substring_from s k = s.
Proof. rewrite substring_0. apply take_drop. Qed.

Lemma script_paragraph_text (line : jsstring) :
  paragraph_text (script_paragraph line) = line.
Proof.
  unfold script_paragraph.
  destruct (startsWith line speaker_1); [apply substring_cut|].
  destruct (startsWith line speaker_2); [apply substring_cut|].
  destruct (startsWith line audio_cue); reflexivity.
Qed.

Lemma script_paragraph_speaker (line : jsstring) :
  startsWith line speaker_1 || startsWith line speaker_2 = true ->
  exists className : string,
    script_paragraph line
    = SpeakerParagraph className (substring line 0 (indexOf line colon + 1))
        (substring_from line (indexOf line colon + 1)).
Proof.
  intros H. unfold script_paragraph.
  destruct (startsWith line speaker_1); [eexists; reflexivity|].
  destruct (startsWith line speaker_2); [eexists; reflexivity|discriminate].
Qed.

Lemma cut_at_colon (a b : jsstring) :
  ~ In colon a ->
  substring (a ++ colon :: b) 0 (indexOf (a ++ colon :: b) colon + 1) = a ++ [colon] /\
  substring_from (a ++ colon :: b) (indexOf (a ++ colon :: b) colon + 1) = b.
Proof.
  intros H. rewrite substring_0, indexOf_first by exact H. unfold substring_from.
  replace (clamp_index (a ++ colon :: b) (Z.of_nat (length a) + 1)) with (length (a ++ [colon]))
    by (unfold clamp_index; rewrite !length_app; cbn [length]; lia).
  change (a ++ colon :: b) with (a ++ [colon] ++ b). rewrite app_assoc.
  split; [apply take_app_length|apply drop_app_length].
Qed.

Lemma cut_without_colon (line : jsstring) :
  ~ In colon line ->
  substring line 0 (indexOf line colon + 1) = [] /\
  substring_from line (indexOf line colon + 1) = line.
Proof.
  intros H. rewrite substring_0, indexOf_absent by exact H. unfold substring_from.
  replace (clamp_index line (-1 + 1)) with 0%nat by (unfold clamp_index; lia).
  split; reflexivity.
Qed.

(** ** The component *)

Lemma truthy_Some (url : string) : truthy (Some url) = true <-> url <> EmptyString.
Proof.
  cbn [truthy]. rewrite negb_true_iff. apply String.eqb_neq.
Qed.

Lemma In_urls_filter (u : string) (l : list (string * Blob)) (x : string) :
  In x (map fst (List.filter (fun entry => negb (String.eqb (fst entry) u)) l))
  <-> In x (map fst l) /\ x <> u.
Proof.
  induction l as [|[y blob] l IH]; cbn [List.filter map fst In]; [tauto|].
  destruct (String.eqb_spec y u) as [->|Hy]; cbn [negb map fst In]; rewrite IH.
  - split; [tauto|]. intros [[<-|H] Hx]; [congruence|tauto].
  - split; [|tauto]. intros [<-|H]; tauto.
Qed.

Lemma NoDup_urls_filter (u : string) (l : list (string * Blob)) :
  List.NoDup (map fst l) ->
  List.NoDup (map fst (List.filter (fun entry => negb (String.eqb (fst entry) u)) l)).
Proof.
  induction l as [|[y blob] l IH]; cbn [List.filter map fst]; [tauto|].
  intros H. apply List.NoDup_cons_iff in H as [Hy Hl].
  destruct (String.eqb y u); cbn [negb map fst]; [apply IH; exact Hl|].
  apply List.NoDup_cons_iff. split; [|apply IH; exact Hl].
  intros Hin. apply Hy. apply In_urls_filter in Hin as [Hin _]. exact Hin.
Qed.

Lemma In_live_revoke (u : string) (b : Browser) (x : string) :
  In x (live_urls (revokeObjectURL u b)) <-> In x (live_urls b) /\ x <> u.
Proof. apply In_urls_filter. Qed.

Lemma NoDup_live_revoke (u : string) (b : Browser) :
  List.NoDup (live_urls b) -> List.NoDup (live_urls (revokeObjectURL u b)).
Proof. apply NoDup_urls_filter. Qed.

Lemma console_error_urls (label : string) (t : thrown) (b : Browser) :
  live_urls (console_error label t b) = live_urls b.
Proof. reflexivity. Qed.

Section Component.
Variable env : Environment.

(** The handler, from the state and the browser it starts in to those it
    ends in. *)
Lemma handleGenerateAudio_settled (P : Platform) (api : GenAI) (s : State) (b : Browser) :
  handleGenerateAudio env P api s b
  = let b0 := revoke_if_set (audioUrl s) b in
    match generated_audio env P api s with
    | Returned blob =>
        let url := new_object_url env (live_urls b0) in
        (settled s (Some url) None, mkBrowser ((url, blob) :: objectURLs b0) (console b0))
    | Raised t =>
        (settled s None (Some (shown_message env t)),
         console_error "Error generating audio:" t b0)
    end.
Proof.
  unfold handleGenerateAudio, generate_audio, generated_audio, assemble.
  destruct (generateMultiSpeakerSpeech api (PODCAST_SCRIPT env) (voices s)) as [base64Audio|t];
    [|reflexivity].
  destruct (truthy base64Audio); cbn [negb]; [|reflexivity].
  destruct (decode (default EmptyString base64Audio)) as [pcmData|e]; cbn [bind];
    [|reflexivity].
  destruct (truthy (selectedMusicUrl (backgroundMusic s) (customMusicUrl s))); cbn [andb negb].
  - destruct (differs (selectedMusicUrl (backgroundMusic s) (customMusicUrl s)) "none");
      cbn [bind].
    + destruct (mixAudio P pcmData _ (musicVolume s)); reflexivity.
    + destruct (pcmToWav pcmData (number_of_Z 24000) (number_of_Z 1)); reflexivity.
  - destruct (pcmToWav pcmData (number_of_Z 24000) (number_of_Z 1)); reflexivity.
Qed.

(** Dropping the audio URL, or the URL of the music, from the state and
    from the browser. *)
Lemma revoke_held (url : option string) (rest : list string) (b : Browser) :
  List.NoDup (live_urls b) ->
  List.NoDup (match url with Some u => [u] | None => [] end ++ rest) ->
  ~ In EmptyString (match url with Some u => [u] | None => [] end ++ rest) ->
  (forall x, In x (live_urls b)
             <-> In x (match url with Some u => [u] | None => [] end ++ rest)) ->
  List.NoDup (live_urls (revoke_if_set url b)) /\
  forall x, In x (live_urls (revoke_if_set url b)) <-> In x rest.
Proof.
  intros Hlive Hheld Hne Hiff. destruct url as [u|]; cbn [app] in *.
  - unfold revoke_if_set.
    replace (truthy (Some u)) with true
      by (symmetry; apply truthy_Some; intros ->; apply Hne; left; reflexivity).
    cbn [default]. split; [apply NoDup_live_revoke; exact Hlive|].
    intros x. rewrite In_live_revoke, Hiff. apply List.NoDup_cons_iff in Hheld as [Hu _].
    cbn [In]. split.
    + intros [[E|H] Hx]; [exfalso; apply Hx; symmetry; exact E|exact H].
    + intros H. split; [right; exact H|]. intros ->. exact (Hu H).
  - split; [exact Hlive|exact Hiff].
Qed.

Lemma held_urls_settled (s : State) (audio error : option string) :
  held_urls (settled s audio error)
  = match audio with Some url => [url] | None => [] end ++
    match customMusicUrl s with Some url => [url] | None => [] end.
Proof. reflexivity. Qed.

Lemma NoDup_app_r {A} (l1 l2 : list A) : List.NoDup (l1 ++ l2) -> List.NoDup l2.
Proof.
  induction l1 as [|x l1 IH]; [tauto|]. cbn [app]. intros H.
  apply List.NoDup_cons_iff in H as [_ H]. exact (IH H).
Qed.

Lemma NoDup_app_l {A} (l1 l2 : list A) : List.NoDup (l1 ++ l2) -> List.NoDup l1.
Proof.
  induction l1 as [|x l1 IH]; [constructor|]. cbn [app]. intros H.
  apply List.NoDup_cons_iff in H as [Hx H]. apply List.NoDup_cons_iff. split; [|exact (IH H)].
  intros Hin. apply Hx. apply in_or_app. left. exact Hin.
Qed.

Lemma NoDup_swap {A} (l1 l2 : list A) : List.NoDup (l1 ++ l2) -> List.NoDup (l2 ++ l1).
Proof.
  intros H. eapply Permutation.Permutation_NoDup; [|exact H].
  apply Permutation.Permutation_app_comm.
Qed.

(** A new URL joins URLs in order. *)
Lemma tidy_new_url (live rest : list string) :
  fresh_urls env -> List.NoDup live -> List.NoDup rest -> ~ In EmptyString rest ->
  (forall x, In x live <-> In x rest) ->
  List.NoDup (new_object_url env live :: live) /\
  List.NoDup (new_object_url env live :: rest) /\
  ~ In EmptyString (new_object_url env live :: rest) /\
  forall x, In x (new_object_url env live :: live) <-> In x (new_object_url env live :: rest).
Proof.
  intros Hfresh Hlive Hrest Hne Hiff. destruct (Hfresh live) as [Hurl Hnew].
  repeat split.
  - apply List.NoDup_cons_iff. split; assumption.
  - apply List.NoDup_cons_iff. split; [rewrite <- Hiff|]; assumption.
  - intros [H|H]; [congruence|exact (Hne H)].
  - intros [H|H]; [left; exact H|right; apply Hiff; exact H].
  - intros [H|H]; [left; exact H|right; apply Hiff; exact H].
Qed.

Lemma tidy_generate (P : Platform) (api : GenAI) (s : State) (b : Browser) :
  fresh_urls env -> tidy s b ->
  tidy (fst (handleGenerateAudio env P api s b)) (snd (handleGenerateAudio env P api s b)).
Proof.
  intros Hfresh (Hlive & Hheld & Hne & Hiff). rewrite handleGenerateAudio_settled.
  unfold held_urls in Hheld, Hne, Hiff.
  destruct (revoke_held (audioUrl s) _ b Hlive Hheld Hne Hiff) as [Hlive0 Hiff0].
  assert (List.NoDup (match customMusicUrl s with Some url => [url] | None => [] end))
    as Hrest by (eapply NoDup_app_r; exact Hheld).
  assert (~ In EmptyString (match customMusicUrl s with Some url => [url] | None => [] end))
    as Hne0 by (intros H; apply Hne; apply in_or_app; right; exact H).
  cbv zeta. destruct (generated_audio env P api s) as [blob|t]; cbn [fst snd]; unfold tidy.
  - rewrite held_urls_settled. unfold live_urls in *. cbn [objectURLs map fst app].
    apply (tidy_new_url _ _ Hfresh Hlive0 Hrest Hne0 Hiff0).
  - rewrite held_urls_settled, console_error_urls. cbn [app]. tauto.
Qed.

Lemma tidy_upload (file : option Blob) (s : State) (b : Browser) :
  fresh_urls env -> tidy s b ->
  tidy (fst (handleMusicUpload env file s b)) (snd (handleMusicUpload env file s b)).
Proof.
  intros Hfresh Htidy. destruct file as [file|]; [|exact Htidy].
  destruct Htidy as (Hlive & Hheld & Hne & Hiff). unfold held_urls in Hheld, Hne, Hiff.
  assert (forall x,
            In x (match audioUrl s with Some url => [url] | None => [] end ++
                  match customMusicUrl s with Some url => [url] | None => [] end)
            <-> In x (match customMusicUrl s with Some url => [url] | None => [] end ++
                      match audioUrl s with Some url => [url] | None => [] end)) as Hswap
    by (intros x; rewrite !in_app_iff; tauto).
  destruct (revoke_held (customMusicUrl s) _ b Hlive (NoDup_swap _ _ Hheld)) as [Hlive0 Hiff0].
  { rewrite <- Hswap. exact Hne. }
  { intros x. rewrite Hiff. apply Hswap. }
  assert (List.NoDup (match audioUrl s with Some url => [url] | None => [] end))
    as Hrest by (eapply NoDup_app_l; exact Hheld).
  assert (~ In EmptyString (match audioUrl s with Some url => [url] | None => [] end))
    as Hne0 by (intros H; apply Hne; apply in_or_app; left; exact H).
  destruct (tidy_new_url _ _ Hfresh Hlive0 Hrest Hne0 Hiff0) as (H1 & H2 & H3 & H4).
  unfold handleMusicUpload, createObjectURL. cbn [fst snd]. unfold tidy, held_urls.
  unfold live_urls in *. cbn [objectURLs map fst audioUrl customMusicUrl setCustomMusicUrl].
  repeat split.
  - exact H1.
  - apply NoDup_swap. exact H2.
  - rewrite in_app_iff. cbn [In app] in H3 |- *. tauto.
  - intros H. apply in_or_app. apply H4 in H. cbn [In] in H |- *. tauto.
  - intros H. apply H4. apply in_app_or in H. cbn [In] in H |- *. tauto.
Qed.

Lemma tidy_select (value : string) (s : State) (b : Browser) :
  tidy s b ->
  tidy (fst (handleMusicSelect value s b)) (snd (handleMusicSelect value s b)).
Proof.
  intros Htidy. unfold handleMusicSelect.
  destruct (negb (value =? "custom")%string && truthy (customMusicUrl s)) eqn:C;
    cbn [fst snd]; [|exact Htidy].
  apply andb_true_iff in C as [_ C].
  destruct Htidy as (Hlive & Hheld & Hne & Hiff). unfold held_urls in Hheld, Hne, Hiff.
  assert (forall x,
            In x (match audioUrl s with Some url => [url] | None => [] end ++
                  match customMusicUrl s with Some url => [url] | None => [] end)
            <-> In x (match customMusicUrl s with Some url => [url] | None => [] end ++
                      match audioUrl s with Some url => [url] | None => [] end)) as Hswap
    by (intros x; rewrite !in_app_iff; tauto).
  destruct (revoke_held (customMusicUrl s) _ b Hlive (NoDup_swap _ _ Hheld)) as [Hlive0 Hiff0].
  { rewrite <- Hswap. exact Hne. }
  { intros x. rewrite Hiff. apply Hswap. }
  unfold revoke_if_set in Hlive0, Hiff0. rewrite C in Hlive0, Hiff0.
  unfold tidy, held_urls. cbn [audioUrl customMusicUrl setCustomMusicUrl setBackgroundMusic].
  rewrite app_nil_r. repeat split.
  - exact Hlive0.
  - eapply NoDup_app_l. exact Hheld.
  - intros H. apply Hne. apply in_or_app. left. exact H.
  - apply Hiff0.
  - apply Hiff0.
Qed.

Lemma tidy_handle (ev : event) (s : State) (b : Browser) :
  fresh_urls env -> tidy s b -> tidy (fst (handle env (s, b) ev)) (snd (handle env (s, b) ev)).
Proof.
  intros Hfresh Htidy. destruct ev as [speaker voice|file|value|value|P api];
    cbn [handle].
  - exact Htidy.
  - apply tidy_upload; assumption.
  - apply tidy_select; assumption.
  - exact Htidy.
  - apply tidy_generate; assumption.
Qed.

Lemma tidy_foldl (events : list event) : forall sb : State * Browser,
  fresh_urls env -> tidy (fst sb) (snd sb) ->
  tidy (fst (foldl (handle env) sb events)) (snd (foldl (handle env) sb events)).
Proof.
  induction events as [|ev events IH]; intros [s b] Hfresh Htidy; [exact Htidy|].
  cbn [foldl]. apply IH; [exact Hfresh|]. apply tidy_handle; assumption.
Qed.

Lemma tidy_run (events : list event) :
  fresh_urls env -> tidy (fst (run env events)) (snd (run env events)).
Proof.
  intros Hfresh. apply tidy_foldl; [exact Hfresh|].
  repeat split; cbn; try constructor; tauto.
Qed.

Lemma unmount_nothing (b : Browser) : unmount env b = b.
Proof. reflexivity. Qed.
End Component.

(** ** More on the sample converter and the encoder *)

Lemma pcmToWav_audioBufferToPcm (b : AudioBuffer) (sampleRate numChannels : number) :
  pcmToWav (audioBufferToPcm b) sampleRate numChannels
  = Ok (mkBlob (wav_header sampleRate numChannels
                  (Z.of_nat (2 * (buffer_length b * numberOfChannels b)))
                ++ elements (audioBufferToPcm b)) "audio/wav").
Proof.
  rewrite pcmToWav_total, audioBufferToPcm_whole, length_audioBufferToPcm, Nat.even_mul.
  reflexivity.
Qed.

(** *** The order of the samples is kept *)

Lemma Qtruncate_nonneg (n : Z) (d : positive) : 0 <= n -> Qtruncate (n # d) = n / Zpos d.
Proof. intros H. unfold Qtruncate. cbn [Qnum Qden]. apply Z.quot_div_nonneg; lia. Qed.

Lemma Qtruncate_neg (n : Z) (d : positive) :
  n <= 0 -> Qtruncate (n # d) = - ((- n) / Zpos d).
Proof.
  intros H. unfold Qtruncate. cbn [Qnum Qden].
  replace n with (- - n) at 1 by lia. rewrite Z.quot_opp_l by lia.
  rewrite Z.quot_div_nonneg by lia. reflexivity.
Qed.

Lemma div_le_cross (n1 n2 : Z) (d1 d2 : positive) :
  0 <= n1 -> n1 * Zpos d2 <= n2 * Zpos d1 -> n1 / Zpos d1 <= n2 / Zpos d2.
Proof.
  intros H0 H. apply Z.div_le_lower_bound; [lia|].
  pose proof (Z.mul_div_le n1 (Zpos d1) ltac:(lia)). nia.
Qed.

Lemma Qtruncate_le (a b : Q) : (a <= b)%Q -> Qtruncate a <= Qtruncate b.
Proof.
  destruct a as [n1 d1], b as [n2 d2]. unfold Qle. cbn [Qnum Qden]. intros H.
  destruct (Z.le_gt_cases 0 n1) as [H1|H1].
  - assert (0 <= n2) by nia.
    rewrite !Qtruncate_nonneg by lia. apply div_le_cross; assumption.
  - destruct (Z.le_gt_cases 0 n2) as [H2|H2].
    + rewrite Qtruncate_neg, Qtruncate_nonneg by lia.
      pose proof (Z.div_pos (- n1) (Zpos d1) ltac:(lia) ltac:(lia)).
      pose proof (Z.div_pos n2 (Zpos d2) ltac:(lia) ltac:(lia)). lia.
    + rewrite !Qtruncate_neg by lia.
      pose proof (div_le_cross (- n2) (- n1) d2 d1 ltac:(lia) ltac:(nia)). lia.
Qed.

Lemma float_to_pcm16_exact_inside (q : Q) :
  (-1 < q)%Q -> (q < 1)%Q ->
  float_to_pcm16_exact q
  = Qtruncate (if Qlt_le_dec q 0 then (q * 32768)%Q else (q * 32767)%Q).
Proof.
  intros Hl Hu. unfold float_to_pcm16_exact. rewrite clamp_inside by assumption.
  reflexivity.
Qed.

Lemma float_to_pcm16_exact_le (q q' : Q) :
  (-1 < q)%Q -> (q <= q')%Q -> (q' < 1)%Q ->
  float_to_pcm16_exact q <= float_to_pcm16_exact q'.
Proof.
  intros Hl Hle Hu.
  assert (q < 1)%Q as Hu' by (eapply Qle_lt_trans; eassumption).
  assert (-1 < q')%Q as Hl' by (eapply Qlt_le_trans; eassumption).
  rewrite !float_to_pcm16_exact_inside by assumption.
  apply Qtruncate_le.
  destruct (Qlt_le_dec q 0) as [Hq|Hq], (Qlt_le_dec q' 0) as [Hq'|Hq'];
    destruct q as [n d], q' as [n' d']; unfold Qle, Qlt, Qmult in *;
    cbn [Qnum Qden] in *; nia.
Qed.

Lemma float_to_pcm16_le (f g : float32) (q q' : Q) :
  float32_value f = Some q -> float32_value g = Some q' -> (q <= q')%Q ->
  float_to_pcm16 f <= float_to_pcm16 g.
Proof.
  intros Hf Hg Hle.
  pose proof (float_to_pcm16_range f) as Rf. pose proof (float_to_pcm16_range g) as Rg.
  destruct (Qlt_le_dec q' 1) as [Hu|Hu].
  - destruct (Qlt_le_dec (-1) q) as [Hl|Hl].
    + rewrite (float_to_pcm16_value f q Hf), (float_to_pcm16_value g q' Hg).
      apply float_to_pcm16_exact_le; assumption.
    + rewrite (float_to_pcm16_value f q Hf), exact_below by exact Hl. lia.
  - rewrite (float_to_pcm16_value g q' Hg), exact_above by exact Hu. lia.
Qed.

(** *** The string writer *)

Lemma writeString_loop (s : string) (offset : nat) : forall (n i : nat) (view : DataView),
  for_loop_from i n (fun i view => setUint8 view (offset + i) (charCodeAt s i)) view
  = if (n =? 0)%nat || (offset + i + n <=? length view)%nat
    then for_loop_from i n (fun i view => setUint8 view (offset + i) (charCodeAt s i)) view
    else Throw RangeError.
Proof.
  induction n as [|n IH]; intros i view; [reflexivity|].
  cbn [Nat.eqb orb]. destruct (Nat.leb_spec (offset + i + S n) (length view)) as [H|H];
    [reflexivity|].
  cbn [for_loop_from]. unfold setUint8 at 1, set_bytes. cbn [length].
  destruct (Nat.leb_spec (offset + i + 1) (length view)) as [H1|H1]; [|reflexivity].
  cbn [bind]. rewrite IH. destruct n as [|n]; [lia|]. cbn [Nat.eqb orb].
  match goal with
  | |- (if (?a <=? ?b)%nat then _ else _) = _ =>
      replace (a <=? b)%nat with false; [reflexivity|]
  end.
  symmetry. apply Nat.leb_gt. rewrite !length_app, length_take, length_drop.
  cbn [length]. lia.
Qed.

Lemma writeString_overflow (view : DataView) (offset : nat) (s : string) :
  s <> EmptyString -> (length view < offset + String.length s)%nat ->
  writeString view offset s = Throw RangeError.
Proof.
  intros Hne H. unfold writeString, for_loop. rewrite writeString_loop.
  destruct s as [|c s]; [congruence|]. cbn [String.length Nat.eqb orb] in *.
  destruct (Nat.leb_spec (offset + 0 + S (String.length s)) (length view)); [lia|reflexivity].
Qed.

(** *** The failure to decode the music *)

Lemma mixAudio_decode_failure (P : Platform) (speech : Uint8Array) (url : string)
    (vol : number) (response : Response) (bytes : list byte) (e : exn) :
  Nat.even (length (buffer speech)) = true -> buffer speech <> [] ->
  fetch P url = Ok response -> ok response = true -> arrayBuffer response = Ok bytes ->
  decodeAudioData P bytes = Throw e ->
  mixAudio P speech url vol = Throw e.
Proof.
  intros Heven Hne Hf Hok Hb Hd. rewrite mixAudio_steps by assumption.
  cbv zeta. rewrite Hf. cbn [bind]. rewrite Hok. cbn [negb bind]. rewrite Hb. cbn [bind].
  rewrite Hd. reflexivity.
Qed.

(** *** Music that adds nothing *)

Lemma float_to_pcm16_ext (f g : float32) :
  f32_val f = f32_val g -> float_to_pcm16 f = float_to_pcm16 g.
Proof.
  intros E. unfold float_to_pcm16, clamp_sample, float32_number. rewrite E. reflexivity.
Qed.

Lemma float_to_pcm16_zero (f : float32) (s : bool) :
  f32_val f = S754_zero s -> float_to_pcm16 f = 0.
Proof.
  destruct f as [x H]. cbn [f32_val]. intros ->. apply (float_to_pcm16_special _ H).
Qed.

Lemma ieee_fmul_zero (m : float32) :
  is_number m = true ->
  exists s : bool,
    f32_val (ieee_fmul (Math_fround (number_of_Z 0)) m) = S754_zero s.
Proof.
  unfold is_number, ieee_fmul. intros H.
  change (f32_val (Math_fround (number_of_Z 0))) with (S754_zero false).
  destruct (f32_val m) as [s|s| |s mm e]; try discriminate;
    eexists; apply float32_of_val; reflexivity.
Qed.

Lemma int16_elements_range (buf : ArrayBuffer) :
  Forall (fun v => -32768 <= v <= 32767) (int16_elements buf).
Proof.
  remember (length buf) as n eqn:Hn. revert buf Hn.
  induction n as [n IH] using lt_wf_ind. intros buf Hn.
  destruct buf as [|b0 [|b1 rest]]; try constructor.
  - unfold ToInt16. pose proof (Z.mod_pos_bound (le_value [b0; b1] + 32768) 65536). lia.
  - apply (IH (length rest)); [subst n; cbn [length]; lia|reflexivity].
Qed.

Lemma silent_sample (s : Z) (m : float32) :
  -32768 <= s <= 32767 -> is_number m = true ->
  float_to_pcm16
    (ieee_fadd (pcm16_to_float s) (ieee_fmul (Math_fround (number_of_Z 0)) m))
  = round_trip s.
Proof.
  intros Hs Hm. destruct (ieee_fmul_zero m Hm) as [sz Hz]. unfold round_trip.
  rewrite <- roundtrip_sample by exact Hs.
  destruct s as [|p|p].
  - rewrite (float_to_pcm16_zero (pcm16_to_float 0) false) by reflexivity.
    unfold ieee_fadd. rewrite Hz.
    change (f32_val (pcm16_to_float 0)) with (S754_zero false).
    destruct sz; eapply float_to_pcm16_zero; apply float32_of_val; reflexivity.
  - apply float_to_pcm16_ext. unfold ieee_fadd. rewrite Hz.
    pose proof (f32_valid (pcm16_to_float (Zpos p))) as Hv.
    rewrite (pcm16_to_float_val false p) in Hv |- * by (apply digits_int16; lia).
    apply float32_of_val. exact Hv.
  - apply float_to_pcm16_ext. unfold ieee_fadd. rewrite Hz.
    pose proof (f32_valid (pcm16_to_float (Zneg p))) as Hv.
    rewrite (pcm16_to_float_val true p) in Hv |- * by (apply digits_int16; lia).
    apply float32_of_val. exact Hv.
Qed.

(** * Further properties of the code *)

(** ** The sample converter, the encoder and the mixer *)

(** X1: the bytes [audioBufferToPcm] returns are the samples of the buffer
    converted to 16 bits, frame by frame and, within a frame, channel by
    channel: two bytes for each sample, and the sample of channel [c] at
    frame [i] at index [i * numberOfChannels + c] of the bytes read back
    as 16-bit integers. *)
Theorem audioBufferToPcm_channel_order (b : AudioBuffer) :
  length (elements (audioBufferToPcm b))
  = (2 * (buffer_length b * numberOfChannels b))%nat /\
  int16_elements (elements (audioBufferToPcm b))
  = map float_to_pcm16 (interleaved_samples b) /\
  forall c i : nat, (c < numberOfChannels b)%nat -> (i < buffer_length b)%nat ->
    nth (i * numberOfChannels b + c) (int16_elements (elements (audioBufferToPcm b))) 0
    = float_to_pcm16 (float32_element (getChannelData b c) i).
Proof.
  rewrite audioBufferToPcm_whole.
  split; [apply length_audioBufferToPcm|]. split; [apply audioBufferToPcm_elements|].
  intros c i Hc Hi. apply audioBufferToPcm_nth; assumption.
Qed.

(** X2: the bytes [audioBufferToPcm] returns always hold a whole number of
    samples, so the encoder never fails on them: the last step of the
    mixer, [pcmToWav(audioBufferToPcm(buffer), ...)], returns a blob of the
    header and these bytes for every buffer, sample rate and channel
    count. *)
Theorem convert_then_encode (b : AudioBuffer) (sampleRate numChannels : number) :
  exists blob : Blob,
    pcmToWav (audioBufferToPcm b) sampleRate numChannels = Ok blob /\
    wav_data blob = elements (audioBufferToPcm b) /\
    length (blob_bytes blob) = (44 + 2 * (buffer_length b * numberOfChannels b))%nat /\
    Subchunk2Size blob
    = ToUint32 (Z.of_nat (2 * (buffer_length b * numberOfChannels b))).
Proof.
  eexists. split; [apply pcmToWav_audioBufferToPcm|].
  rewrite header_data, header_Subchunk2Size. repeat split.
  cbn [blob_bytes].
  rewrite length_app, header_length, audioBufferToPcm_whole, length_audioBufferToPcm.
  reflexivity.
Qed.

(** X3: the conversion to 16 bits keeps the order of the samples: of two
    samples that are numbers, the one of the smaller value is converted to
    the smaller or the same integer. *)
Theorem float_to_pcm16_monotone (f g : float32) (q q' : Q) :
  float32_value f = Some q -> float32_value g = Some q' -> (q <= q')%Q ->
  float_to_pcm16 f <= float_to_pcm16 g.
Proof. apply float_to_pcm16_le. Qed.

(** A half and one: 16383 and 32767. *)
Lemma float_to_pcm16_monotone_witness :
  float_to_pcm16 (Math_fround one_half) <= float_to_pcm16 (Math_fround (number_of_Z 1)) /\
  float_to_pcm16 (Math_fround one_half) = 16383.
Proof.
  split; [|vm_compute; reflexivity].
  eapply (float_to_pcm16_monotone (Math_fround one_half) (Math_fround (number_of_Z 1))).
  - vm_compute. reflexivity.
  - vm_compute. reflexivity.
  - vm_compute. discriminate.
Defined.

(** X4: when the music is retrieved and cannot be decoded, the mixer fails
    with the exception of [decodeAudioData], on every speech it accepts (a
    whole, non-zero number of samples), and so does the pipeline on the
    mixing path; no blob is returned. *)
Theorem music_decode_failure (P : Platform) (speech : Uint8Array) (musicUrl : string)
    (musicVolume : number) (response : Response) (bytes : list byte) (e : exn) :
  Nat.even (length (buffer speech)) = true -> buffer speech <> [] ->
  fetch P musicUrl = Ok response -> ok response = true ->
  arrayBuffer response = Ok bytes -> decodeAudioData P bytes = Throw e ->
  mixAudio P speech musicUrl musicVolume = Throw e /\
  forall (payload backgroundMusic : string) (customMusicUrl : option string),
    decode payload = Ok speech ->
    selectedMusicUrl backgroundMusic customMusicUrl = Some musicUrl ->
    musicUrl <> EmptyString -> musicUrl <> "none"%string ->
    assemble P payload backgroundMusic customMusicUrl musicVolume = Throw e.
Proof.
  intros Heven Hne Hf Hok Hb Hd.
  assert (mixAudio P speech musicUrl musicVolume = Throw e) as Hmix
    by (eapply mixAudio_decode_failure; eassumption).
  split; [exact Hmix|].
  intros payload bg custom Hdec Hsel Hurl Hnone.
  rewrite (assemble_mix P payload bg custom musicVolume musicUrl) by assumption.
  rewrite Hdec. exact Hmix.
Qed.

(** A music file of no byte. *)
Lemma music_decode_failure_witness :
  mixAudio example_corrupt_platform example_array "music.mp3" one_half
  = Throw EncodingError /\
  assemble example_corrupt_platform "AEAAwP9/AIAAAA==" "music.mp3" None one_half
  = Throw EncodingError.
Proof.
  destruct (music_decode_failure example_corrupt_platform example_array "music.mp3"
              one_half (mkResponse true "OK" (Ok [])) [] EncodingError)
    as [Hmix Hall]; try reflexivity; try discriminate.
  split; [exact Hmix|].
  apply (Hall "AEAAwP9/AIAAAA=="%string "music.mp3"%string None);
    [vm_compute; reflexivity|reflexivity|discriminate|discriminate].
Defined.

(** X5: [writeString] writes the characters of the string into the view
    from the offset on, and nothing else of the view changes; it fails
    with a RangeError when the string, not empty, does not fit between the
    offset and the end of the view. The empty string is written anywhere,
    the loop making no step. *)
Theorem writeString_bounds (view : DataView) (offset : nat) (s : string) :
  writeString view offset s
  = if (String.length s =? 0)%nat || (offset + String.length s <=? length view)%nat
    then Ok (take offset view ++ ascii_bytes s ++ drop (offset + String.length s) view)
    else Throw RangeError.
Proof.
  destruct s as [|c s].
  - cbn [String.length Nat.eqb orb]. rewrite Nat.add_0_r.
    change (ascii_bytes EmptyString) with (@nil byte). cbn [app]. rewrite take_drop.
    reflexivity.
  - cbn [Nat.eqb String.length orb].
    destruct (Nat.leb_spec (offset + S (String.length s)) (length view)) as [H|H].
    + rewrite writeString_set_bytes by exact H.
      rewrite set_bytes_ok by (rewrite length_ascii_bytes; exact H).
      rewrite length_ascii_bytes. reflexivity.
    + apply writeString_overflow; [discriminate|exact H].
Qed.

(** X6: with music of one channel the two channels of the mix are the
    same: in the data of the blob the left and the right sample of every
    frame are equal. (The mixer returns a blob when the speech holds at
    least one whole sample, the music is retrieved and the volume is a
    float.) *)
Theorem mono_music_same_channels (P : Platform) (speech : Uint8Array) (n : nat)
    (musicUrl : string) (musicVolume : number) (music : AudioBuffer)
    (m : list float32) :
  length (buffer speech) = (2 * n)%nat -> n <> 0%nat -> music_retrieved P musicUrl music ->
  is_float musicVolume = true ->
  buffer_channels (playback P 24000 music) = [m] ->
  exists blob : Blob,
    mixAudio P speech musicUrl musicVolume = Ok blob /\
    forall i : nat, (i < n)%nat ->
      nth (i * 2) (int16_elements (wav_data blob)) 0
      = nth (i * 2 + 1) (int16_elements (wav_data blob)) 0.
Proof.
  intros Hlen Hn Hm Hvol Hmono.
  pose proof (int16_elements_length n (buffer speech) Hlen) as Hs.
  destruct (mixAudio_samples P speech n musicUrl musicVolume music Hlen Hn Hm Hvol)
    as (blob & Hb & _ & _ & _ & _ & _ & _ & Hsample).
  exists blob. split; [exact Hb|]. intros i Hi.
  rewrite <- (Nat.add_0_r (i * 2)) at 1. rewrite !Hsample by lia.
  rewrite !(rendered_sample_mono P _ music musicVolume m) by (try assumption; lia).
  reflexivity.
Qed.

(** The example: five frames over music of one channel. *)
Lemma mono_music_same_channels_witness :
  exists blob : Blob,
    mixAudio example_platform example_array "music.mp3" one_half = Ok blob /\
    nth 4 (int16_elements (wav_data blob)) 0 = nth 5 (int16_elements (wav_data blob)) 0.
Proof.
  destruct (mono_music_same_channels example_platform example_array 5 "music.mp3"
              one_half example_music
              [Math_fround (number_of_Z 1); Math_fround (number_of_Z (-1))])
    as (blob & Hb & Hsame).
  - reflexivity.
  - discriminate.
  - exists (mkResponse true "OK" (Ok [x00])), [x00]. repeat split; reflexivity.
  - reflexivity.
  - reflexivity.
  - exists blob. split; [exact Hb|]. apply (Hsame 2%nat). lia.
Defined.

Lemma nth_is_number (l : list float32) (k : nat) :
  Forall (fun f => is_number f = true) l -> is_number (nth k l f32_zero) = true.
Proof.
  intros H. revert k. induction H as [|f l Hf _ IH]; intros [|k]; cbn [nth];
    try reflexivity; [exact Hf|apply IH].
Qed.

Lemma nth_int16_elements_range (buf : ArrayBuffer) (i : nat) :
  -32768 <= nth i (int16_elements buf) 0 <= 32767.
Proof.
  pose proof (int16_elements_range buf) as H. revert i.
  induction H as [|v l Hv _ IH]; intros [|i]; cbn [nth]; try lia; [apply IH].
Qed.

(** X7: music that adds nothing leaves the speech as one round trip
    through the floats makes it. With the sums and products of the
    rendering in IEEE 754 binary32, a volume of 0 and music of one or two
    channels whose samples are numbers, both channels of the mix hold, at
    every frame, the speech sample [s] itself when [s <= 0] and [s - 1]
    when [s > 0]: the mixing path does not give back the samples the
    direct path writes. *)
Theorem silent_music_mix (P : Platform) (speech : Uint8Array) (n : nat)
    (musicUrl : string) (music : AudioBuffer) :
  fadd P = ieee_fadd -> fmul P = ieee_fmul ->
  length (buffer speech) = (2 * n)%nat -> n <> 0%nat -> music_retrieved P musicUrl music ->
  (numberOfChannels (playback P 24000 music) = 1 \/
   numberOfChannels (playback P 24000 music) = 2)%nat ->
  Forall (Forall (fun f => is_number f = true))
    (buffer_channels (playback P 24000 music)) ->
  exists blob : Blob,
    mixAudio P speech musicUrl (number_of_Z 0) = Ok blob /\
    forall c i : nat, (c < 2)%nat -> (i < n)%nat ->
      nth (i * 2 + c) (int16_elements (wav_data blob)) 0
      = round_trip (nth i (int16_elements (buffer speech)) 0).
Proof.
  intros Hadd Hmul Hlen Hn Hm Hchannels Hnumbers.
  pose proof (int16_elements_length n (buffer speech) Hlen) as Hs.
  destruct (mixAudio_samples P speech n musicUrl (number_of_Z 0) music Hlen Hn Hm eq_refl)
    as (blob & Hb & _ & _ & _ & _ & _ & _ & Hsample).
  exists blob. split; [exact Hb|]. intros c i Hc' Hi. rewrite Hsample by assumption.
  unfold numberOfChannels in Hchannels.
  destruct (buffer_channels (playback P 24000 music)) as [|l [|r [|x channels]]] eqn:E;
    cbn [length] in Hchannels; try lia.
  - rewrite (rendered_sample_mono P _ music _ l c i E Hc') by lia.
    rewrite Hadd, Hmul. apply silent_sample; [apply nth_int16_elements_range|].
    apply nth_is_number. inversion Hnumbers; assumption.
  - rewrite (rendered_sample_stereo P _ music _ l r c i E Hc') by lia.
    rewrite Hadd, Hmul. apply silent_sample; [apply nth_int16_elements_range|].
    apply nth_is_number. inversion Hnumbers as [|? ? Hl' Hr']; subst.
    inversion Hr'; subst. destruct c as [|[|c]]; [assumption|assumption|lia].
Qed.

(** The example at volume 0: the samples 16384, -16384, 32767, -32768, 0
    come out as 16383, -16384, 32766, -32768, 0. *)
Lemma silent_music_mix_witness :
  exists blob : Blob,
    mixAudio example_platform example_array "music.mp3" (number_of_Z 0) = Ok blob /\
    nth 0 (int16_elements (wav_data blob)) 0 = 16383 /\
    nth 5 (int16_elements (wav_data blob)) 0 = 32766.
Proof.
  destruct (silent_music_mix example_platform example_array 5 "music.mp3" example_music)
    as (blob & Hb & Hsame).
  - reflexivity.
  - reflexivity.
  - reflexivity.
  - discriminate.
  - exists (mkResponse true "OK" (Ok [x00])), [x00]. repeat split; reflexivity.
  - left. reflexivity.
  - repeat constructor.
  - exists blob. split; [exact Hb|]. split.
    + apply (Hsame 0%nat 0%nat); lia.
    + apply (Hsame 1%nat 2%nat); lia.
Defined.

(** ** The pipeline *)

(** X8: the check of line 63 never throws: the pipeline is the decoder
    followed by the mixer when a music is selected, and by the encoder
    otherwise. With the selection "custom" and no file uploaded, or an
    empty URL, it takes the direct path and returns the speech alone,
    without an error. *)
Theorem custom_without_upload (P : Platform) (payload : string) (musicVolume : number) :
  (forall (backgroundMusic : string) (customMusicUrl : option string),
     assemble P payload backgroundMusic customMusicUrl musicVolume
     = let* pcmData := decode payload in
       if truthy (selectedMusicUrl backgroundMusic customMusicUrl) &&
          differs (selectedMusicUrl backgroundMusic customMusicUrl) "none"
       then mixAudio P pcmData
              (default EmptyString (selectedMusicUrl backgroundMusic customMusicUrl))
              musicVolume
       else pcmToWav pcmData (number_of_Z 24000) (number_of_Z 1)) /\
  assemble P payload "custom" None musicVolume
  = (let* pcmData := decode payload in
     pcmToWav pcmData (number_of_Z 24000) (number_of_Z 1)) /\
  assemble P payload "custom" (Some EmptyString) musicVolume
  = (let* pcmData := decode payload in
     pcmToWav pcmData (number_of_Z 24000) (number_of_Z 1)).
Proof.
  split; [intros; apply assemble_cases|]. split; rewrite assemble_cases; reflexivity.
Qed.

(** ** The script sent to the model *)

(** The example script is sent as its two lines of dialogue. *)
Lemma preprocess_example : preprocessScriptForTTS example_script = example_dialogue.
Proof. vm_compute. reflexivity. Qed.

(** X9: the lines of the script sent to the model are the dialogue lines
    of the script, in their order and with the short tags: none is blank,
    none starts (after trimming) with an audio cue, a bullet, the title of
    the episode or the list of the speakers, and none holds a line feed.
    When the script has no dialogue line the empty string is sent. *)
Theorem preprocessScriptForTTS_lines (script : jsstring) :
  preprocessScriptForTTS script = join newline (dialogue_lines script) /\
  (dialogue_lines script <> [] ->
   split newline (preprocessScriptForTTS script) = dialogue_lines script) /\
  (dialogue_lines script = [] -> preprocessScriptForTTS script = []) /\
  Forall (fun line =>
            is_blank line = false /\ is_non_dialogue line = false /\ ~ In newline line)
    (dialogue_lines script).
Proof.
  split; [apply preprocess_dialogue_lines|]. split; [apply preprocess_lines|].
  split; [intros E; rewrite preprocess_dialogue_lines, E; reflexivity|].
  eapply Forall_impl; [apply dialogue_lines_spec|]. cbn beta. tauto.
Qed.

(** X10: the script sent to the model holds neither of the two long speaker
    tags: every occurrence was replaced, and no replacement made a new
    one. *)
Theorem preprocessScriptForTTS_tags (script : jsstring) :
  includes (preprocessScriptForTTS script) tag_narrator = false /\
  includes (preprocessScriptForTTS script) tag_inquirer = false.
Proof. apply preprocess_tags. Qed.

(** X11: preprocessing is idempotent: a script that was preprocessed is not
    changed by preprocessing it again. *)
Theorem preprocessScriptForTTS_idempotent (script : jsstring) :
  preprocessScriptForTTS (preprocessScriptForTTS script) = preprocessScriptForTTS script.
Proof. apply preprocess_idempotent. Qed.

(** X12: a script whose lines are all dialogue (none blank, none a cue, a
    bullet, the title or the list of the speakers) and which holds no long
    speaker tag is sent unchanged. *)
Theorem preprocessScriptForTTS_clean (script : jsstring) :
  Forall (fun line => is_blank line = false /\ is_non_dialogue line = false)
    (split newline script) ->
  includes script tag_narrator = false -> includes script tag_inquirer = false ->
  preprocessScriptForTTS script = script.
Proof. apply preprocess_clean. Qed.

(** The two lines of dialogue of the example. *)
Lemma preprocessScriptForTTS_clean_witness :
  preprocessScriptForTTS example_dialogue = example_dialogue.
Proof.
  apply (preprocessScriptForTTS_clean example_dialogue).
  - vm_compute. repeat constructor.
  - vm_compute. reflexivity.
  - vm_compute. reflexivity.
Defined.

(** ** The script as it is displayed *)

(** X13: the paragraphs show the script: the texts of the paragraphs,
    joined by line feeds, are the script, whatever its lines are. *)
Theorem script_paragraphs_text (script : jsstring) :
  join newline (map paragraph_text (script_paragraphs script)) = script /\
  length (script_paragraphs script) = length (split newline script).
Proof.
  unfold script_paragraphs. rewrite map_map, length_map. split; [|reflexivity].
  rewrite (map_ext _ (fun line => line) script_paragraph_text), map_id.
  apply join_split.
Qed.

(** X14: the line of a speaker is cut after its first colon: the label is
    the line up to and with that colon, the text what follows; a line of a
    speaker without a colon has an empty label and is all text. *)
Theorem speaker_paragraph_cut (line : jsstring) :
  startsWith line speaker_1 || startsWith line speaker_2 = true ->
  exists (className : string) (label text : jsstring),
    script_paragraph line = SpeakerParagraph className label text /\
    label ++ text = line /\
    (forall a b : jsstring, line = a ++ colon :: b -> ~ In colon a ->
       label = a ++ [colon] /\ text = b) /\
    (~ In colon line -> label = [] /\ text = line).
Proof.
  intros H. destruct (script_paragraph_speaker line H) as [className E].
  eexists className, _, _. split; [exact E|]. split; [apply substring_cut|]. split.
  - intros a b -> Ha. apply cut_at_colon. exact Ha.
  - apply cut_without_colon.
Qed.

(** A line of the narrator: the label is the long tag. *)
Lemma speaker_paragraph_cut_witness :
  exists (className : string) (text : jsstring),
    script_paragraph (tag_narrator ++ [32; 65]%N)
    = SpeakerParagraph className tag_narrator text.
Proof.
  destruct (speaker_paragraph_cut (tag_narrator ++ [32; 65]%N) eq_refl)
    as (className & label & text & E & _ & Hcut & _).
  destruct (Hcut (removelast tag_narrator) [32; 65]%N) as [-> _].
  - reflexivity.
  - vm_compute. intuition discriminate.
  - exists className, text. exact E.
Defined.

(** ** The speech request *)

Lemma speech_not_empty (api : GenAI) (script : jsstring) (voices : VoiceSelection)
    (base64Audio : option string) :
  generateMultiSpeakerSpeech api script voices = Returned base64Audio ->
  base64Audio = None \/ truthy base64Audio = true.
Proof.
  unfold generateMultiSpeakerSpeech. destruct (negb (truthy (API_KEY api))); [discriminate|].
  destruct (generateContent api _ _) as [response|t]; [|discriminate].
  cbv zeta. intros [= <-].
  match goal with |- context [truthy ?o] => destruct (truthy o) eqn:E end;
    [right; exact E|left; reflexivity].
Qed.

(** X15: the speech request fails with the error "API_KEY environment
    variable is not set." when the key is absent or empty, whatever the
    model would answer; it never returns an empty payload (audio data that
    is absent or empty is returned as [null]); and it sends the
    preprocessed script, so a script and its preprocessed form give the
    same request and the same result. *)
Theorem speech_request (api : GenAI) (script : jsstring) (voices : VoiceSelection) :
  (truthy (API_KEY api) = false ->
   generateMultiSpeakerSpeech api script voices
   = Raised (ErrorObject (Error "API_KEY environment variable is not set."))) /\
  (forall base64Audio : string,
     generateMultiSpeakerSpeech api script voices = Returned (Some base64Audio) ->
     base64Audio <> EmptyString) /\
  generateMultiSpeakerSpeech api (preprocessScriptForTTS script) voices
  = generateMultiSpeakerSpeech api script voices.
Proof.
  split; [|split].
  - intros H. unfold generateMultiSpeakerSpeech. rewrite H. reflexivity.
  - intros base64Audio H. apply speech_not_empty in H as [H|H]; [discriminate|].
    apply truthy_Some. exact H.
  - unfold generateMultiSpeakerSpeech. rewrite preprocess_idempotent. reflexivity.
Qed.

(** ** The component *)

Lemma length_append (s t : string) :
  String.length (s ++ t) = (String.length s + String.length t)%nat.
Proof. induction s as [|c s IH]; [reflexivity|]. cbn. rewrite IH. reflexivity. Qed.

Lemma length_concat_In (url : string) (urls : list string) :
  In url urls -> (String.length url <= String.length (String.concat EmptyString urls))%nat.
Proof.
  induction urls as [|u urls IH]; intros H; [destruct H|].
  assert (String.length (String.concat EmptyString (u :: urls))
          = (String.length u + String.length (String.concat EmptyString urls))%nat) as E.
  { destruct urls as [|u' urls]; [cbn; lia|].
    change (String.concat EmptyString (u :: u' :: urls))
      with (u ++ EmptyString ++ String.concat EmptyString (u' :: urls))%string.
    rewrite length_append. reflexivity. }
  rewrite E. destruct H as [->|H]; [lia|]. specialize (IH H). lia.
Qed.

Lemma example_new_url_fresh : fresh_urls example_environment.
Proof.
  intros urls. split; [discriminate|]. intros H.
  apply length_concat_In in H.
  change (new_object_url example_environment urls) with (example_new_url urls) in H.
  unfold example_new_url in H. cbn [String.length] in H. lia.
Qed.

Section ComponentProperties.
Variable env : Environment.

(** X16: however a generation ends, the component is left with nothing
    loading and no status message, and with the voices, the track, the
    volume and the URL of the custom music it started with. When the
    speech request and the assembly give a blob, the component holds no
    error and the URL of a new object, alive in the browser, that stands
    for that blob; when they fail, it holds no audio URL and the message
    of what was thrown, which is also written to the console. The URL of
    the previous audio is revoked in both cases. *)
Theorem handleGenerateAudio_settles (P : Platform) (api : GenAI) (s : State)
    (b : Browser) :
  let s' := fst (handleGenerateAudio env P api s b) in
  let b' := snd (handleGenerateAudio env P api s b) in
  let b0 := revoke_if_set (audioUrl s) b in
  isLoading s' = false /\ statusMessage s' = [] /\
  voices s' = voices s /\ backgroundMusic s' = backgroundMusic s /\
  musicVolume s' = musicVolume s /\ customMusicUrl s' = customMusicUrl s /\
  match generated_audio env P api s with
  | Returned blob =>
      error s' = None /\ audioUrl s' = Some (new_object_url env (live_urls b0)) /\
      objectURLs b' = (new_object_url env (live_urls b0), blob) :: objectURLs b0 /\
      console b' = console b
  | Raised t =>
      error s' = Some (shown_message env t) /\ audioUrl s' = None /\
      objectURLs b' = objectURLs b0 /\
      console b' = console b ++ [("Error generating audio:"%string, t)]
  end.
Proof.
  cbv zeta. rewrite handleGenerateAudio_settled. cbv zeta.
  assert (console (revoke_if_set (audioUrl s) b) = console b) as Hc
    by (unfold revoke_if_set; destruct (truthy (audioUrl s)); reflexivity).
  destruct (generated_audio env P api s) as [blob|t]; cbn [fst snd];
    repeat split; try reflexivity; cbn; rewrite Hc; reflexivity.
Qed.

(** X17: the messages the component shows: the one of the missing key
    when the key of the environment is absent; "Received empty audio data
    from the API." when the model returns no audio; the message of the
    exception when the payload cannot be decoded; "An unknown error
    occurred." when what was thrown is no [Error]. *)
Theorem generation_failures (P : Platform) (api : GenAI) (s : State) (b : Browser) :
  let s' := fst (handleGenerateAudio env P api s b) in
  (truthy (API_KEY api) = false ->
   error s' = Some "API_KEY environment variable is not set."%string) /\
  (generateMultiSpeakerSpeech api (PODCAST_SCRIPT env) (voices s) = Returned None ->
   error s' = Some "Received empty audio data from the API."%string) /\
  (forall (base64Audio : string) (e : exn),
     generateMultiSpeakerSpeech api (PODCAST_SCRIPT env) (voices s) = Returned (Some base64Audio) ->
     decode base64Audio = Throw e -> error s' = Some (message env e)) /\
  (generateMultiSpeakerSpeech api (PODCAST_SCRIPT env) (voices s) = Raised OtherValue ->
   error s' = Some "An unknown error occurred."%string).
Proof.
  cbv zeta. rewrite handleGenerateAudio_settled. cbv zeta. unfold generated_audio.
  split; [|split; [|split]].
  - intros H. unfold generateMultiSpeakerSpeech. rewrite H. reflexivity.
  - intros ->. reflexivity.
  - intros base64Audio e H Hd. rewrite H.
    apply speech_not_empty in H as [H|H]; [discriminate|]. rewrite H. cbn [negb].
    change (default EmptyString (Some base64Audio)) with base64Audio.
    unfold assemble. rewrite Hd. reflexivity.
  - intros ->. reflexivity.
Qed.

(** X18: the object URLs stay in order: after any run of events (choices
    of voices, of a track and of a volume, uploads, generations) the URLs
    alive in the browser are those the state holds, the audio URL and the
    URL of the custom music, none twice: every URL the component drops is
    revoked, and every URL it makes is held. *)
Theorem object_urls_tidy (events : list event) :
  fresh_urls env -> tidy (fst (run env events)) (snd (run env events)).
Proof. intros H. apply tidy_run. exact H. Qed.

(** X19: unmounting the component revokes nothing: the function the effect
    returns reads the variables of the first render, which hold no URL, so
    every URL the state holds at that time stays alive. *)
Theorem unmount_revokes_nothing (events : list event) (url : string) :
  fresh_urls env -> In url (held_urls (fst (run env events))) ->
  unmount env (snd (run env events)) = snd (run env events) /\
  In url (live_urls (unmount env (snd (run env events)))).
Proof.
  intros Hfresh H. split; [reflexivity|].
  rewrite unmount_nothing. destruct (tidy_run env events Hfresh) as (_ & _ & _ & Hiff).
  apply Hiff. exact H.
Qed.
End ComponentProperties.

(** An upload, a generation with the uploaded music (which the example
    platform cannot fetch), the choice of no music, a generation. *)
Lemma object_urls_tidy_witness :
  tidy
    (fst (run example_environment
            [MusicSelect "custom"; MusicUpload (Some (mkBlob [x00] "audio/mpeg"));
             GenerateAudio example_platform example_genai; MusicSelect "none";
             GenerateAudio example_platform example_genai]))
    (snd (run example_environment
            [MusicSelect "custom"; MusicUpload (Some (mkBlob [x00] "audio/mpeg"));
             GenerateAudio example_platform example_genai; MusicSelect "none";
             GenerateAudio example_platform example_genai])).
Proof.
  apply (object_urls_tidy example_environment).
  exact example_new_url_fresh.
Defined.

(** After one generation the URL of the audio is alive, and still alive
    when the component is unmounted. *)
Lemma unmount_revokes_nothing_witness :
  In "b"%string
    (live_urls
       (unmount example_environment
          (snd (run example_environment
                  [GenerateAudio example_platform example_genai])))).
Proof.
  apply (unmount_revokes_nothing example_environment
           [GenerateAudio example_platform example_genai] "b"%string).
  - exact example_new_url_fresh.
  - vm_compute. left. reflexivity.
Defined.
